(** * The FIX message codec of quickfix: parsing, rebuilding, reverse routing

    A shallow embedding of the message codec of package [quickfix].  The
    source file [fix42/MassQuote.go] holds the accessors of the MassQuote
    message followed by [message.go]; the functions [parseMessage],
    [extractSpecificField], [extractField], [newCheckSum], [rebuild] and
    [reverseRoute] are transcribed from it, and the line numbers in the
    comments are those of that file.  The field codec ([parseField],
    [fieldBytes]), the field map ([fieldMap]), the message builder and the
    tag tables they call live in other files of the repository; their models
    below are marked as such. *)

From Stdlib Require Import ZArith List Lia Bool.
From Stdlib Require Import Strings.Byte Strings.String.
From Stdlib Require Import Decimal DecimalZ.
From stdpp Require Import gmap list sorting.

Local Open Scope Z_scope.

(** ** Bytes and byte strings *)

(** A Go [[]byte] is a list of bytes; [int(b)] is the byte's value. *)
Definition byteval (b : byte) : Z := Z.of_N (Byte.to_N b).

#[global] Instance byte_eq_dec : EqDecision byte := Byte.byte_eq_dec.

(** A Go string literal as bytes. *)
Definition str (s : string) : list byte := list_byte_of_string s.

(** The field delimiter ['\001'] and the separator ['='] . *)
Definition SOH : byte := x01.
Definition EQUALS : byte := x3d.

(** Test notation for wire data: ["|"] stands for the delimiter, as in the
    sample message of the specification. *)
Definition wire (s : string) : list byte :=
  List.map (fun b => if Byte.eqb b x7c then SOH else b) (list_byte_of_string s).

(** [bytes.IndexByte]: index of the first occurrence, [None] for -1. *)
Fixpoint IndexByte (buffer : list byte) (c : byte) : option nat :=
  match buffer with
  | [] => None
  | b :: rest =>
      if Byte.eqb b c then Some O
      else match IndexByte rest c with
           | Some i => Some (S i)
           | None => None
           end
  end.

(** Sum of the byte values of a slice ([for _, b := range s { sum += int(b) }]). *)
Definition sumBytes (s : list byte) : Z :=
  fold_right (fun b acc => byteval b + acc) 0 s.

(** Length of a slice as a Go [int]. *)
Definition len {A} (s : list A) : Z := Z.of_nat (length s).

(** ** Decimal conversions ([strconv.Itoa], [%d], [%03d], decimal parsing) *)

Fixpoint bytes_of_uint (d : Decimal.uint) : list byte :=
  match d with
  | Nil => []
  | D0 d => x30 :: bytes_of_uint d
  | D1 d => x31 :: bytes_of_uint d
  | D2 d => x32 :: bytes_of_uint d
  | D3 d => x33 :: bytes_of_uint d
  | D4 d => x34 :: bytes_of_uint d
  | D5 d => x35 :: bytes_of_uint d
  | D6 d => x36 :: bytes_of_uint d
  | D7 d => x37 :: bytes_of_uint d
  | D8 d => x38 :: bytes_of_uint d
  | D9 d => x39 :: bytes_of_uint d
  end.

Fixpoint uint_of_bytes (s : list byte) : option Decimal.uint :=
  match s with
  | [] => Some Nil
  | b :: rest =>
      match uint_of_bytes rest with
      | None => None
      | Some d =>
          match b with
          | x30 => Some (D0 d) | x31 => Some (D1 d) | x32 => Some (D2 d)
          | x33 => Some (D3 d) | x34 => Some (D4 d) | x35 => Some (D5 d)
          | x36 => Some (D6 d) | x37 => Some (D7 d) | x38 => Some (D8 d)
          | x39 => Some (D9 d)
          | _ => None
          end
      end
  end.

(** [strconv.Itoa] and the [%d] verb: decimal digits, ['-'] for negatives. *)
Definition itoa (z : Z) : list byte :=
  match Z.to_int z with
  | Decimal.Pos d => bytes_of_uint d
  | Decimal.Neg d => x2d :: bytes_of_uint d
  end.

(** The [%03d] verb: zero padding up to a width of three, sign included. *)
Definition pad0 (width : nat) (digits : list byte) : list byte :=
  repeat x30 (width - length digits) ++ digits.

Definition sprintf03d (z : Z) : list byte :=
  match Z.to_int z with
  | Decimal.Pos d => pad0 3 (bytes_of_uint d)
  | Decimal.Neg d => x2d :: pad0 2 (bytes_of_uint d)
  end.

(** A non-empty run of decimal digits read as a number. *)
Definition parseUInt (s : list byte) : option Z :=
  match s with
  | [] => None
  | _ => match uint_of_bytes s with
         | Some d => Some (Z.of_uint d)
         | None => None
         end
  end.

(** A decimal integer with an optional minus sign. *)
Definition atoi (s : list byte) : option Z :=
  match s with
  | x2d :: rest => match parseUInt rest with
                   | Some n => Some (- n)
                   | None => None
                   end
  | _ => parseUInt s
  end.

(** ** Tags (package [tag], not among the sources) *)

Module tag.

(** Modelled from the spec: the tag constants of the missing [tag] package.
    The sample message of the specification fixes begin-string = 8,
    body-length = 9, message-type = 35 and checksum = 10; the routing tags
    carry the numbers the FIX protocol assigns to the names the source uses. *)
Definition BeginString : Z := 8.
Definition BodyLength : Z := 9.
Definition CheckSum : Z := 10.
Definition MsgType : Z := 35.
Definition SenderCompID : Z := 49.
Definition SenderSubID : Z := 50.
Definition TargetCompID : Z := 56.
Definition TargetSubID : Z := 57.
Definition OnBehalfOfCompID : Z := 115.
Definition OnBehalfOfSubID : Z := 116.
Definition DeliverToCompID : Z := 128.
Definition DeliverToSubID : Z := 129.
Definition SenderLocationID : Z := 142.
Definition TargetLocationID : Z := 143.
Definition OnBehalfOfLocationID : Z := 144.
Definition DeliverToLocationID : Z := 145.

(** Modelled from the spec: the static table tag -> partition of the missing
    [tag] package ("a static classification into header tags, trailer tags,
    and everything else").  The table is the standard header and standard
    trailer of the FIX protocol. *)
Definition headerTags : list Z :=
  [8; 9; 35; 49; 56; 115; 128; 90; 91; 34; 50; 142; 57; 143; 116; 144; 129;
   145; 43; 97; 52; 122; 212; 213; 347; 369; 370].

Definition trailerTags : list Z := [93; 89; 10].

Definition IsHeader (t : Z) : bool := existsb (Z.eqb t) headerTags.
Definition IsTrailer (t : Z) : bool := existsb (Z.eqb t) trailerTags.

End tag.

(** ** Field values (package [fix], not among the sources) *)

Module fix_.

(** Modelled from the spec: [fix.BeginString_FIX40], "the earliest protocol
    version variant" of the begin-string value taxonomy. *)
Definition BeginString_FIX40 : list byte := str "FIX.4.0".

(** Modelled from the spec: [fix.IntValue.Read], the "declared integer
    value" of a field: [Some] of the number, [None] for the error.  The
    range of Go's [int] is not modelled. *)
Definition IntValue_Read (bytes : list byte) : option Z := atoi bytes.

(** Modelled from the spec: [fix.IntValue.Write], the decimal rendering. *)
Definition IntValue_Write (v : Z) : list byte := itoa v.

End fix_.

(** ** The field codec ([field_bytes.go], not among the sources) *)

(** Modelled from the spec: the wire unit of the missing field codec, a
    "tag=value" unit followed by the delimiter.  [Data] is the full wire
    representation (delimiter included), [Value] the bytes after ['='] and
    before the delimiter. *)
Record fieldBytes := mkFieldBytes {
  Tag : Z;
  Data : list byte;
  Value : list byte
}.

#[global] Instance fieldBytes_eq_dec : EqDecision fieldBytes.
Proof. solve_decision. Defined.

(** Modelled from the spec: a field's "encoded length is the byte count of
    its full wire representation including the delimiter". *)
Definition fieldBytes_Length (f : fieldBytes) : Z := len (Data f).

(** Modelled from the spec: the contribution of a field to the checksum, the
    "sum of raw byte values of [the] field's encoded bytes". *)
Definition fieldBytes_Total (f : fieldBytes) : Z := sumBytes (Data f).

(** Modelled from the spec: the encoding of a field set by a caller, the tag
    in decimal, ['='], the value and the delimiter. *)
Definition newFieldBytes (t : Z) (value : list byte) : fieldBytes :=
  {| Tag := t; Data := itoa t ++ EQUALS :: value ++ [SOH]; Value := value |}.

(** Errors.  [parseError] is the struct of [message.go] with its [OrigError]
    text; [fieldError] stands for an error of the missing [parseField] and
    keeps the offending field bytes. *)
Inductive error :=
| parseError (OrigError : list byte)
| fieldError (rawFieldBytes : list byte).

#[global] Instance error_eq_dec : EqDecision error.
Proof. solve_decision. Defined.

(** The three error texts of [message.go]. *)
Definition errNoTrailingDelim (buffer : list byte) : error :=
  parseError (str "extractField: No Trailing Delim in " ++ buffer).

Definition errOutOfOrder (expectedTag actualTag : Z) : error :=
  parseError (str "extractSpecificField: Fields out of order, expected "
              ++ itoa expectedTag ++ str ", got " ++ itoa actualTag).

Definition errIncorrectLength (expected got : Z) : error :=
  parseError (str "Incorrect Message Length, expected "
              ++ itoa expected ++ str ", got " ++ itoa got).

(** Modelled from the spec: [parseField] of the missing field codec, which
    "parses the field's tag (digits before [=]) and value (bytes after [=],
    before delimiter).  The tag must be a valid positive integer".  The
    argument is the field with its delimiter. *)
Definition parseField (rawFieldBytes : list byte) : fieldBytes + error :=
  match IndexByte rawFieldBytes EQUALS with
  | None => inr (fieldError rawFieldBytes)
  | Some sepIndex =>
      match parseUInt (take sepIndex rawFieldBytes) with
      | Some parsedTag =>
          if 0 <? parsedTag then
            inl {| Tag := parsedTag;
                   Value := drop (S sepIndex)
                              (take (length rawFieldBytes - 1) rawFieldBytes);
                   Data := rawFieldBytes |}
          else inr (fieldError rawFieldBytes)
      | None => inr (fieldError rawFieldBytes)
      end
  end.

(** ** The field map ([field_map.go], not among the sources) *)

(** Modelled from the spec: the "canonical serialization order" of the three
    partitions, "a fixed ordering of tags, independent of arrival order".
    The framing rules put begin-string, body-length and message-type first
    in the header and the checksum last in the trailer; all other tags are
    taken in ascending order.  [fieldOrder i j] holds when tag [i] is written
    before tag [j]. *)
Definition headerOrdering (t : Z) : Z :=
  if t =? tag.BeginString then 1
  else if t =? tag.BodyLength then 2
  else if t =? tag.MsgType then 3
  else 4294967295.

Definition headerFieldOrder (i j : Z) : bool :=
  if headerOrdering i <? headerOrdering j then true
  else if headerOrdering j <? headerOrdering i then false
  else i <? j.

Definition normalFieldOrder (i j : Z) : bool := i <? j.

Definition trailerFieldOrder (i j : Z) : bool :=
  if i =? tag.CheckSum then false
  else if j =? tag.CheckSum then true
  else i <? j.

(** Modelled from the spec: the Field Map, "a mapping from Tag to its raw
    encoded field bytes" that "knows its partition's canonical serialization
    order".  The Go map is a [gmap]. *)
Record fieldMap := mkFieldMap {
  fieldLookup : gmap Z fieldBytes;
  fieldOrder : Z -> Z -> bool
}.

(** [fieldMap.init]: an empty map with the given order. *)
Definition fieldMap_init (ordering : Z -> Z -> bool) : fieldMap :=
  {| fieldLookup := ∅; fieldOrder := ordering |}.

(** The assignment [m.fieldLookup[t] = f] of the source. *)
Definition fieldMap_store (m : fieldMap) (t : Z) (f : fieldBytes) : fieldMap :=
  {| fieldLookup := <[t := f]> (fieldLookup m); fieldOrder := fieldOrder m |}.

(** Modelled from the spec: [set(field)], "insert or overwrite by tag"; the
    field is given by its tag and its written value. *)
Definition fieldMap_Set (m : fieldMap) (field : Z * list byte) : fieldMap :=
  fieldMap_store m (fst field) (newFieldBytes (fst field) (snd field)).

Definition fieldMap_SetField (m : fieldMap) (t : Z) (value : list byte) : fieldMap :=
  fieldMap_store m t (newFieldBytes t value).

(** Modelled from the spec: [get(tag) -> field | not-found] read as a string
    value, which is the field's value bytes. *)
Definition fieldMap_GetField_String (m : fieldMap) (t : Z) : option (list byte) :=
  Value <$> fieldLookup m !! t.

(** Modelled from the spec: [get] read as an integer value; [None] when the
    tag is absent or its value is no integer. *)
Definition fieldMap_GetField_Int (m : fieldMap) (t : Z) : option Z :=
  match fieldLookup m !! t with
  | Some f => fix_.IntValue_Read (Value f)
  | None => None
  end.

(** The tags that do not contribute to the body length (lines 145-146 of the
    parser: begin-string, body-length, checksum). *)
Definition noLength (t : Z) : bool :=
  (t =? tag.BeginString) || (t =? tag.BodyLength) || (t =? tag.CheckSum).

Definition Zsum (l : list Z) : Z := fold_right Z.add 0 l.

(** Modelled from the spec: [totalEncodedLength()], the "sum of all contained
    fields' encoded lengths" in which, as in the parser's own accounting and
    in the length invariant, begin-string, body-length and checksum do not
    count. *)
Definition fieldMap_length (m : fieldMap) : Z :=
  Zsum (List.map (fun kv => if noLength (fst kv) then 0 else fieldBytes_Length (snd kv))
          (map_to_list (fieldLookup m))).

(** Modelled from the spec: the byte sum of a Field Map, the "sum of raw byte
    values of every [...] field's encoded bytes", the checksum field being
    "excluded from [its] own sum". *)
Definition fieldMap_total (m : fieldMap) : Z :=
  Zsum (List.map (fun kv => if fst kv =? tag.CheckSum then 0 else fieldBytes_Total (snd kv))
          (map_to_list (fieldLookup m))).

(** Sorting the tags of a map by its order.  Each order above is a strict
    total order, so the sorted sequence does not depend on the algorithm;
    insertion sort stands for Go's [sort.Sort]. *)
Fixpoint insertTag (less : Z -> Z -> bool) (t : Z) (l : list Z) : list Z :=
  match l with
  | [] => [t]
  | u :: l' => if less t u then t :: u :: l' else u :: insertTag less t l'
  end.

Definition sortTags (less : Z -> Z -> bool) (l : list Z) : list Z :=
  fold_right (insertTag less) [] l.

Definition fieldMap_sortedTags (m : fieldMap) : list Z :=
  sortTags (fieldOrder m) (List.map fst (map_to_list (fieldLookup m))).

(** Modelled from the spec: [serialize(into: byte sink)], which "writes
    contained fields in the partition's canonical tag order". *)
Definition fieldMap_write (m : fieldMap) : list byte :=
  flat_map (fun t => match fieldLookup m !! t with
                     | Some f => Data f
                     | None => []
                     end)
           (fieldMap_sortedTags m).

(** ** Message ([message.go]) *)

(** The [Message] struct.  [Header], [Trailer] and [Body] hold a [fieldMap]
    (the only implementation of the [FieldMap] interface the functions below
    use); [ReceiveTime] is an abstract time stamp, [0] for Go's zero value. *)
Record Message := mkMessage {
  Header : fieldMap;
  Trailer : fieldMap;
  Body : fieldMap;
  ReceiveTime : Z;
  Bytes : list byte;
  bodyBytes : list byte;
  fields : list fieldBytes
}.

(** [msg.fields = append(msg.fields, f)]. *)
Definition appendField (msg : Message) (f : fieldBytes) : Message :=
  {| Header := Header msg; Trailer := Trailer msg; Body := Body msg;
     ReceiveTime := ReceiveTime msg; Bytes := Bytes msg;
     bodyBytes := bodyBytes msg; fields := fields msg ++ [f] |}.

(** [header.fieldLookup[f.Tag] = f]; the local [header] shares its map with
    [msg.Header]. *)
Definition storeHeader (msg : Message) (f : fieldBytes) : Message :=
  {| Header := fieldMap_store (Header msg) (Tag f) f;
     Trailer := Trailer msg; Body := Body msg;
     ReceiveTime := ReceiveTime msg; Bytes := Bytes msg;
     bodyBytes := bodyBytes msg; fields := fields msg |}.

Definition storeTrailer (msg : Message) (f : fieldBytes) : Message :=
  {| Header := Header msg;
     Trailer := fieldMap_store (Trailer msg) (Tag f) f; Body := Body msg;
     ReceiveTime := ReceiveTime msg; Bytes := Bytes msg;
     bodyBytes := bodyBytes msg; fields := fields msg |}.

Definition storeBody (msg : Message) (f : fieldBytes) : Message :=
  {| Header := Header msg; Trailer := Trailer msg;
     Body := fieldMap_store (Body msg) (Tag f) f;
     ReceiveTime := ReceiveTime msg; Bytes := Bytes msg;
     bodyBytes := bodyBytes msg; fields := fields msg |}.

(** [msg.bodyBytes = b]. *)
Definition setBodyBytes (msg : Message) (b : list byte) : Message :=
  {| Header := Header msg; Trailer := Trailer msg; Body := Body msg;
     ReceiveTime := ReceiveTime msg; Bytes := Bytes msg;
     bodyBytes := b; fields := fields msg |}.

(** [extractField].  Go returns a triple (field, remaining bytes, error) in
    which the field is nil exactly when the error is not: [inl] is the
    result with a nil error, [inr] the one with an error. *)
Definition extractField (buffer : list byte)
  : (fieldBytes * list byte) + (list byte * error) :=
  match IndexByte buffer SOH with
  | None =>
      inr (buffer, errNoTrailingDelim buffer)
  | Some endIndex =>
      match parseField (take (S endIndex) buffer) with
      | inl parsedFieldBytes => inl (parsedFieldBytes, drop (S endIndex) buffer)
      | inr err => inr (drop (S endIndex) buffer, err)
      end
  end.

(** [extractSpecificField].  On a tag mismatch Go returns the field along
    with the error; no caller reads it, and [inr] keeps the rest. *)
Definition extractSpecificField (expectedTag : Z) (buffer : list byte)
  : (fieldBytes * list byte) + (list byte * error) :=
  match extractField buffer with
  | inr e => inr e
  | inl (field, remBuffer) =>
      if decide (Tag field ≠ expectedTag) then
        inr (remBuffer, errOutOfOrder expectedTag (Tag field))
      else inl (field, remBuffer)
  end.

(** The [switch] of the loop (lines 119-128): the field goes to the map of
    its partition; a body field sets [foundBody] and moves [trailerBytes] to
    the remaining bytes. *)
Definition routeField (msg : Message) (trailerBytes : list byte)
    (foundBody : bool) (parsedFieldBytes : fieldBytes) (rawMessage : list byte)
  : Message * list byte * bool :=
  if tag.IsHeader (Tag parsedFieldBytes) then
    (storeHeader msg parsedFieldBytes, trailerBytes, foundBody)
  else if tag.IsTrailer (Tag parsedFieldBytes) then
    (storeTrailer msg parsedFieldBytes, trailerBytes, foundBody)
  else
    (storeBody msg parsedFieldBytes, rawMessage, true).

(** The [for] loop of [parseMessage] (lines 112-136).  The state is the
    message under construction, [trailerBytes], [foundBody] and the remaining
    [rawMessage]; the result is the state at the [break], or the error of the
    early [return].  Every turn consumes at least one byte, so the loop is
    run with one unit of fuel per byte of input (and one more); [None] would
    be a loop still running when the fuel is spent. *)
Fixpoint parseLoop (fuel : nat) (msg : Message) (trailerBytes : list byte)
    (foundBody : bool) (rawMessage : list byte)
  : option ((Message * list byte) + error) :=
  match fuel with
  | O => None
  | S fuel' =>
      match extractField rawMessage with
      | inr (_, err) => Some (inr err)
      | inl (parsedFieldBytes, rawMessage) =>
          let msg := appendField msg parsedFieldBytes in
          let '(msg, trailerBytes, foundBody) :=
            routeField msg trailerBytes foundBody parsedFieldBytes rawMessage in
          if Tag parsedFieldBytes =? tag.CheckSum then
            Some (inl (msg, trailerBytes))
          else
            let msg := if foundBody then msg else setBodyBytes msg rawMessage in
            parseLoop fuel' msg trailerBytes foundBody rawMessage
      end
  end.

(** The length accounting of lines 143-150. *)
Definition fieldsLength (fs : list fieldBytes) : Z :=
  fold_left (fun length field =>
               if noLength (Tag field) then length
               else length + fieldBytes_Length field) fs 0.

(** The message [parseMessage] starts from (lines 74-83). *)
Definition newMessage (rawMessage : list byte) : Message :=
  {| Header := fieldMap_init headerFieldOrder;
     Body := fieldMap_init normalFieldOrder;
     Trailer := fieldMap_init trailerFieldOrder;
     ReceiveTime := 0; Bytes := rawMessage;
     bodyBytes := []; fields := [] |}.

(** The trimming of the body slice (lines 139-141). *)
Definition trimBody (msg : Message) (trailerBytes : list byte) : Message :=
  if len (bodyBytes msg) >? len trailerBytes then
    setBodyBytes msg
      (take (length (bodyBytes msg) - length trailerBytes) (bodyBytes msg))
  else msg.

(** The length check that ends [parseMessage] (lines 143-158).  The error
    of [GetField] is dropped there, so the [IntValue] keeps Go's zero value
    when the body-length field holds no integer. *)
Definition declaredLength (msg : Message) : Z :=
  default 0 (fieldMap_GetField_Int (Header msg) tag.BodyLength).

Definition checkLength (msg : Message) : option Message * option error :=
  let length := fieldsLength (fields msg) in
  let bodyLength := declaredLength msg in
  if decide (bodyLength ≠ length) then
    (Some msg, Some (errIncorrectLength bodyLength length))
  else (Some msg, None).

(** [parseMessage].  The Go result pair (message or nil, error or nil) is a
    pair of options. *)
Definition parseMessage (rawMessage : list byte)
  : option (option Message * option error) :=
  let msg := newMessage rawMessage in
  match extractSpecificField tag.BeginString rawMessage with
  | inr (_, err) => Some (None, Some err)
  | inl (parsedFieldBytes, rawMessage) =>
  let msg := storeHeader (appendField msg parsedFieldBytes) parsedFieldBytes in
  match extractSpecificField tag.BodyLength rawMessage with
  | inr (_, err) => Some (None, Some err)
  | inl (parsedFieldBytes, rawMessage) =>
  let msg := storeHeader (appendField msg parsedFieldBytes) parsedFieldBytes in
  match extractSpecificField tag.MsgType rawMessage with
  | inr (_, err) => Some (None, Some err)
  | inl (parsedFieldBytes, rawMessage) =>
  let msg := storeHeader (appendField msg parsedFieldBytes) parsedFieldBytes in
  match parseLoop (S (length rawMessage)) msg [] false rawMessage with
  | None => None
  | Some (inr err) => Some (None, Some err)
  | Some (inl (msg, trailerBytes)) =>
      Some (checkLength (trimBody msg trailerBytes))
  end end end end.

(** [newCheckSum]: the checksum field, tag and written value. *)
Definition newCheckSum (value : Z) : Z * list byte :=
  (tag.CheckSum, sprintf03d value).

(** [fix.NewIntField]: an integer field, tag and written value. *)
Definition NewIntField (t : Z) (value : Z) : Z * list byte :=
  (t, fix_.IntValue_Write value).

(** [rebuild].  The method updates the message in place; the model returns
    the updated message.  Lengths and byte sums stay far below the 64-bit
    range of Go's [int], so [Z] arithmetic is exact; [%] on the non-negative
    sum is [Z.rem]. *)
Definition rebuild (m : Message) : Message :=
  let header := Header m in
  let trailer := Trailer m in
  let bodyLength := fieldMap_length header + len (bodyBytes m) + fieldMap_length trailer in
  let checkSum := fieldMap_total header + fieldMap_total trailer in
  let checkSum := checkSum + sumBytes (bodyBytes m) in
  let checkSum := Z.rem checkSum 256 in
  let header := fieldMap_Set header (NewIntField tag.BodyLength bodyLength) in
  let trailer := fieldMap_Set trailer (newCheckSum checkSum) in
  let b := fieldMap_write header ++ bodyBytes m ++ fieldMap_write trailer in
  {| Header := header; Trailer := trailer; Body := Body m;
     ReceiveTime := ReceiveTime m; Bytes := b;
     bodyBytes := bodyBytes m; fields := fields m |}.

(** Modelled from the spec: the Message Builder of the missing
    [message_builder.go], "a mutable staging object used to construct a new
    message's header/body/trailer from scratch". *)
Record MessageBuilder := mkMessageBuilder {
  builderHeader : fieldMap;
  builderTrailer : fieldMap;
  builderBody : fieldMap
}.

Definition NewMessageBuilder : MessageBuilder :=
  {| builderHeader := fieldMap_init headerFieldOrder;
     builderTrailer := fieldMap_init trailerFieldOrder;
     builderBody := fieldMap_init normalFieldOrder |}.

(** The closure [copy] of [reverseRoute]; the builder it updates is threaded
    through.  Reading a string value cannot fail, so [GetField] returns nil
    exactly when the tag is present. *)
Definition copy (m : Message) (src dest : Z) (reverseBuilder : MessageBuilder)
  : MessageBuilder :=
  match fieldMap_GetField_String (Header m) src with
  | Some field =>
      if decide (len field ≠ 0) then
        {| builderHeader := fieldMap_SetField (builderHeader reverseBuilder) dest field;
           builderTrailer := builderTrailer reverseBuilder;
           builderBody := builderBody reverseBuilder |}
      else reverseBuilder
  | None => reverseBuilder
  end.

(** [reverseRoute]. *)
Definition reverseRoute (m : Message) : MessageBuilder :=
  let reverseBuilder := NewMessageBuilder in
  let reverseBuilder := copy m tag.SenderCompID tag.TargetCompID reverseBuilder in
  let reverseBuilder := copy m tag.SenderSubID tag.TargetSubID reverseBuilder in
  let reverseBuilder := copy m tag.SenderLocationID tag.TargetLocationID reverseBuilder in
  let reverseBuilder := copy m tag.TargetCompID tag.SenderCompID reverseBuilder in
  let reverseBuilder := copy m tag.TargetSubID tag.SenderSubID reverseBuilder in
  let reverseBuilder := copy m tag.TargetLocationID tag.SenderLocationID reverseBuilder in
  let reverseBuilder := copy m tag.OnBehalfOfCompID tag.DeliverToCompID reverseBuilder in
  let reverseBuilder := copy m tag.OnBehalfOfSubID tag.DeliverToSubID reverseBuilder in
  let reverseBuilder := copy m tag.DeliverToCompID tag.OnBehalfOfCompID reverseBuilder in
  let reverseBuilder := copy m tag.DeliverToSubID tag.OnBehalfOfSubID reverseBuilder in
  match fieldMap_GetField_String (Header m) tag.BeginString with
  | Some beginString =>
      if decide (beginString ≠ fix_.BeginString_FIX40) then
        let reverseBuilder :=
          copy m tag.OnBehalfOfLocationID tag.DeliverToLocationID reverseBuilder in
        copy m tag.DeliverToLocationID tag.OnBehalfOfLocationID reverseBuilder
      else reverseBuilder
  | None => reverseBuilder
  end.

(** ** Specification devices *)

(** The first [n] fields of a buffer, by [n] successive calls of
    [extractField], with the bytes left over. *)
Fixpoint extractFields (n : nat) (buffer : list byte)
  : (list fieldBytes * list byte) + error :=
  match n with
  | O => inl ([], buffer)
  | S n' =>
      match extractField buffer with
      | inr (_, err) => inr err
      | inl (f, rest) =>
          match extractFields n' rest with
          | inl (fs, rest') => inl (f :: fs, rest')
          | inr err => inr err
          end
      end
  end.

(** The tags the first three fields must carry, in order. *)
Definition leadingTags : list Z := [tag.BeginString; tag.BodyLength; tag.MsgType].

(** The last field with tag [t] in a sequence of fields. *)
Definition lastWithTag (t : Z) (fs : list fieldBytes) : option fieldBytes :=
  last (filter (fun f => Tag f = t) fs).

(** The partition of a tag: the [switch] of the parser tests the header
    first, the trailer second. *)
Inductive partition := InHeader | InTrailer | InBody.

#[global] Instance partition_eq_dec : EqDecision partition.
Proof. solve_decision. Defined.

Definition partitionOf (t : Z) : partition :=
  if tag.IsHeader t then InHeader
  else if tag.IsTrailer t then InTrailer
  else InBody.

(** The message after the three leading fields (lines 89-108). *)
Definition leadMessage (rawMessage : list byte) (f1 f2 f3 : fieldBytes) : Message :=
  let msg := newMessage rawMessage in
  let msg := storeHeader (appendField msg f1) f1 in
  let msg := storeHeader (appendField msg f2) f2 in
  storeHeader (appendField msg f3) f3.

(** The result of [parseMessage] once the loop has ended. *)
Definition finishParse (r : option ((Message * list byte) + error))
  : option (option Message * option error) :=
  match r with
  | None => None
  | Some (inr err) => Some (None, Some err)
  | Some (inl (msg, trailerBytes)) => Some (checkLength (trimBody msg trailerBytes))
  end.

(** The field a partition's map holds for tag [t] after the fields [fs] have
    gone through the parser: the last field with this tag, when the tag
    belongs to the partition. *)
Definition routedTo (p : partition) (t : Z) (fs : list fieldBytes)
  : option fieldBytes :=
  if decide (partitionOf t = p) then lastWithTag t fs else None.

Definition mapsAgree (msg : Message) : Prop :=
  forall t : Z,
    fieldLookup (Header msg) !! t = routedTo InHeader t (fields msg) /\
    fieldLookup (Trailer msg) !! t = routedTo InTrailer t (fields msg) /\
    fieldLookup (Body msg) !! t = routedTo InBody t (fields msg).

(** What [reverseRoute] copies from [src] to [dest]: the value of the
    header's field [src], when the field is present and its value is not
    empty, encoded under the tag [dest]. *)
Definition copied (m : Message) (src dest : Z) : option fieldBytes :=
  match fieldLookup (Header m) !! src with
  | Some f => if decide (Value f = []) then None
              else Some (newFieldBytes dest (Value f))
  | None => None
  end.

(** The version gate of [reverseRoute]: the begin-string is present and is
    not the FIX.4.0 one. *)
Definition versionGate (m : Message) : bool :=
  match fieldLookup (Header m) !! tag.BeginString with
  | Some f => bool_decide (Value f ≠ fix_.BeginString_FIX40)
  | None => false
  end.

(** The tags [reverseRoute] can set. *)
Definition routingTags : list Z :=
  [tag.SenderCompID; tag.SenderSubID; tag.SenderLocationID;
   tag.TargetCompID; tag.TargetSubID; tag.TargetLocationID;
   tag.OnBehalfOfCompID; tag.OnBehalfOfSubID; tag.OnBehalfOfLocationID;
   tag.DeliverToCompID; tag.DeliverToSubID; tag.DeliverToLocationID].


(** The encoded lengths of the entries of a map that do not count towards
    the body length: its begin-string, body-length and checksum entries. *)
Definition framingLength (m : fieldMap) : Z :=
  Zsum (List.map (fun kv => if noLength (fst kv) then fieldBytes_Length (snd kv) else 0)
          (map_to_list (fieldLookup m))).

(** The trailer without its checksum entry. *)
Definition withoutCheckSum (m : fieldMap) : fieldMap :=
  {| fieldLookup := delete tag.CheckSum (fieldLookup m); fieldOrder := fieldOrder m |}.

(** The checksum of a message as it is written out: the sum of the bytes of
    the written header, of the body payload and of the written trailer less
    its checksum field, modulo 256. *)
Definition outputCheckSum (m : Message) : Z :=
  (sumBytes (fieldMap_write (Header m)) + sumBytes (bodyBytes m)
   + sumBytes (fieldMap_write (withoutCheckSum (Trailer m)))) mod 256.

(** The value of the checksum field of a message's trailer. *)
Definition checkSumValue (m : Message) : option (list byte) :=
  fieldMap_GetField_String (Trailer m) tag.CheckSum.

(** The value [rebuild] computes for the checksum (lines 235-239). *)
Definition rebuildCheckSum (m : Message) : Z :=
  Z.rem (fieldMap_total (Header m) + fieldMap_total (Trailer m)
         + sumBytes (bodyBytes m)) 256.

(** A byte that is a decimal digit. *)
Definition isDigit (b : byte) : bool :=
  (48 <=? byteval b) && (byteval b <=? 57).

(** What holds of the [%03d] rendering of a checksum [c]: three decimal
    digits that read back as [c]. *)
Definition threeDigits (c : Z) : bool :=
  (length (sprintf03d c) =? 3)%nat
  && forallb isDigit (sprintf03d c)
  && bool_decide (atoi (sprintf03d c) = Some c).

(** A caller's update of a header field between parsing and rebuilding
    ([msg.Header.SetField(t, value)]). *)
Definition setHeaderField (m : Message) (t : Z) (value : list byte) : Message :=
  {| Header := fieldMap_SetField (Header m) t value;
     Trailer := Trailer m; Body := Body m;
     ReceiveTime := ReceiveTime m; Bytes := Bytes m;
     bodyBytes := bodyBytes m; fields := fields m |}.

(** The message of a parse that returned one, the empty message otherwise
    (for the examples). *)
Definition parsed (rawMessage : list byte) : Message :=
  match parseMessage rawMessage with
  | Some (Some msg, _) => msg
  | _ => newMessage rawMessage
  end.

(** The raw bytes of the body-partition fields among [fs], in wire order. *)
Definition bodyFieldBytes (fs : list fieldBytes) : list byte :=
  concat (List.map Data (filter (fun f => partitionOf (Tag f) = InBody) fs)).

(** The round trip of a buffer: when it parses without error, the rebuilt
    bytes parse without error too, into the maps of the rebuilt message
    (the parsed maps with body-length and checksum recomputed). *)
Definition roundTrips (rawMessage : list byte) : Prop :=
  forall m : Message,
    parseMessage rawMessage = Some (Some m, None) ->
    exists m2 : Message,
      parseMessage (Bytes (rebuild m)) = Some (Some m2, None) /\
      fieldLookup (Header m2) = fieldLookup (Header (rebuild m)) /\
      fieldLookup (Body m2) = fieldLookup (Body m) /\
      fieldLookup (Trailer m2) = fieldLookup (Trailer (rebuild m)).

(** A heartbeat: a message without body fields. *)
Definition heartbeat : list byte :=
  wire "8=FIX.4.2|9=20|35=0|34=2|49=A|56=B|10=124|".

(** A message whose body starts right after the message type. *)
Definition bodyFirst : list byte :=
  wire "8=FIX.4.2|9=10|35=D|55=X|10=225|".

(** An order with one header field after the message type and one body
    field. *)
Definition order : list byte :=
  wire "8=FIX.4.2|9=15|35=D|49=A|55=X|10=210|".


(** A field that the loop passes over without touching [trailerBytes] and
    without stopping: neither a body field nor the checksum. *)
Definition passedOver (f : fieldBytes) : Prop :=
  partitionOf (Tag f) <> InBody /\ Tag f <> tag.CheckSum.

(** A body field. *)
Definition inBody (f : fieldBytes) : Prop := partitionOf (Tag f) = InBody.

(** A field that is read back from its own bytes: extracting from the bytes
    of the field, followed by anything, gives the field and what follows. *)
Definition readsBack (f : fieldBytes) : Prop :=
  forall rest : list byte, extractField (Data f ++ rest) = inl (f, rest).

(** The fields a map writes, in the order it writes them. *)
Definition writtenFields (m : fieldMap) : list fieldBytes :=
  omap (fun t => fieldLookup m !! t) (fieldMap_sortedTags m).

(** A map whose entries sit under their own tag. *)
Definition keyedByTag (m : gmap Z fieldBytes) : Prop :=
  forall (t : Z) (f : fieldBytes), m !! t = Some f -> Tag f = t.

(** ** The remaining methods of [message.go] *)

(** [parseError.Error] (line 70): the text of a parse error. *)
Definition parseError_Error (OrigError : list byte) : list byte :=
  str "error parsing message: " ++ OrigError.

(** [Message.String] (lines 222-224): the bytes of the message as a string. *)
Definition Message_String (m : Message) : list byte := Bytes m.

(** The map of a partition of a message. *)
Definition partitionMap (m : Message) (p : partition) : gmap Z fieldBytes :=
  match p with
  | InHeader => fieldLookup (Header m)
  | InTrailer => fieldLookup (Trailer m)
  | InBody => fieldLookup (Body m)
  end.

(** The text of an error of [message.go]; the text of a field error belongs
    to the missing field codec. *)
Definition error_Error (e : error) : option (list byte) :=
  match e with
  | parseError OrigError => Some (parseError_Error OrigError)
  | fieldError _ => None
  end.


(** ** Byte search and field extraction *)

Lemma byte_eqb_true (a b : byte) : Byte.eqb a b = true <-> a = b.
Proof.
  split; [apply Byte.byte_dec_bl | apply Byte.byte_dec_lb].
Qed.

Lemma byte_eqb_false (a b : byte) : Byte.eqb a b = false <-> a <> b.
Proof.
  split; [apply Byte.eqb_false|].
  intros Hne. destruct (Byte.eqb a b) eqn:E; [|done].
  apply byte_eqb_true in E. done.
Qed.

Lemma IndexByte_None (buffer : list byte) (c : byte) :
  IndexByte buffer c = None <-> c ∉ buffer.
Proof.
  induction buffer as [|b rest IH]; simpl.
  - split; [intros _; apply not_elem_of_nil | done].
  - destruct (Byte.eqb b c) eqn:E.
    + apply byte_eqb_true in E. subst. split; [done|].
      intros H. exfalso. apply H. left.
    + apply byte_eqb_false in E. rewrite not_elem_of_cons.
      destruct (IndexByte rest c); split; try done; intros H.
      * destruct H as [_ H]. apply IH in H. done.
      * split; [congruence | by apply IH].
Qed.

Lemma IndexByte_Some (buffer : list byte) (c : byte) (i : nat) :
  IndexByte buffer c = Some i ->
  buffer !! i = Some c /\ c ∉ take i buffer.
Proof.
  revert i. induction buffer as [|b rest IH]; simpl; intros i; [done|].
  destruct (Byte.eqb b c) eqn:E.
  - apply byte_eqb_true in E. intros [= <-]. subst. simpl. split; [done|].
    apply not_elem_of_nil.
  - apply byte_eqb_false in E.
    destruct (IndexByte rest c) as [j|]; [|done].
    intros [= <-]. destruct (IH j eq_refl) as [H1 H2]. simpl. split; [done|].
    rewrite not_elem_of_cons. split; [congruence | done].
Qed.

Lemma IndexByte_lt (buffer : list byte) (c : byte) (i : nat) :
  IndexByte buffer c = Some i -> (i < length buffer)%nat.
Proof.
  intros H. apply IndexByte_Some in H as [H _]. by apply lookup_lt_Some in H.
Qed.

(** A successful extraction splits the buffer into the field's bytes and the
    rest. *)
Lemma extractField_inl (buffer : list byte) (f : fieldBytes) (rest : list byte) :
  extractField buffer = inl (f, rest) ->
  buffer = Data f ++ rest /\ (length rest < length buffer)%nat.
Proof.
  unfold extractField.
  destruct (IndexByte buffer SOH) as [i|] eqn:Hi; [|done].
  pose proof (IndexByte_lt _ _ _ Hi) as Hlt.
  unfold parseField.
  destruct (IndexByte (take (S i) buffer) EQUALS) as [sep|]; [|done].
  destruct (parseUInt _) as [t|]; [|done].
  destruct (0 <? t); [|done].
  intros [= <- <-]. simpl. split.
  - by rewrite take_drop.
  - rewrite length_drop. lia.
Qed.

Lemma extractField_no_delim (buffer : list byte) :
  SOH ∉ buffer -> extractField buffer = inr (buffer, errNoTrailingDelim buffer).
Proof.
  intros H. apply IndexByte_None in H. unfold extractField. by rewrite H.
Qed.

Lemma extractFields_app (n k : nat) (buffer : list byte) fs rest :
  extractFields n buffer = inl (fs, rest) ->
  extractFields (n + k) buffer =
    match extractFields k rest with
    | inl (gs, rest') => inl (fs ++ gs, rest')
    | inr err => inr err
    end.
Proof.
  revert buffer fs rest. induction n as [|n IH]; simpl; intros buffer fs rest.
  - intros [= <- <-]. simpl. by destruct (extractFields k buffer) as [[??]|?].
  - destruct (extractField buffer) as [[f r]|[? ?]]; [|done].
    destruct (extractFields n r) as [[gs r']|?] eqn:E; [|done].
    intros [= <- <-]. rewrite (IH _ _ _ E).
    by destruct (extractFields k r') as [[??]|?].
Qed.

Lemma extractFields_length (n : nat) (buffer : list byte) fs rest :
  extractFields n buffer = inl (fs, rest) -> length fs = n.
Proof.
  revert buffer fs rest. induction n as [|n IH]; simpl; intros buffer fs rest.
  - by intros [= <- <-].
  - destruct (extractField buffer) as [[f r]|[? ?]]; [|done].
    destruct (extractFields n r) as [[gs r']|?] eqn:E; [|done].
    intros [= <- <-]. simpl. f_equal. eauto.
Qed.

(** The bytes of the fields and the rest make up the buffer. *)
Lemma extractFields_bytes (n : nat) (buffer : list byte) fs rest :
  extractFields n buffer = inl (fs, rest) ->
  buffer = concat (List.map Data fs) ++ rest.
Proof.
  revert buffer fs rest. induction n as [|n IH]; simpl; intros buffer fs rest.
  - by intros [= <- <-].
  - destruct (extractField buffer) as [[f r]|[? ?]] eqn:Ef; [|done].
    destruct (extractFields n r) as [[gs r']|?] eqn:E; [|done].
    intros [= <- <-]. simpl. apply extractField_inl in Ef as [-> _].
    rewrite <- app_assoc. f_equal. eauto.
Qed.

(** ** The parsing loop *)

(** One turn of the loop. *)
Lemma parseLoop_unfold (fuel : nat) msg tb fb raw :
  parseLoop (S fuel) msg tb fb raw =
    match extractField raw with
    | inr (_, err) => Some (inr err)
    | inl (f, rest) =>
        let '(msg1, tb1, fb1) := routeField (appendField msg f) tb fb f rest in
        if Tag f =? tag.CheckSum then Some (inl (msg1, tb1))
        else parseLoop fuel (if fb1 then msg1 else setBodyBytes msg1 rest)
               tb1 fb1 rest
    end.
Proof. reflexivity. Qed.


(** More fuel than needed does not change the result. *)
Lemma parseLoop_fuel (fuel fuel' : nat) msg tb fb raw r :
  parseLoop fuel msg tb fb raw = Some r -> (fuel <= fuel')%nat ->
  parseLoop fuel' msg tb fb raw = Some r.
Proof.
  revert fuel' msg tb fb raw. induction fuel as [|fuel IH]; intros fuel' msg tb fb raw; [done|].
  intros H Hle. destruct fuel' as [|fuel']; [lia|].
  rewrite parseLoop_unfold in *.
  destruct (extractField raw) as [[f rest]|[? err]]; [|done].
  destruct (routeField _ tb fb f rest) as [[msg1 tb1] fb1].
  destruct (Tag f =? tag.CheckSum); [done|].
  apply IH; [done | lia].
Qed.

(** A property of the message kept by every turn holds at the [break]. *)
Lemma parseLoop_invariant (P : Message -> Prop) :
  (forall msg f tb fb rest,
     P msg -> P (routeField (appendField msg f) tb fb f rest).1.1) ->
  (forall msg b, P msg -> P (setBodyBytes msg b)) ->
  forall fuel msg tb fb raw msg' tb',
    P msg -> parseLoop fuel msg tb fb raw = Some (inl (msg', tb')) -> P msg'.
Proof.
  intros Hroute Hset. induction fuel as [|fuel IH]; intros msg tb fb raw msg' tb' HP; [done|].
  rewrite parseLoop_unfold.
  destruct (extractField raw) as [[f rest]|[? err]]; [|done].
  pose proof (Hroute msg f tb fb rest HP) as HP1.
  destruct (routeField _ tb fb f rest) as [[msg1 tb1] fb1]. simpl in HP1.
  destruct (Tag f =? tag.CheckSum).
  - by intros [= <- <-].
  - apply IH. destruct fb1; [done | by apply Hset].
Qed.

Lemma routeField_fields msg tb fb f rest :
  fields (routeField msg tb fb f rest).1.1 = fields msg.
Proof.
  unfold routeField. by repeat case_match.
Qed.

(** The fields the loop appends are the fields of the buffer up to and
    including the first checksum field. *)
Lemma parseLoop_inl (fuel : nat) msg tb fb raw msg' tb' :
  parseLoop fuel msg tb fb raw = Some (inl (msg', tb')) ->
  exists n fs f rest,
    extractFields (S n) raw = inl (fs ++ [f], rest) /\
    Forall (fun g => Tag g <> tag.CheckSum) fs /\
    Tag f = tag.CheckSum /\
    fields msg' = fields msg ++ fs ++ [f].
Proof.
  revert msg tb fb raw. induction fuel as [|fuel IH]; intros msg tb fb raw; [done|].
  rewrite parseLoop_unfold.
  destruct (extractField raw) as [[f rest]|[? err]] eqn:Ef; [|done].
  pose proof (routeField_fields (appendField msg f) tb fb f rest) as Hf.
  destruct (routeField _ tb fb f rest) as [[msg1 tb1] fb1]. simpl in Hf.
  destruct (Tag f =? tag.CheckSum) eqn:Ec.
  - intros [= <- <-]. exists 0%nat, [], f, rest. simpl. rewrite Ef.
    repeat split; [constructor | lia | done].
  - intros H. apply IH in H as (n & fs & g & rest' & He & Hall & Hg & Hfs).
    exists (S n), (f :: fs), g, rest'. repeat split.
    + change (extractFields (S (S n)) raw) with
        (match extractField raw with
         | inr (_, err) => inr err
         | inl (f, rest) =>
             match extractFields (S n) rest with
             | inl (fs, rest') => inl (f :: fs, rest')
             | inr err => inr err
             end
         end).
      by rewrite Ef, He.
    + constructor; [lia | done].
    + done.
    + rewrite Hfs. replace (fields (if fb1 then msg1 else setBodyBytes msg1 rest))
        with (fields msg1) by (by destruct fb1).
      rewrite Hf. simpl. by rewrite <- app_assoc.
Qed.

(** An extraction error in the loop, after any number of fields none of
    which is the checksum, ends the loop with that error. *)
Lemma parseLoop_inr (n : nat) : forall fuel msg tb fb raw fs rest rem err,
  extractFields n raw = inl (fs, rest) ->
  Forall (fun g => Tag g <> tag.CheckSum) fs ->
  extractField rest = inr (rem, err) ->
  (length raw < fuel)%nat ->
  parseLoop fuel msg tb fb raw = Some (inr err).
Proof.
  induction n as [|n IH]; intros fuel msg tb fb raw fs rest rem err He Hall Hr Hlt;
    (destruct fuel as [|fuel]; [lia|]); rewrite parseLoop_unfold; simpl in He.
  - injection He as <- <-. by rewrite Hr.
  - destruct (extractField raw) as [[f r]|[? ?]] eqn:Ef; [|done].
    destruct (extractFields n r) as [[gs r']|?] eqn:E; [|done].
    injection He as <- <-. apply Forall_cons in Hall as [Hf Hall].
    apply extractField_inl in Ef as [_ Hlen].
    destruct (routeField _ tb fb f r) as [[msg1 tb1] fb1].
    destruct (Tag f =? tag.CheckSum) eqn:Ec; [lia|].
    eapply IH; eauto. lia.
Qed.


(** ** The structure of [parseMessage] *)

Lemma extractSpecificField_inl (t : Z) buffer f rest :
  extractField buffer = inl (f, rest) -> Tag f = t ->
  extractSpecificField t buffer = inl (f, rest).
Proof.
  intros H Ht. unfold extractSpecificField. rewrite H.
  by destruct (decide (Tag f ≠ t)).
Qed.

Lemma extractSpecificField_mismatch (t : Z) buffer f rest :
  extractField buffer = inl (f, rest) -> Tag f <> t ->
  extractSpecificField t buffer = inr (rest, errOutOfOrder t (Tag f)).
Proof.
  intros H Ht. unfold extractSpecificField. rewrite H.
  by destruct (decide (Tag f ≠ t)).
Qed.

Lemma extractSpecificField_inr (t : Z) buffer rem err :
  extractField buffer = inr (rem, err) ->
  extractSpecificField t buffer = inr (rem, err).
Proof.
  intros H. unfold extractSpecificField. by rewrite H.
Qed.

(** [parseMessage], case by case along its three leading extractions. *)
Lemma parseMessage_cases (raw : list byte) :
  match extractField raw with
  | inr (_, err) => parseMessage raw = Some (None, Some err)
  | inl (f1, r1) =>
    if decide (Tag f1 = tag.BeginString) then
      match extractField r1 with
      | inr (_, err) => parseMessage raw = Some (None, Some err)
      | inl (f2, r2) =>
        if decide (Tag f2 = tag.BodyLength) then
          match extractField r2 with
          | inr (_, err) => parseMessage raw = Some (None, Some err)
          | inl (f3, r3) =>
            if decide (Tag f3 = tag.MsgType) then
              parseMessage raw =
                finishParse (parseLoop (S (length r3)) (leadMessage raw f1 f2 f3)
                               [] false r3)
            else parseMessage raw =
                   Some (None, Some (errOutOfOrder tag.MsgType (Tag f3)))
          end
        else parseMessage raw =
               Some (None, Some (errOutOfOrder tag.BodyLength (Tag f2)))
      end
    else parseMessage raw =
           Some (None, Some (errOutOfOrder tag.BeginString (Tag f1)))
  end.
Proof.
  unfold parseMessage.
  destruct (extractField raw) as [[f1 r1]|[? e1]] eqn:E1;
    [|by rewrite (extractSpecificField_inr _ _ _ _ E1)].
  destruct (decide (Tag f1 = tag.BeginString)) as [H1|H1];
    [|by rewrite (extractSpecificField_mismatch _ _ _ _ E1 H1)].
  rewrite (extractSpecificField_inl _ _ _ _ E1 H1).
  destruct (extractField r1) as [[f2 r2]|[? e2]] eqn:E2;
    [|by rewrite (extractSpecificField_inr _ _ _ _ E2)].
  destruct (decide (Tag f2 = tag.BodyLength)) as [H2|H2];
    [|by rewrite (extractSpecificField_mismatch _ _ _ _ E2 H2)].
  rewrite (extractSpecificField_inl _ _ _ _ E2 H2).
  destruct (extractField r2) as [[f3 r3]|[? e3]] eqn:E3;
    [|by rewrite (extractSpecificField_inr _ _ _ _ E3)].
  destruct (decide (Tag f3 = tag.MsgType)) as [H3|H3];
    [|by rewrite (extractSpecificField_mismatch _ _ _ _ E3 H3)].
  rewrite (extractSpecificField_inl _ _ _ _ E3 H3).
  reflexivity.
Qed.


(** A returned message went through the three leading extractions, the loop
    up to its [break], the trimming and the length check. *)
Lemma parseMessage_Some (raw : list byte) msg err :
  parseMessage raw = Some (Some msg, err) ->
  exists f1 r1 f2 r2 f3 r3 msg0 tb,
    extractField raw = inl (f1, r1) /\ Tag f1 = tag.BeginString /\
    extractField r1 = inl (f2, r2) /\ Tag f2 = tag.BodyLength /\
    extractField r2 = inl (f3, r3) /\ Tag f3 = tag.MsgType /\
    parseLoop (S (length r3)) (leadMessage raw f1 f2 f3) [] false r3
      = Some (inl (msg0, tb)) /\
    msg = trimBody msg0 tb /\
    (Some msg, err) = checkLength msg.
Proof.
  pose proof (parseMessage_cases raw) as H.
  destruct (extractField raw) as [[f1 r1]|[? e1]] eqn:E1; [|by rewrite H].
  destruct (decide _) as [H1|]; [|by rewrite H].
  destruct (extractField r1) as [[f2 r2]|[? e2]] eqn:E2; [|by rewrite H].
  destruct (decide _) as [H2|]; [|by rewrite H].
  destruct (extractField r2) as [[f3 r3]|[? e3]] eqn:E3; [|by rewrite H].
  destruct (decide _) as [H3|]; [|by rewrite H].
  rewrite H. clear H.
  destruct (parseLoop _ _ _ _ _) as [[[msg0 tb]|e]|] eqn:Hl; simpl; [|done..].
  intros Hc. exists f1, r1, f2, r2, f3, r3, msg0, tb.
  repeat split; try done.
  - unfold checkLength in Hc. destruct (decide _); congruence.
  - assert (msg = trimBody msg0 tb) as ->.
    { unfold checkLength in Hc. destruct (decide _); congruence. }
    congruence.
Qed.

(** ** Errors of the leading fields and of extraction *)







(** The accounting loop of the parser adds up the encoded lengths of the
    fields whose tag is none of begin-string, body-length, checksum. *)
Lemma fieldsLength_from (fs : list fieldBytes) (acc : Z) :
  fold_left (fun length field =>
               if noLength (Tag field) then length
               else length + fieldBytes_Length field) fs acc
  = acc + Zsum (List.map fieldBytes_Length
                  (List.filter (fun f => negb (noLength (Tag f))) fs)).
Proof.
  revert acc. induction fs as [|f fs IH]; intros acc; simpl; [lia|].
  rewrite IH. destruct (noLength (Tag f)); simpl; lia.
Qed.



(** The fields of a returned message are the fields of the input, up to and
    including the first checksum field after the three leading ones. *)
Lemma parseMessage_fields (raw : list byte) msg err :
  parseMessage raw = Some (Some msg, err) ->
  exists n rest, extractFields n raw = inl (fields msg, rest).
Proof.
  intros H. apply parseMessage_Some in H
    as (f1 & r1 & f2 & r2 & f3 & r3 & msg0 & tb & E1 & H1 & E2 & H2 & E3 & H3 & Hl & -> & _).
  apply parseLoop_inl in Hl as (n & fs & f & rest & He & _ & _ & Hfs).
  exists (3 + S n)%nat, rest.
  assert (fields (trimBody msg0 tb) = fields msg0) as ->.
  { unfold trimBody. by destruct (_ >? _). }
  rewrite Hfs.
  assert (extractFields 3 raw = inl ([f1; f2; f3], r3)) as H3f.
  { simpl. by rewrite E1, E2, E3. }
  rewrite (extractFields_app _ (S n) _ _ _ H3f), He. reflexivity.
Qed.



(** ** Leading-field strictness *)

(** C5.  When the first field of the buffer does not carry the begin-string
    tag, [parseMessage] returns a nil message and the out-of-order error that
    names the expected and the actual tag; the same holds for the second
    field and body-length and for the third field and message-type.  The
    position is [k] (0, 1 or 2): the [k] fields before it carry their
    expected tags, the field [f] at position [k] does not. *)
Theorem parseMessage_leading_field_out_of_order
    (raw : list byte) (k : nat) (expected : Z) (fs : list fieldBytes)
    (rest rest' : list byte) (f : fieldBytes) :
  leadingTags !! k = Some expected ->
  extractFields k raw = inl (fs, rest) ->
  List.map Tag fs = take k leadingTags ->
  extractField rest = inl (f, rest') ->
  Tag f <> expected ->
  parseMessage raw = Some (None, Some (errOutOfOrder expected (Tag f))).
Proof.
  intros Hk He Htags Hf Hne.
  pose proof (parseMessage_cases raw) as H.
  destruct k as [|[|[|k]]]; simpl in Hk, He; [| | |done].
  - injection Hk as <-. injection He as <- <-.
    rewrite Hf in H. by destruct (decide _).
  - injection Hk as <-.
    destruct (extractField raw) as [[f1 r1]|[? ?]]; [|done].
    injection He as <- <-. injection Htags as H1.
    destruct (decide _); [|done].
    rewrite Hf in H. by destruct (decide _).
  - injection Hk as <-.
    destruct (extractField raw) as [[f1 r1]|[? ?]]; [|done].
    destruct (extractField r1) as [[f2 r2]|[? ?]]; [|done].
    injection He as <- <-. injection Htags as H1 H2.
    destruct (decide _); [|done]. destruct (decide _); [|done].
    rewrite Hf in H. by destruct (decide _).
Qed.

(** On a buffer whose second field is the message type. *)
Lemma parseMessage_leading_field_out_of_order_witness :
  parseMessage (wire "8=FIX.4.2|35=0|9=5|10=161|")
  = Some (None, Some (errOutOfOrder tag.BodyLength tag.MsgType)).
Proof.
  apply (parseMessage_leading_field_out_of_order
           (wire "8=FIX.4.2|35=0|9=5|10=161|") 1 tag.BodyLength
           [{| Tag := 8; Data := wire "8=FIX.4.2|"; Value := str "FIX.4.2" |}]
           (wire "35=0|9=5|10=161|") (wire "9=5|10=161|")
           {| Tag := 35; Data := wire "35=0|"; Value := str "0" |});
    [reflexivity | reflexivity | reflexivity | reflexivity | ].
  simpl. unfold tag.BodyLength. lia.
Defined.

(** The three positions on concrete buffers. *)
Example out_of_order_first :
  parseMessage (wire "9=5|8=FIX.4.2|35=0|10=161|")
  = Some (None, Some (parseError
       (str "extractSpecificField: Fields out of order, expected 8, got 9"))).
Proof. reflexivity. Qed.

Example out_of_order_third :
  parseMessage (wire "8=FIX.4.2|9=5|34=2|35=0|10=161|")
  = Some (None, Some (parseError
       (str "extractSpecificField: Fields out of order, expected 35, got 34"))).
Proof. reflexivity. Qed.

(** ** Extraction failures *)

(** C6.  A buffer without a delimiter makes [extractField] return the
    malformed-field error, which carries the buffer, with the buffer as
    remaining bytes; the slices [extractField] takes are within bounds, so it
    cannot crash; and an extraction that fails, after any number of fields
    that pass the leading checks and hold no checksum beyond the third, makes
    [parseMessage] return a nil message and this error alone. *)
Theorem extraction_failure_aborts :
  (forall buffer : list byte,
     SOH ∉ buffer ->
     extractField buffer = inr (buffer, errNoTrailingDelim buffer)) /\
  (forall (buffer : list byte) (endIndex : nat),
     IndexByte buffer SOH = Some endIndex ->
     (S endIndex <= length buffer)%nat) /\
  (forall (raw : list byte) (n : nat) (fs : list fieldBytes)
          (rest rem : list byte) (err : error),
     extractFields n raw = inl (fs, rest) ->
     List.map Tag (take 3 fs) = take n leadingTags ->
     Forall (fun g => Tag g <> tag.CheckSum) (drop 3 fs) ->
     extractField rest = inr (rem, err) ->
     parseMessage raw = Some (None, Some err)).
Proof.
  split; [exact extractField_no_delim|].
  split; [intros buffer i H; apply IndexByte_lt in H; lia|].
  intros raw n fs rest rem err He Htags Hall Hr.
  pose proof (parseMessage_cases raw) as H.
  destruct n as [|[|[|n]]]; simpl in He.
  - injection He as <- <-. by rewrite Hr in H.
  - destruct (extractField raw) as [[f1 r1]|[? ?]]; [|done].
    injection He as <- <-. injection Htags as H1.
    destruct (decide _); [|done]. by rewrite Hr in H.
  - destruct (extractField raw) as [[f1 r1]|[? ?]]; [|done].
    destruct (extractField r1) as [[f2 r2]|[? ?]]; [|done].
    injection He as <- <-. injection Htags as H1 H2.
    destruct (decide _); [|done]. destruct (decide _); [|done].
    by rewrite Hr in H.
  - destruct (extractField raw) as [[f1 r1]|[? ?]]; [|done].
    destruct (extractField r1) as [[f2 r2]|[? ?]]; [|done].
    destruct (extractField r2) as [[f3 r3]|[? ?]] eqn:E3; [|done].
    destruct (extractFields n r3) as [[gs r']|?] eqn:En; [|done].
    injection He as <- <-. injection Htags as H1 H2 H3. simpl in Hall.
    destruct (decide _); [|done]. destruct (decide _); [|done].
    destruct (decide _); [|done].
    rewrite H.
    rewrite (parseLoop_inr n _ _ _ _ _ _ _ _ _ En Hall Hr); [done|lia].
Qed.

(** On a buffer without delimiter, and on a message cut off in its fifth
    field. *)
Lemma extraction_failure_aborts_witness :
  extractField (str "8=FIX.4.2") = inr (str "8=FIX.4.2", errNoTrailingDelim (str "8=FIX.4.2"))
  /\ (10 <= length (wire "8=FIX.4.2|9=5|"))%nat
  /\ parseMessage (wire "8=FIX.4.2|9=5|35=0|34=2|49=A")
     = Some (None, Some (errNoTrailingDelim (str "49=A"))).
Proof.
  destruct extraction_failure_aborts as (H1 & H2 & H3).
  split; [|split].
  - apply H1. apply IndexByte_None. reflexivity.
  - apply (H2 (wire "8=FIX.4.2|9=5|") 9%nat). reflexivity.
  - apply (H3 (wire "8=FIX.4.2|9=5|35=0|34=2|49=A") 4%nat
              [{| Tag := 8; Data := wire "8=FIX.4.2|"; Value := str "FIX.4.2" |};
               {| Tag := 9; Data := wire "9=5|"; Value := str "5" |};
               {| Tag := 35; Data := wire "35=0|"; Value := str "0" |};
               {| Tag := 34; Data := wire "34=2|"; Value := str "2" |}]
              (str "49=A") (str "49=A")).
    + reflexivity.
    + reflexivity.
    + simpl. constructor; [|constructor]. simpl. unfold tag.CheckSum. lia.
    + reflexivity.
Defined.

(** ** The length check *)


(** The sample message of the specification, and a message whose declared
    length is wrong. *)
Example sample_message_parses :
  exists msg, parseMessage (wire "8=FIX.4.2|9=5|35=0|10=161|") = Some (Some msg, None)
    /\ declaredLength msg = 5 /\ bodyBytes msg = [].
Proof. eexists. split; [reflexivity|]. split; reflexivity. Qed.

Example length_mismatch_message :
  exists msg, parseMessage (wire "8=FIX.4.2|9=7|35=0|10=161|")
              = Some (Some msg, Some (parseError
                   (str "Incorrect Message Length, expected 7, got 5"))).
Proof. eexists. reflexivity. Qed.

(** ** Last write wins *)

Lemma lastWithTag_snoc (t : Z) (fs : list fieldBytes) (f : fieldBytes) :
  lastWithTag t (fs ++ [f]) = if decide (Tag f = t) then Some f else lastWithTag t fs.
Proof.
  unfold lastWithTag. rewrite filter_app, filter_cons, filter_nil.
  destruct (decide (Tag f = t)).
  - apply last_snoc.
  - by rewrite app_nil_r.
Qed.

Lemma mapsAgree_route (msg : Message) (f : fieldBytes) tb fb rest :
  mapsAgree msg -> mapsAgree (routeField (appendField msg f) tb fb f rest).1.1.
Proof.
  intros Hm t. destruct (Hm t) as (Hh & Ht & Hb).
  unfold routeField, routedTo in *.
  pose proof (lastWithTag_snoc t (fields msg) f) as Hl.
  unfold partitionOf in *.
  destruct (decide (Tag f = t)) as [<-|Hne].
  - destruct (tag.IsHeader (Tag f)); [|destruct (tag.IsTrailer (Tag f))]; simpl;
      rewrite ?lookup_insert_eq, ?Hl, ?Hh, ?Ht, ?Hb;
      repeat split; by repeat case_decide.
  - destruct (tag.IsHeader (Tag f)); [|destruct (tag.IsTrailer (Tag f))]; simpl;
      rewrite ?lookup_insert_ne by done; rewrite ?Hl, ?Hh, ?Ht, ?Hb; done.
Qed.

Lemma mapsAgree_setBodyBytes (msg : Message) (b : list byte) :
  mapsAgree msg -> mapsAgree (setBodyBytes msg b).
Proof. done. Qed.

Lemma mapsAgree_newMessage (raw : list byte) : mapsAgree (newMessage raw).
Proof.
  intros t. unfold routedTo. simpl. rewrite !lookup_empty.
  repeat split; by case_decide.
Qed.

(** A leading field is stored in the header, which is where its tag belongs. *)
Lemma mapsAgree_lead (msg : Message) (f : fieldBytes) :
  tag.IsHeader (Tag f) = true ->
  mapsAgree msg -> mapsAgree (storeHeader (appendField msg f) f).
Proof.
  intros Hh Hm.
  pose proof (mapsAgree_route msg f [] false [] Hm) as H.
  unfold routeField in H. by rewrite Hh in H.
Qed.

Lemma mapsAgree_trimBody (msg : Message) (tb : list byte) :
  mapsAgree msg -> mapsAgree (trimBody msg tb).
Proof. unfold trimBody. by destruct (_ >? _). Qed.

(** The maps of a returned message agree with its fields. *)
Lemma parseMessage_mapsAgree (raw : list byte) (msg : Message) (err : option error) :
  parseMessage raw = Some (Some msg, err) -> mapsAgree msg.
Proof.
  intros Hp.
  apply parseMessage_Some in Hp
    as (f1 & r1 & f2 & r2 & f3 & r3 & msg0 & tb & _ & H1 & _ & H2 & _ & H3 & Hl & -> & _).
  apply mapsAgree_trimBody.
  eapply (parseLoop_invariant mapsAgree); [| |  | exact Hl].
  - intros. by apply mapsAgree_route.
  - intros. by apply mapsAgree_setBodyBytes.
  - unfold leadMessage.
    apply mapsAgree_lead; [by rewrite H3|].
    apply mapsAgree_lead; [by rewrite H2|].
    apply mapsAgree_lead; [by rewrite H1|].
    apply mapsAgree_newMessage.
Qed.



(** ** The frame of [rebuild] *)

(** C10.  [rebuild] leaves the body payload, the receive time, the list of
    wire fields, the body map and the two orders as they are; the header map
    changes at most at body-length and the trailer map at most at checksum
    (the maps without these entries are the same before and after). *)
Theorem rebuild_frame (m : Message) :
  bodyBytes (rebuild m) = bodyBytes m /\
  ReceiveTime (rebuild m) = ReceiveTime m /\
  fields (rebuild m) = fields m /\
  Body (rebuild m) = Body m /\
  fieldOrder (Header (rebuild m)) = fieldOrder (Header m) /\
  fieldOrder (Trailer (rebuild m)) = fieldOrder (Trailer m) /\
  delete tag.BodyLength (fieldLookup (Header (rebuild m)))
    = delete tag.BodyLength (fieldLookup (Header m)) /\
  delete tag.CheckSum (fieldLookup (Trailer (rebuild m)))
    = delete tag.CheckSum (fieldLookup (Trailer m)).
Proof.
  unfold rebuild. simpl. repeat split; apply delete_insert_eq.
Qed.

(** Entry by entry: the lookups at the other tags are unchanged. *)
Lemma rebuild_lookup_unchanged (m : Message) (t : Z) :
  (t <> tag.BodyLength ->
   fieldLookup (Header (rebuild m)) !! t = fieldLookup (Header m) !! t) /\
  (t <> tag.CheckSum ->
   fieldLookup (Trailer (rebuild m)) !! t = fieldLookup (Trailer m) !! t).
Proof.
  unfold rebuild. simpl. split; intros H; by rewrite lookup_insert_ne.
Qed.

(** ** Reverse routing *)

Lemma len_zero_nil {A} (l : list A) : len l = 0 <-> l = [].
Proof.
  unfold len. destruct l; simpl; split; try done; lia.
Qed.

(** One call of the closure [copy]: the destination is set when there is
    something to copy, and no other tag of the builder changes. *)
Lemma copy_lookup (m : Message) (src dest : Z) (b : MessageBuilder) (t : Z) :
  fieldLookup (builderHeader (copy m src dest b)) !! t =
    if decide (t = dest) then
      match copied m src dest with
      | Some f => Some f
      | None => fieldLookup (builderHeader b) !! t
      end
    else fieldLookup (builderHeader b) !! t.
Proof.
  unfold copy, copied, fieldMap_GetField_String.
  destruct (fieldLookup (Header m) !! src) as [f|]; simpl.
  - destruct (decide (Value f = [])) as [Hnil|Hnil];
      destruct (decide (len (Value f) ≠ 0)) as [Hne|Heq].
    + exfalso. apply Hne. by rewrite Hnil.
    + by destruct (decide (t = dest)).
    + simpl. destruct (decide (t = dest)) as [->|Hd].
      * by rewrite lookup_insert_eq.
      * by rewrite lookup_insert_ne.
    + exfalso. apply dec_stable in Heq. by apply len_zero_nil in Heq.
  - by destruct (decide (t = dest)).
Qed.


(** The lookup of a routing tag in the builder, through the calls of [copy]
    in the order of the source. *)
Ltac route_lookup :=
  rewrite !copy_lookup; simpl;
  repeat (case_decide; try done);
  repeat (case_match; try done);
  rewrite ?lookup_empty; done.

(** C8.  The header of the builder [reverseRoute] returns holds, at the
    destination tag of each of the pairs sender/target comp id, sub id and
    location id and on-behalf-of/deliver-to comp id and sub id, the source
    header's value when this value is present and not empty, and nothing
    otherwise; at the two on-behalf-of/deliver-to location tags it holds the
    same, provided the begin-string is present and is not FIX.4.0, and
    nothing otherwise; it holds no other tag. *)
Theorem reverseRoute_swaps (m : Message) :
  let b := fieldLookup (builderHeader (reverseRoute m)) in
  b !! tag.TargetCompID = copied m tag.SenderCompID tag.TargetCompID /\
  b !! tag.TargetSubID = copied m tag.SenderSubID tag.TargetSubID /\
  b !! tag.TargetLocationID = copied m tag.SenderLocationID tag.TargetLocationID /\
  b !! tag.SenderCompID = copied m tag.TargetCompID tag.SenderCompID /\
  b !! tag.SenderSubID = copied m tag.TargetSubID tag.SenderSubID /\
  b !! tag.SenderLocationID = copied m tag.TargetLocationID tag.SenderLocationID /\
  b !! tag.DeliverToCompID = copied m tag.OnBehalfOfCompID tag.DeliverToCompID /\
  b !! tag.DeliverToSubID = copied m tag.OnBehalfOfSubID tag.DeliverToSubID /\
  b !! tag.OnBehalfOfCompID = copied m tag.DeliverToCompID tag.OnBehalfOfCompID /\
  b !! tag.OnBehalfOfSubID = copied m tag.DeliverToSubID tag.OnBehalfOfSubID /\
  b !! tag.DeliverToLocationID =
    (if versionGate m
     then copied m tag.OnBehalfOfLocationID tag.DeliverToLocationID else None) /\
  b !! tag.OnBehalfOfLocationID =
    (if versionGate m
     then copied m tag.DeliverToLocationID tag.OnBehalfOfLocationID else None) /\
  (forall t : Z, t ∉ routingTags -> b !! t = None).
Proof.
  intros b. subst b. unfold reverseRoute, versionGate, fieldMap_GetField_String.
  destruct (fieldLookup (Header m) !! tag.BeginString) as [f|]; simpl;
    [destruct (decide (Value f ≠ fix_.BeginString_FIX40));
       [rewrite bool_decide_eq_true_2 by done
       |rewrite bool_decide_eq_false_2 by done] |];
    (repeat (split; [route_lookup|]));
    intros t Ht; rewrite !copy_lookup; simpl;
    repeat (case_decide;
            [subst t; exfalso; apply Ht; unfold routingTags;
             repeat (first [apply list_elem_of_here | apply list_elem_of_further])|]);
    apply lookup_empty.
Qed.


(** ** Decimal rendering *)

Lemma uint_of_bytes_of_uint (d : Decimal.uint) :
  uint_of_bytes (bytes_of_uint d) = Some d.
Proof. induction d; simpl; rewrite ?IHd; done. Qed.

Lemma bytes_of_uint_nonnil (d : Decimal.uint) :
  d <> Nil -> bytes_of_uint d <> [].
Proof. by destruct d. Qed.

Lemma bytes_of_uint_no_sign (d : Decimal.uint) (rest : list byte) :
  bytes_of_uint d <> x2d :: rest.
Proof. by destruct d. Qed.

Lemma parseUInt_bytes_of_uint (d : Decimal.uint) :
  d <> Nil -> parseUInt (bytes_of_uint d) = Some (Z.of_uint d).
Proof.
  intros Hd. unfold parseUInt. rewrite uint_of_bytes_of_uint.
  pose proof (bytes_of_uint_nonnil d Hd). by destruct (bytes_of_uint d).
Qed.

Lemma to_int_nonnil (z : Z) :
  match Z.to_int z with Decimal.Pos d | Decimal.Neg d => d <> Nil end.
Proof.
  destruct z; simpl; try apply DecimalPos.Unsigned.to_uint_nonnil. done.
Qed.

(** Reading back a number written in decimal gives the number. *)
Lemma atoi_itoa (z : Z) : atoi (itoa z) = Some z.
Proof.
  pose proof (DecimalZ.of_to z) as Hz. pose proof (to_int_nonnil z) as Hn.
  unfold itoa. destruct (Z.to_int z) as [d|d]; simpl in Hz.
  - unfold atoi.
    pose proof (bytes_of_uint_no_sign d) as Hs.
    pose proof (parseUInt_bytes_of_uint d Hn) as Hp.
    destruct (bytes_of_uint d) as [|b rest]; [by rewrite <- Hz|].
    destruct b; try (by rewrite Hp, Hz).
    by destruct (Hs rest).
  - unfold atoi. rewrite (parseUInt_bytes_of_uint d Hn). by rewrite Hz.
Qed.

(** ** Sums over a field map *)

Lemma Zsum_app (l1 l2 : list Z) : Zsum (l1 ++ l2) = Zsum l1 + Zsum l2.
Proof. induction l1; simpl; lia. Qed.

Lemma Zsum_perm (l1 l2 : list Z) : l1 ≡ₚ l2 -> Zsum l1 = Zsum l2.
Proof. induction 1; simpl; lia. Qed.

Lemma len_app {A} (l1 l2 : list A) : len (l1 ++ l2) = len l1 + len l2.
Proof. unfold len. rewrite length_app. lia. Qed.

Lemma sumBytes_app (l1 l2 : list byte) :
  sumBytes (l1 ++ l2) = sumBytes l1 + sumBytes l2.
Proof. induction l1; simpl; lia. Qed.

Lemma insertTag_perm (less : Z -> Z -> bool) (t : Z) (l : list Z) :
  insertTag less t l ≡ₚ t :: l.
Proof.
  induction l as [|u l IH]; simpl; [done|].
  destruct (less t u); [done|]. rewrite IH. apply Permutation_swap.
Qed.

(** The sorted tags are the tags, each once. *)
Lemma sortTags_perm (less : Z -> Z -> bool) (l : list Z) : sortTags less l ≡ₚ l.
Proof.
  induction l as [|t l IH]; simpl; [done|].
  rewrite insertTag_perm. by rewrite IH.
Qed.

(** A sum over the bytes written by a map is the sum over its entries:
    [write] emits every entry once. *)
Lemma fieldMap_write_sum (measure : list byte -> Z) (m : fieldMap) :
  measure [] = 0 ->
  (forall l1 l2, measure (l1 ++ l2) = measure l1 + measure l2) ->
  measure (fieldMap_write m)
  = Zsum (List.map (fun kv => measure (Data (snd kv))) (map_to_list (fieldLookup m))).
Proof.
  intros Hnil Happ. unfold fieldMap_write, fieldMap_sortedTags.
  set (g := fun t => match fieldLookup m !! t with Some f => Data f | None => [] end).
  assert (forall l, measure (flat_map g l) = Zsum (List.map (fun t => measure (g t)) l)) as Hflat.
  { induction l as [|t l IH]; simpl; [done|]. by rewrite Happ, IH. }
  rewrite Hflat.
  rewrite (Zsum_perm _ (List.map (fun t => measure (g t))
                          (List.map fst (map_to_list (fieldLookup m))))).
  2:{ apply Permutation_map. apply sortTags_perm. }
  rewrite List.map_map. f_equal.
  apply map_ext_in. intros [t f] Hin. simpl.
  apply list_elem_of_In, elem_of_map_to_list in Hin. unfold g. by rewrite Hin.
Qed.

Lemma fieldMap_write_len (m : fieldMap) :
  len (fieldMap_write m)
  = Zsum (List.map (fun kv => fieldBytes_Length (snd kv)) (map_to_list (fieldLookup m))).
Proof. apply (fieldMap_write_sum len); [done | apply @len_app]. Qed.

Lemma fieldMap_write_sumBytes (m : fieldMap) :
  sumBytes (fieldMap_write m)
  = Zsum (List.map (fun kv => fieldBytes_Total (snd kv)) (map_to_list (fieldLookup m))).
Proof. apply (fieldMap_write_sum sumBytes); [done | apply sumBytes_app]. Qed.

(** The written length of a map splits into the part that counts towards the
    body length and the framing part. *)
Lemma fieldMap_write_len_split (m : fieldMap) :
  len (fieldMap_write m) = fieldMap_length m + framingLength m.
Proof.
  rewrite fieldMap_write_len. unfold fieldMap_length, framingLength.
  induction (map_to_list (fieldLookup m)) as [|[t f] l IH]; simpl; [done|].
  rewrite IH. destruct (noLength t); lia.
Qed.

(** A sum over the entries of a map after an insertion. *)
Lemma Zsum_map_to_list_insert (g : Z * fieldBytes -> Z) (m : gmap Z fieldBytes)
    (t : Z) (f : fieldBytes) :
  Zsum (List.map g (map_to_list (<[t := f]> m)))
  = g (t, f) + Zsum (List.map g (map_to_list (delete t m))).
Proof.
  rewrite <- insert_delete_eq.
  rewrite (Zsum_perm _ (List.map g ((t, f) :: map_to_list (delete t m)))); [done|].
  apply Permutation_map, map_to_list_insert, lookup_delete_eq.
Qed.

Lemma Zsum_map_to_list_delete (g : Z * fieldBytes -> Z) (m : gmap Z fieldBytes) (t : Z) :
  Zsum (List.map g (map_to_list m))
  = match m !! t with Some f => g (t, f) | None => 0 end
    + Zsum (List.map g (map_to_list (delete t m))).
Proof.
  destruct (m !! t) as [f|] eqn:E.
  - rewrite <- (insert_id m t f E) at 1. apply Zsum_map_to_list_insert.
  - rewrite delete_id by done. lia.
Qed.

(** The body length of a map does not depend on its begin-string,
    body-length and checksum entries. *)
Lemma fieldMap_length_store (m : fieldMap) (t : Z) (f : fieldBytes) :
  noLength t = true -> fieldMap_length (fieldMap_store m t f) = fieldMap_length m.
Proof.
  intros Ht. unfold fieldMap_length, fieldMap_store. simpl.
  rewrite Zsum_map_to_list_insert. simpl. rewrite Ht.
  rewrite (Zsum_map_to_list_delete _ (fieldLookup m) t).
  destruct (fieldLookup m !! t); simpl; rewrite ?Ht; lia.
Qed.

(** ** The body length written by [rebuild] *)

(** The body length [rebuild] computes (line 234). *)
Lemma rebuild_Header (m : Message) :
  Header (rebuild m)
  = fieldMap_store (Header m) tag.BodyLength
      (newFieldBytes tag.BodyLength
         (itoa (fieldMap_length (Header m) + len (bodyBytes m)
                + fieldMap_length (Trailer m)))).
Proof. reflexivity. Qed.

Lemma rebuild_Trailer (m : Message) :
  Trailer (rebuild m)
  = fieldMap_store (Trailer m) tag.CheckSum
      (newFieldBytes tag.CheckSum (sprintf03d (rebuildCheckSum m))).
Proof. reflexivity. Qed.

Lemma rebuild_Bytes (m : Message) :
  Bytes (rebuild m)
  = fieldMap_write (Header (rebuild m)) ++ bodyBytes m
    ++ fieldMap_write (Trailer (rebuild m)).
Proof. reflexivity. Qed.

Lemma rebuild_bodyBytes (m : Message) : bodyBytes (rebuild m) = bodyBytes m.
Proof. reflexivity. Qed.

(** The body-length entry after [rebuild], and its reading. *)
Lemma rebuild_writes_body_length (m : Message) :
  fieldLookup (Header (rebuild m)) !! tag.BodyLength
    = Some (newFieldBytes tag.BodyLength
              (itoa (fieldMap_length (Header m) + len (bodyBytes m)
                     + fieldMap_length (Trailer m)))) /\
  fieldMap_GetField_Int (Header (rebuild m)) tag.BodyLength
    = Some (fieldMap_length (Header m) + len (bodyBytes m) + fieldMap_length (Trailer m)).
Proof.
  split.
  - rewrite rebuild_Header. unfold fieldMap_store, fieldLookup.
    apply lookup_insert_eq.
  - rewrite rebuild_Header. unfold fieldMap_GetField_Int, fieldMap_store, fieldLookup.
    rewrite lookup_insert_eq. unfold newFieldBytes, Value, fix_.IntValue_Read.
    apply atoi_itoa.
Qed.

(** The declared length is the length of the rebuilt message, and the
    rebuilt bytes are these and the framing entries. *)
Lemma rebuild_length_accounting (m : Message) :
  fieldMap_length (Header m) + len (bodyBytes m) + fieldMap_length (Trailer m)
    = fieldMap_length (Header (rebuild m)) + len (bodyBytes (rebuild m))
      + fieldMap_length (Trailer (rebuild m)) /\
  len (Bytes (rebuild m))
    = fieldMap_length (Header m) + len (bodyBytes m) + fieldMap_length (Trailer m)
      + framingLength (Header (rebuild m)) + framingLength (Trailer (rebuild m)).
Proof.
  assert (fieldMap_length (Header m) + len (bodyBytes m) + fieldMap_length (Trailer m)
          = fieldMap_length (Header (rebuild m)) + len (bodyBytes (rebuild m))
            + fieldMap_length (Trailer (rebuild m))) as HN.
  { rewrite rebuild_Header, rebuild_Trailer, rebuild_bodyBytes.
    rewrite !fieldMap_length_store by reflexivity. reflexivity. }
  split; [exact HN|].
  rewrite rebuild_Bytes, !len_app, !fieldMap_write_len_split.
  rewrite rebuild_bodyBytes in HN. lia.
Qed.



(** ** The checksum written by [rebuild] *)

Lemma byteval_nonneg (b : byte) : 0 <= byteval b.
Proof. unfold byteval. lia. Qed.

Lemma sumBytes_nonneg (s : list byte) : 0 <= sumBytes s.
Proof.
  induction s as [|b s IH]; simpl; [lia|]. pose proof (byteval_nonneg b). lia.
Qed.

Lemma Zsum_nonneg (l : list Z) : Forall (fun z => 0 <= z) l -> 0 <= Zsum l.
Proof. induction 1; simpl; lia. Qed.

Lemma fieldMap_total_nonneg (m : fieldMap) : 0 <= fieldMap_total m.
Proof.
  unfold fieldMap_total. apply Zsum_nonneg, Forall_forall.
  intros z Hz. apply list_elem_of_In, in_map_iff in Hz as ([t f] & <- & _). simpl.
  destruct (t =? tag.CheckSum); [lia | apply sumBytes_nonneg].
Qed.

Lemma rebuildCheckSum_range (m : Message) : 0 <= rebuildCheckSum m < 256.
Proof.
  unfold rebuildCheckSum.
  pose proof (fieldMap_total_nonneg (Header m)).
  pose proof (fieldMap_total_nonneg (Trailer m)).
  pose proof (sumBytes_nonneg (bodyBytes m)).
  rewrite Z.rem_mod_nonneg by lia. apply Z.mod_pos_bound. lia.
Qed.

(** The [%03d] rendering of each of the 256 checksums is three digits that
    read back as the checksum. *)
Lemma threeDigits_all :
  forallb (fun n => threeDigits (Z.of_nat n)) (seq 0 256) = true.
Proof. vm_compute. reflexivity. Qed.

Lemma threeDigits_range (c : Z) : 0 <= c < 256 -> threeDigits c = true.
Proof.
  intros Hc. pose proof threeDigits_all as H.
  rewrite forallb_forall in H.
  rewrite <- (Z2Nat.id c) by lia. apply H. apply in_seq. lia.
Qed.

(** What [rebuild] writes into the checksum field: the sum of the header's
    and the trailer's byte sums, taken before the body length is set, and of
    the payload bytes, modulo 256, as three digits. *)
Lemma rebuild_checksum_written (m : Message) :
  fieldLookup (Trailer (rebuild m)) !! tag.CheckSum
    = Some (newFieldBytes tag.CheckSum (sprintf03d (rebuildCheckSum m))) /\
  checkSumValue (rebuild m) = Some (sprintf03d (rebuildCheckSum m)) /\
  0 <= rebuildCheckSum m < 256 /\
  threeDigits (rebuildCheckSum m) = true.
Proof.
  pose proof (rebuildCheckSum_range m) as Hr.
  assert (fieldLookup (Trailer (rebuild m)) !! tag.CheckSum
          = Some (newFieldBytes tag.CheckSum (sprintf03d (rebuildCheckSum m)))) as Hl.
  { rewrite rebuild_Trailer. unfold fieldMap_store, fieldLookup. apply lookup_insert_eq. }
  split; [exact Hl|].
  split; [unfold checkSumValue, fieldMap_GetField_String; by rewrite Hl|].
  split; [exact Hr | by apply threeDigits_range].
Qed.

(** The byte sum of a map is the byte sum of what it writes, less the
    checksum entry. *)
Lemma fieldMap_total_write (m : fieldMap) :
  fieldMap_total m
  = sumBytes (fieldMap_write m)
    - match fieldLookup m !! tag.CheckSum with
      | Some f => fieldBytes_Total f
      | None => 0
      end.
Proof.
  rewrite fieldMap_write_sumBytes. unfold fieldMap_total.
  rewrite (Zsum_map_to_list_delete _ (fieldLookup m) tag.CheckSum).
  rewrite (Zsum_map_to_list_delete (fun kv => fieldBytes_Total kv.2)
             (fieldLookup m) tag.CheckSum).
  assert (Zsum (List.map (fun kv : Z * fieldBytes =>
                   if kv.1 =? tag.CheckSum then 0 else fieldBytes_Total kv.2)
                  (map_to_list (delete tag.CheckSum (fieldLookup m))))
          = Zsum (List.map (fun kv : Z * fieldBytes => fieldBytes_Total kv.2)
                    (map_to_list (delete tag.CheckSum (fieldLookup m))))) as ->.
  { f_equal. apply map_ext_in. intros [t f] Hin. simpl.
    apply list_elem_of_In, elem_of_map_to_list in Hin.
    destruct (Z.eqb_spec t tag.CheckSum) as [->|]; [|done].
    by rewrite lookup_delete_eq in Hin. }
  destruct (fieldLookup m !! tag.CheckSum); simpl; lia.
Qed.

Lemma fieldMap_total_withoutCheckSum (m : fieldMap) :
  fieldMap_total m = sumBytes (fieldMap_write (withoutCheckSum m)).
Proof.
  rewrite fieldMap_write_sumBytes. unfold fieldMap_total, withoutCheckSum. simpl.
  rewrite (Zsum_map_to_list_delete _ (fieldLookup m) tag.CheckSum).
  assert (forall f : fieldBytes,
            (if (tag.CheckSum, f).1 =? tag.CheckSum then 0 else fieldBytes_Total (tag.CheckSum, f).2) = 0)
    as H0 by done.
  replace (match fieldLookup m !! tag.CheckSum with
           | Some f => if (tag.CheckSum, f).1 =? tag.CheckSum then 0
                       else fieldBytes_Total (tag.CheckSum, f).2
           | None => 0
           end) with 0 by (by destruct (fieldLookup m !! tag.CheckSum)).
  rewrite Z.add_0_l. f_equal. apply map_ext_in. intros [t f] Hin. simpl.
  apply list_elem_of_In, elem_of_map_to_list in Hin.
  destruct (Z.eqb_spec t tag.CheckSum) as [->|]; [|done].
  by rewrite lookup_delete_eq in Hin.
Qed.

(** When the header already holds the body-length field that [rebuild]
    writes, and no checksum entry, the checksum [rebuild] writes is the
    checksum of the bytes it writes. *)
Lemma rebuild_checksum_same_length (m : Message) :
  fieldLookup (Header m) !! tag.BodyLength
    = Some (newFieldBytes tag.BodyLength
              (itoa (fieldMap_length (Header m) + len (bodyBytes m)
                     + fieldMap_length (Trailer m)))) ->
  fieldLookup (Header m) !! tag.CheckSum = None ->
  checkSumValue (rebuild m) = Some (sprintf03d (outputCheckSum (rebuild m))).
Proof.
  intros H9 H10.
  destruct (rebuild_checksum_written m) as (_ & -> & _ & _).
  do 2 f_equal. unfold rebuildCheckSum, outputCheckSum.
  pose proof (fieldMap_total_nonneg (Header m)).
  pose proof (fieldMap_total_nonneg (Trailer m)).
  pose proof (sumBytes_nonneg (bodyBytes m)).
  rewrite Z.rem_mod_nonneg by lia. f_equal.
  rewrite rebuild_bodyBytes.
  assert (Header (rebuild m) = Header m) as ->.
  { rewrite rebuild_Header. unfold fieldMap_store. rewrite insert_id by done.
    by destruct (Header m). }
  rewrite (fieldMap_total_write (Header m)), H10.
  rewrite (fieldMap_total_withoutCheckSum (Trailer m)).
  assert (withoutCheckSum (Trailer (rebuild m)) = withoutCheckSum (Trailer m)) as ->.
  { rewrite rebuild_Trailer. unfold withoutCheckSum, fieldMap_store. simpl.
    by rewrite delete_insert_eq. }
  lia.
Qed.

(** On the order as parsed the header holds the body length that [rebuild]
    writes, and the checksum written is the checksum of the bytes. *)
Example rebuild_checksum_order :
  checkSumValue (rebuild (parsed order))
  = Some (sprintf03d (outputCheckSum (rebuild (parsed order)))).
Proof.
  apply rebuild_checksum_same_length; vm_compute; reflexivity.
Qed.

(** C3, on a message whose header a caller has changed.  The message is
    parsed from a well-formed buffer, the caller sets the target comp id,
    and [rebuild] writes the bytes below.  The checksum field it writes is
    "189": the sum was taken while the header still held the body length 15
    of the parsed message.  The bytes written, less the checksum field, sum
    to 185 modulo 256. *)
Theorem rebuild_checksum_stale_body_length :
  let m := setHeaderField (parsed (wire "8=FIX.4.2|9=15|35=D|49=A|55=X|10=210|"))
             tag.TargetCompID (str "B") in
  parseMessage (wire "8=FIX.4.2|9=15|35=D|49=A|55=X|10=210|")
    = Some (Some (parsed (wire "8=FIX.4.2|9=15|35=D|49=A|55=X|10=210|")), None) /\
  Bytes (rebuild m) = wire "8=FIX.4.2|9=20|35=D|49=A|56=B|55=X|10=189|" /\
  checkSumValue (rebuild m) = Some (str "189") /\
  outputCheckSum (rebuild m) = 185 /\
  checkSumValue (rebuild m) <> Some (sprintf03d (outputCheckSum (rebuild m))).
Proof.
  vm_compute. repeat split; congruence.
Qed.

(** ** The cursor of the body payload *)

Lemma extractFields_split (n k : nat) (raw : list byte) fs1 fs2 tail :
  length fs1 = n ->
  extractFields (n + k) raw = inl (fs1 ++ fs2, tail) ->
  exists rest, extractFields n raw = inl (fs1, rest) /\
               extractFields k rest = inl (fs2, tail).
Proof.
  revert raw fs1. induction n as [|n IH]; intros raw fs1 Hlen; simpl.
  - destruct fs1; [|done]. simpl. intros H. by exists raw.
  - destruct fs1 as [|f fs1]; [done|]. simpl in Hlen. injection Hlen as Hlen.
    destruct (extractField raw) as [[g r]|[? ?]]; [|done].
    destruct (extractFields (n + k) r) as [[gs r']|?] eqn:E; [|done].
    simpl. intros H. simplify_eq.
    destruct (IH _ _ eq_refl E) as (rest & -> & H2). by exists rest.
Qed.

Lemma extractField_Data_nonempty (buffer : list byte) f rest :
  extractField buffer = inl (f, rest) -> (0 < length (Data f))%nat.
Proof.
  intros H. apply extractField_inl in H as [Heq Hlt].
  rewrite Heq, length_app in Hlt. lia.
Qed.

Lemma routeField_passedOver msg tb fb f rest :
  passedOver f ->
  exists msg1, routeField msg tb fb f rest = (msg1, tb, fb) /\
               bodyBytes msg1 = bodyBytes msg /\ fields msg1 = fields msg.
Proof.
  intros [Hp _]. unfold routeField, partitionOf in *.
  destruct (tag.IsHeader (Tag f)); [by eexists|].
  destruct (tag.IsTrailer (Tag f)); [by eexists|]. done.
Qed.

Lemma routeField_inBody msg tb fb f rest :
  inBody f ->
  exists msg1, routeField msg tb fb f rest = (msg1, rest, true) /\
               bodyBytes msg1 = bodyBytes msg /\ fields msg1 = fields msg.
Proof.
  unfold inBody, routeField, partitionOf.
  destruct (tag.IsHeader (Tag f)); [done|].
  destruct (tag.IsTrailer (Tag f)); [done|]. by eexists.
Qed.

Lemma inBody_not_checksum (f : fieldBytes) : inBody f -> Tag f <> tag.CheckSum.
Proof. intros H Heq. unfold inBody in H. rewrite Heq in H. done. Qed.

(** The cursor advances: while no body field has been seen, each field
    passed over moves the body slice to the remaining bytes. *)
Lemma parseLoop_advance (n : nat) : forall fuel msg tb raw hs rest,
  extractFields n raw = inl (hs, rest) ->
  Forall passedOver hs ->
  exists msg',
    parseLoop (n + fuel) msg tb false raw = parseLoop fuel msg' tb false rest /\
    bodyBytes msg' = match hs with [] => bodyBytes msg | _ => rest end /\
    fields msg' = fields msg ++ hs.
Proof.
  induction n as [|n IH]; intros fuel msg tb raw hs rest He Hall; simpl in He.
  - injection He as <- <-. exists msg. by rewrite app_nil_r.
  - destruct (extractField raw) as [[f r]|[? ?]] eqn:Ef; [|done].
    destruct (extractFields n r) as [[gs r']|?] eqn:E; [|done].
    injection He as <- <-. apply Forall_cons in Hall as [Hf Hall].
    change (S n + fuel)%nat with (S (n + fuel)). rewrite parseLoop_unfold, Ef.
    destruct (routeField_passedOver (appendField msg f) tb false f r Hf)
      as (msg1 & -> & Hb & Hfs).
    destruct Hf as [_ Hck]. apply Z.eqb_neq in Hck. rewrite Hck.
    destruct (IH fuel (setBodyBytes msg1 r) tb r gs r' E Hall)
      as (msg' & -> & Hb' & Hfs').
    exists msg'. split; [done|].
    split; [|rewrite Hfs'; simpl; rewrite Hfs; simpl; by rewrite <- app_assoc].
    rewrite Hb'.
    destruct gs; [|done].
    pose proof (extractFields_length _ _ _ _ E) as Hn. simpl in Hn. subst n.
    simpl in E. by injection E as <-.
Qed.

(** The cursor freezes: body fields leave the body slice alone and move
    [trailerBytes] behind them. *)
Lemma parseLoop_body (n : nat) : forall fuel msg tb fb raw bs rest,
  extractFields n raw = inl (bs, rest) ->
  Forall inBody bs -> bs <> [] ->
  exists msg',
    parseLoop (n + fuel) msg tb fb raw = parseLoop fuel msg' rest true rest /\
    bodyBytes msg' = bodyBytes msg /\
    fields msg' = fields msg ++ bs.
Proof.
  induction n as [|n IH]; intros fuel msg tb fb raw bs rest He Hall Hne; simpl in He.
  - by injection He as <- <-.
  - destruct (extractField raw) as [[f r]|[? ?]] eqn:Ef; [|done].
    destruct (extractFields n r) as [[gs r']|?] eqn:E; [|done].
    injection He as <- <-. apply Forall_cons in Hall as [Hf Hall].
    change (S n + fuel)%nat with (S (n + fuel)). rewrite parseLoop_unfold, Ef.
    destruct (routeField_inBody (appendField msg f) tb fb f r Hf)
      as (msg1 & -> & Hb & Hfs).
    apply inBody_not_checksum, Z.eqb_neq in Hf. rewrite Hf.
    destruct gs as [|g gs].
    + pose proof (extractFields_length _ _ _ _ E) as Hn. simpl in Hn. subst n.
      simpl in E. injection E as <-. exists msg1. by repeat split.
    + destruct (IH fuel msg1 r true r (g :: gs) r' E Hall) as (msg' & -> & Hb' & Hfs');
        [done|].
      exists msg'. split; [done|]. split; [by rewrite Hb'|].
      rewrite Hfs', Hfs. simpl. by rewrite <- app_assoc.
Qed.

(** Once a body field has been seen, the fields passed over up to the
    checksum change neither the body slice nor [trailerBytes]. *)
Lemma parseLoop_trailer (n : nat) : forall fuel msg tb raw ts ck tail,
  extractFields (S n) raw = inl (ts ++ [ck], tail) ->
  length ts = n ->
  Forall passedOver ts -> Tag ck = tag.CheckSum ->
  exists msg',
    parseLoop (S n + fuel) msg tb true raw = Some (inl (msg', tb)) /\
    bodyBytes msg' = bodyBytes msg /\
    fields msg' = fields msg ++ ts ++ [ck].
Proof.
  induction n as [|n IH]; intros fuel msg tb raw ts ck tail He Hlen Hall Hck.
  - destruct ts; [|done]. simpl in He.
    destruct (extractField raw) as [[f r]|[? ?]] eqn:Ef; [|done].
    injection He as <- <-.
    change (1 + fuel)%nat with (S fuel). rewrite parseLoop_unfold, Ef.
    assert (exists msg1, routeField (appendField msg f) tb true f r = (msg1, tb, true)
                         /\ bodyBytes msg1 = bodyBytes msg
                         /\ fields msg1 = fields msg ++ [f]) as (msg1 & -> & Hb & Hfs).
    { unfold routeField. rewrite Hck. simpl. by eexists. }
    apply Z.eqb_eq in Hck. rewrite Hck. by exists msg1.
  - destruct ts as [|t ts]; [done|]. injection Hlen as Hlen.
    apply Forall_cons in Hall as [Ht Hall].
    change (extractFields (S (S n)) raw) with
      (match extractField raw with
       | inr (_, err) => inr err
       | inl (f, rest) =>
           match extractFields (S n) rest with
           | inl (fs, rest') => inl (f :: fs, rest')
           | inr err => inr err
           end
       end) in He.
    destruct (extractField raw) as [[f r]|[? ?]] eqn:Ef; [|done].
    destruct (extractFields (S n) r) as [[gs r']|?] eqn:E; [|done].
    simpl in He. injection He as -> -> ->.
    change (S (S n) + fuel)%nat with (S (S n + fuel)). rewrite parseLoop_unfold, Ef.
    destruct (routeField_passedOver (appendField msg t) tb true t r Ht)
      as (msg1 & -> & Hb & Hfs).
    destruct Ht as [_ Hne]. apply Z.eqb_neq in Hne. rewrite Hne.
    destruct (IH fuel msg1 tb r ts ck tail E Hlen Hall Hck) as (msg' & -> & Hb' & Hfs').
    exists msg'. split; [done|]. split; [by rewrite Hb'|].
    rewrite Hfs', Hfs. simpl. by rewrite <- app_assoc.
Qed.

Lemma extractFields_consumes (n : nat) (raw : list byte) fs rest :
  extractFields n raw = inl (fs, rest) -> (n + length rest <= length raw)%nat.
Proof.
  revert raw fs rest. induction n as [|n IH]; simpl; intros raw fs rest.
  - intros [= <- <-]. lia.
  - destruct (extractField raw) as [[f r]|[? ?]] eqn:Ef; [|done].
    destruct (extractFields n r) as [[gs r']|?] eqn:E; [|done].
    intros [= <- <-]. apply extractField_inl in Ef as [_ Hlt].
    apply IH in E. lia.
Qed.

Lemma filter_inBody_all (fs : list fieldBytes) :
  Forall inBody fs -> filter (fun f => partitionOf (Tag f) = InBody) fs = fs.
Proof.
  induction 1 as [|f fs Hf _ IH]; [done|].
  rewrite filter_cons. rewrite decide_True by done. by rewrite IH.
Qed.

Lemma filter_inBody_none (fs : list fieldBytes) :
  Forall (fun f => partitionOf (Tag f) <> InBody) fs ->
  filter (fun f => partitionOf (Tag f) = InBody) fs = [].
Proof.
  induction 1 as [|f fs Hf _ IH]; [done|].
  rewrite filter_cons. by rewrite decide_False.
Qed.

Lemma concat_Data_nonempty (buffer : list byte) (n : nat) fs rest :
  extractFields n buffer = inl (fs, rest) -> fs <> [] ->
  (0 < length (concat (List.map Data fs)))%nat.
Proof.
  destruct n as [|n]; simpl; [by intros [= <- <-]|].
  destruct (extractField buffer) as [[f r]|[? ?]] eqn:Ef; [|done].
  destruct (extractFields n r) as [[gs r']|?]; [|done].
  intros [= <- <-] _. simpl. rewrite length_app.
  apply extractField_Data_nonempty in Ef. lia.
Qed.

(** The body payload of a message in partition order.  The input holds the
    three leading fields, then at least one further header (or trailer)
    field, then the body fields, at least one, then trailer (or header)
    fields and the checksum.  [parseMessage] returns a message with these
    fields whose body payload is made of the bytes of the body fields. *)
Lemma parseMessage_body_payload_regular
    (raw tail : list byte) (f1 f2 f3 ck : fieldBytes) (hs bs ts : list fieldBytes) :
  extractFields (3 + (length hs + (length bs + S (length ts)))) raw
    = inl ([f1; f2; f3] ++ hs ++ bs ++ ts ++ [ck], tail) ->
  List.map Tag [f1; f2; f3] = leadingTags ->
  hs <> [] -> Forall passedOver hs ->
  bs <> [] -> Forall inBody bs ->
  Forall passedOver ts -> Tag ck = tag.CheckSum ->
  exists msg err,
    parseMessage raw = Some (Some msg, err) /\
    fields msg = [f1; f2; f3] ++ hs ++ bs ++ ts ++ [ck] /\
    bodyBytes msg = concat (List.map Data bs) /\
    bodyFieldBytes (fields msg) = concat (List.map Data bs).
Proof.
  intros He Hlead Hhs Hh Hbs Hb Ht Hck.
  apply (extractFields_split 3 _ raw [f1; f2; f3]) in He as (r3 & E3 & He); [|done].
  apply (extractFields_split (length hs)) in He as (rh & Eh & He); [|done].
  apply (extractFields_split (length bs)) in He as (rb & Eb & Et); [|done].
  injection Hlead as H1 H2 H3.
  (* the three leading fields *)
  pose proof (parseMessage_cases raw) as Hp. simpl in E3.
  destruct (extractField raw) as [[g1 r1]|[? ?]]; [|done].
  destruct (extractField r1) as [[g2 r2]|[? ?]]; [|done].
  destruct (extractField r2) as [[g3 r3']|[? ?]]; [|done].
  injection E3 as -> -> -> ->.
  rewrite !decide_True in Hp by done.
  (* the loop, in three phases *)
  set (msg0 := leadMessage raw f1 f2 f3) in *.
  destruct (parseLoop_advance _ (length bs + (S (length ts) + 0)) msg0 [] r3 hs rh Eh Hh)
    as (msg1 & Hl1 & Hb1 & Hf1).
  destruct (parseLoop_body _ (S (length ts) + 0) msg1 [] false rh bs rb Eb Hb Hbs)
    as (msg2 & Hl2 & Hb2 & Hf2).
  destruct (parseLoop_trailer _ 0 msg2 rb rb ts ck tail Et eq_refl Ht Hck)
    as (msg3 & Hl3 & Hb3 & Hf3).
  rewrite Hl2, Hl3 in Hl1.
  pose proof (extractFields_consumes _ _ _ _ Eh).
  pose proof (extractFields_consumes _ _ _ _ Eb).
  pose proof (extractFields_consumes _ _ _ _ Et).
  apply (parseLoop_fuel _ (S (length r3))) in Hl1; [|lia].
  rewrite Hl1 in Hp. simpl in Hp.
  (* the trimming *)
  assert (bodyBytes msg3 = concat (List.map Data bs) ++ rb) as Hbody.
  { rewrite Hb3, Hb2, Hb1. destruct hs; [done|]. by apply extractFields_bytes in Eb. }
  pose proof (concat_Data_nonempty _ _ _ _ Eb Hbs) as Hpos.
  assert (bodyBytes (trimBody msg3 rb) = concat (List.map Data bs)) as Htrim.
  { unfold trimBody. rewrite Hbody. unfold len. rewrite length_app.
    assert ((Z.of_nat (length (concat (List.map Data bs)) + length rb)
               >? Z.of_nat (length rb)) = true) as ->
      by (rewrite Z.gtb_ltb; apply Z.ltb_lt; lia).
    simpl.
    replace (length (concat (List.map Data bs)) + length rb - length rb)%nat
      with (length (concat (List.map Data bs))) by lia.
    by rewrite take_app_length. }
  assert (fields (trimBody msg3 rb) = [f1; f2; f3] ++ hs ++ bs ++ ts ++ [ck]) as Hfields.
  { unfold trimBody. destruct (_ >? _); simpl; rewrite Hf3, Hf2, Hf1;
      simpl; by rewrite <- !app_assoc. }
  unfold checkLength in Hp.
  assert (exists err, parseMessage raw = Some (Some (trimBody msg3 rb), err))
    as [err Herr] by (destruct (decide _); eexists; exact Hp).
  exists (trimBody msg3 rb), err. split; [exact Herr|].
  split; [exact Hfields|]. split; [exact Htrim|].
  rewrite Hfields. unfold bodyFieldBytes. rewrite !filter_app.
  rewrite (filter_inBody_all bs Hb).
  rewrite (filter_inBody_none hs), (filter_inBody_none ts).
  - rewrite (filter_inBody_none [f1; f2; f3]), (filter_inBody_none [ck]).
    + simpl. by rewrite app_nil_r.
    + constructor; [|constructor]. by rewrite Hck.
    + repeat constructor; by rewrite ?H1, ?H2, ?H3.
  - eapply Forall_impl; [exact Ht|]. by intros f [? ?].
  - eapply Forall_impl; [exact Hh|]. by intros f [? ?].
Qed.

(** ** Fields that are read back *)

Lemma IndexByte_app (l l' : list byte) (c : byte) (i : nat) :
  IndexByte l c = Some i -> IndexByte (l ++ l') c = Some i.
Proof.
  revert i. induction l as [|b l IH]; simpl; intros i; [done|].
  destruct (Byte.eqb b c); [done|].
  destruct (IndexByte l c) as [j|]; [|done].
  intros [= <-]. by rewrite (IH j).
Qed.

Lemma IndexByte_skip (l l' : list byte) (c : byte) :
  c ∉ l -> IndexByte (l ++ c :: l') c = Some (length l).
Proof.
  induction l as [|b l IH]; simpl; intros Hn.
  - by rewrite (proj2 (byte_eqb_true c c) eq_refl).
  - apply not_elem_of_cons in Hn as [Hne Hn].
    assert (Byte.eqb b c = false) as -> by (apply byte_eqb_false; congruence).
    by rewrite IH.
Qed.

(** A field whose bytes end at their first delimiter and parse to the field
    is read back. *)
Lemma readsBack_intro (f : fieldBytes) (i : nat) :
  IndexByte (Data f) SOH = Some i -> length (Data f) = S i ->
  parseField (Data f) = inl f -> readsBack f.
Proof.
  intros Hi Hlen Hp rest. unfold extractField.
  rewrite (IndexByte_app _ _ _ _ Hi).
  rewrite <- Hlen, take_app_length, drop_app_length. by rewrite Hp.
Qed.

(** A field extracted from a buffer is read back from its own bytes. *)
Lemma extractField_readsBack (buffer : list byte) f rest :
  extractField buffer = inl (f, rest) -> readsBack f.
Proof.
  unfold extractField.
  destruct (IndexByte buffer SOH) as [i|] eqn:Hi; [|done].
  pose proof (IndexByte_lt _ _ _ Hi) as Hlt.
  destruct (parseField (take (S i) buffer)) as [g|] eqn:Hg; [|done].
  intros [= <- <-].
  assert (Data g = take (S i) buffer) as HD.
  { unfold parseField in Hg. repeat case_match; simplify_eq; done. }
  apply (readsBack_intro g i).
  - rewrite HD. apply IndexByte_Some in Hi as [Hi Hn].
    rewrite (take_S_r _ _ _ Hi). rewrite <- (length_take_le buffer i) at 2 by lia.
    by apply IndexByte_skip.
  - rewrite HD, length_take. lia.
  - by rewrite HD.
Qed.

Lemma extractFields_readsBack (n : nat) (buffer : list byte) fs rest :
  extractFields n buffer = inl (fs, rest) -> Forall readsBack fs.
Proof.
  revert buffer fs rest. induction n as [|n IH]; simpl; intros buffer fs rest.
  - intros [= <- <-]. constructor.
  - destruct (extractField buffer) as [[f r]|[? ?]] eqn:Ef; [|done].
    destruct (extractFields n r) as [[gs r']|?] eqn:E; [|done].
    intros [= <- <-]. constructor; [by eapply extractField_readsBack | eauto].
Qed.

(** Fields that are read back, written one after the other, are extracted
    one after the other. *)
Lemma extractFields_concat (fs : list fieldBytes) (rest : list byte) :
  Forall readsBack fs ->
  extractFields (length fs) (concat (List.map Data fs) ++ rest) = inl (fs, rest).
Proof.
  induction 1 as [|f fs Hf _ IH]; simpl; [done|].
  rewrite <- app_assoc, Hf, IH. done.
Qed.

Lemma bytes_of_uint_digits (d : Decimal.uint) :
  Forall (fun b => isDigit b = true) (bytes_of_uint d).
Proof. induction d; simpl; constructor; done. Qed.

Lemma digits_no_delim (s : list byte) :
  Forall (fun b => isDigit b = true) s -> SOH ∉ s.
Proof.
  intros H Hin. rewrite Forall_forall in H. by apply H in Hin.
Qed.

Lemma itoa_no_delim (z : Z) : SOH ∉ itoa z.
Proof.
  unfold itoa. destruct (Z.to_int z) as [d|d].
  - apply digits_no_delim, bytes_of_uint_digits.
  - apply not_elem_of_cons. split; [done|].
    apply digits_no_delim, bytes_of_uint_digits.
Qed.

Lemma sprintf03d_no_delim (c : Z) : 0 <= c < 256 -> SOH ∉ sprintf03d c.
Proof.
  intros Hc. pose proof (threeDigits_range c Hc) as H.
  unfold threeDigits in H. apply andb_prop in H as [H _].
  apply andb_prop in H as [_ H].
  apply digits_no_delim, Forall_forall. intros b Hb.
  rewrite forallb_forall in H. apply H. by apply list_elem_of_In.
Qed.

(** The body-length and checksum fields that [rebuild] sets are read back. *)
Lemma newFieldBytes_BodyLength_readsBack (value : list byte) :
  SOH ∉ value -> readsBack (newFieldBytes tag.BodyLength value).
Proof.
  intros Hv.
  apply (readsBack_intro _ (length ([x39; x3d] ++ value))).
  - change (Data (newFieldBytes tag.BodyLength value))
      with (([x39; x3d] ++ value) ++ SOH :: []).
    apply IndexByte_skip. apply not_elem_of_app. split; [|done].
    rewrite !not_elem_of_cons. repeat split; try done. apply not_elem_of_nil.
  - unfold newFieldBytes, Data. simpl. rewrite length_app. simpl. lia.
  - unfold parseField.
    change (Data (newFieldBytes tag.BodyLength value))
      with (x39 :: x3d :: value ++ [SOH]).
    change (IndexByte (x39 :: x3d :: value ++ [SOH]) EQUALS) with (Some 1%nat).
    change (parseUInt (take 1 (x39 :: x3d :: value ++ [SOH]))) with (Some 9).
    change (0 <? 9) with true. cbv iota.
    unfold newFieldBytes. f_equal. f_equal.
    change (length (x39 :: x3d :: value ++ [SOH]) - 1)%nat
      with (S (S (length (value ++ [SOH]))) - 1)%nat.
    rewrite length_app. simpl length.
    replace (S (S (length value + 1)) - 1)%nat with (S (S (length value))) by lia.
    change (take (S (S (length value))) (x39 :: x3d :: value ++ [SOH]))
      with (x39 :: x3d :: take (length value) (value ++ [SOH])).
    rewrite take_app_length. reflexivity.
Qed.

Lemma newFieldBytes_CheckSum_readsBack (value : list byte) :
  SOH ∉ value -> readsBack (newFieldBytes tag.CheckSum value).
Proof.
  intros Hv.
  apply (readsBack_intro _ (length ([x31; x30; x3d] ++ value))).
  - change (Data (newFieldBytes tag.CheckSum value))
      with (([x31; x30; x3d] ++ value) ++ SOH :: []).
    apply IndexByte_skip. apply not_elem_of_app. split; [|done].
    rewrite !not_elem_of_cons. repeat split; try done. apply not_elem_of_nil.
  - unfold newFieldBytes, Data. simpl. rewrite length_app. simpl. lia.
  - unfold parseField.
    change (Data (newFieldBytes tag.CheckSum value))
      with (x31 :: x30 :: x3d :: value ++ [SOH]).
    change (IndexByte (x31 :: x30 :: x3d :: value ++ [SOH]) EQUALS) with (Some 2%nat).
    change (parseUInt (take 2 (x31 :: x30 :: x3d :: value ++ [SOH]))) with (Some 10).
    change (0 <? 10) with true. cbv iota.
    unfold newFieldBytes. f_equal. f_equal.
    change (length (x31 :: x30 :: x3d :: value ++ [SOH]) - 1)%nat
      with (S (S (S (length (value ++ [SOH])))) - 1)%nat.
    rewrite length_app. simpl length.
    replace (S (S (S (length value + 1))) - 1)%nat with (S (S (S (length value)))) by lia.
    change (take (S (S (S (length value)))) (x31 :: x30 :: x3d :: value ++ [SOH]))
      with (x31 :: x30 :: x3d :: take (length value) (value ++ [SOH])).
    rewrite take_app_length. reflexivity.
Qed.

(** ** The order of the written fields *)

Lemma fieldMap_write_writtenFields (m : fieldMap) :
  fieldMap_write m = concat (List.map Data (writtenFields m)).
Proof.
  unfold fieldMap_write, writtenFields.
  induction (fieldMap_sortedTags m) as [|t l IH]; simpl; [done|].
  rewrite IH. by destruct (fieldLookup m !! t).
Qed.

(** A tag that goes before all tags of a list is sorted to the front. *)
Lemma insertTag_first (less : Z -> Z -> bool) (m : Z) (s : list Z) :
  Forall (fun x => less m x = true) s -> insertTag less m s = m :: s.
Proof. destruct 1 as [|x s Hx _]; simpl; [done|]. by rewrite Hx. Qed.

Lemma sortTags_first (less : Z -> Z -> bool) (m : Z) (l1 l2 : list Z) :
  Forall (fun x => less x m = false /\ less m x = true) (l1 ++ l2) ->
  sortTags less (l1 ++ m :: l2) = m :: sortTags less (l1 ++ l2).
Proof.
  induction l1 as [|a l1 IH]; simpl; intros Hall.
  - apply insertTag_first. rewrite (sortTags_perm less l2).
    eapply Forall_impl; [exact Hall|]. by intros x [_ ?].
  - apply Forall_cons in Hall as [[Ha _] Hall].
    rewrite (IH Hall). simpl. by rewrite Ha.
Qed.

(** A tag that goes after all tags of a list is sorted to the back. *)
Lemma insertTag_last (less : Z -> Z -> bool) (m : Z) (s : list Z) :
  Forall (fun x => less m x = false) s -> insertTag less m s = s ++ [m].
Proof.
  induction 1 as [|x s Hx _ IH]; simpl; [done|]. by rewrite Hx, IH.
Qed.

Lemma insertTag_before_last (less : Z -> Z -> bool) (a m : Z) (s : list Z) :
  less a m = true -> insertTag less a (s ++ [m]) = insertTag less a s ++ [m].
Proof.
  intros Ha. induction s as [|x s IH]; simpl; [by rewrite Ha|].
  destruct (less a x); [done|]. by rewrite IH.
Qed.

Lemma sortTags_last (less : Z -> Z -> bool) (m : Z) (l1 l2 : list Z) :
  Forall (fun x => less m x = false /\ less x m = true) (l1 ++ l2) ->
  sortTags less (l1 ++ m :: l2) = sortTags less (l1 ++ l2) ++ [m].
Proof.
  induction l1 as [|a l1 IH]; simpl; intros Hall.
  - apply insertTag_last. rewrite (sortTags_perm less l2).
    eapply Forall_impl; [exact Hall|]. by intros x [? _].
  - apply Forall_cons in Hall as [[_ Ha] Hall].
    rewrite (IH Hall). by apply insertTag_before_last.
Qed.

(** Splitting a duplicate-free list at one of its elements. *)
Lemma NoDup_split (l : list Z) (m : Z) :
  NoDup l -> m ∈ l ->
  exists l1 l2, l = l1 ++ m :: l2 /\ (m ∉ l1 ++ l2) /\ NoDup (l1 ++ l2).
Proof.
  intros Hnd Hin. apply list_elem_of_split in Hin as (l1 & l2 & ->).
  exists l1, l2. split; [done|].
  apply NoDup_app in Hnd as (Hn1 & Hn12 & Hn2).
  apply NoDup_cons in Hn2 as [Hm Hn2].
  split.
  - rewrite not_elem_of_app. split; [|done]. intros H1. apply (Hn12 m H1). left.
  - apply NoDup_app. repeat split; [done| |done].
    intros x Hx1 Hx2. apply (Hn12 x Hx1). by right.
Qed.

(** The header order puts begin-string, body-length and message-type
    first. *)
Lemma headerFieldOrder_BeginString (x : Z) :
  x <> tag.BeginString ->
  headerFieldOrder x tag.BeginString = false /\
  headerFieldOrder tag.BeginString x = true.
Proof.
  intros Hx. unfold headerFieldOrder, headerOrdering.
  change (tag.BeginString =? tag.BeginString) with true.
  destruct (Z.eqb_spec x tag.BeginString); [done|].
  destruct (x =? tag.BodyLength); [done|].
  destruct (x =? tag.MsgType); done.
Qed.

Lemma headerFieldOrder_BodyLength (x : Z) :
  x <> tag.BeginString -> x <> tag.BodyLength ->
  headerFieldOrder x tag.BodyLength = false /\
  headerFieldOrder tag.BodyLength x = true.
Proof.
  intros Hx Hy. unfold headerFieldOrder, headerOrdering.
  change (tag.BodyLength =? tag.BeginString) with false.
  change (tag.BodyLength =? tag.BodyLength) with true.
  destruct (Z.eqb_spec x tag.BeginString); [done|].
  destruct (Z.eqb_spec x tag.BodyLength); [done|].
  destruct (x =? tag.MsgType); done.
Qed.

Lemma headerFieldOrder_MsgType (x : Z) :
  x <> tag.BeginString -> x <> tag.BodyLength -> x <> tag.MsgType ->
  headerFieldOrder x tag.MsgType = false /\
  headerFieldOrder tag.MsgType x = true.
Proof.
  intros Hx Hy Hz. unfold headerFieldOrder, headerOrdering.
  change (tag.MsgType =? tag.BeginString) with false.
  change (tag.MsgType =? tag.BodyLength) with false.
  change (tag.MsgType =? tag.MsgType) with true.
  destruct (Z.eqb_spec x tag.BeginString); [done|].
  destruct (Z.eqb_spec x tag.BodyLength); [done|].
  destruct (Z.eqb_spec x tag.MsgType); done.
Qed.

(** The trailer order puts the checksum last. *)
Lemma trailerFieldOrder_CheckSum (x : Z) :
  x <> tag.CheckSum ->
  trailerFieldOrder tag.CheckSum x = false /\
  trailerFieldOrder x tag.CheckSum = true.
Proof.
  intros Hx. unfold trailerFieldOrder.
  change (tag.CheckSum =? tag.CheckSum) with true.
  by destruct (Z.eqb_spec x tag.CheckSum).
Qed.

(** The tags of a header that holds the three leading fields are sorted
    with these three in front. *)
Lemma sortTags_header (l : list Z) :
  NoDup l -> tag.BeginString ∈ l -> tag.BodyLength ∈ l -> tag.MsgType ∈ l ->
  exists rest,
    sortTags headerFieldOrder l
      = tag.BeginString :: tag.BodyLength :: tag.MsgType :: rest /\
    l ≡ₚ tag.BeginString :: tag.BodyLength :: tag.MsgType :: rest.
Proof.
  intros Hnd H8 H9 H35.
  destruct (NoDup_split l _ Hnd H8) as (a1 & a2 & -> & Hn8 & Hnd8).
  assert (tag.BodyLength ∈ a1 ++ a2) as H9'.
  { rewrite elem_of_app in *. rewrite elem_of_cons in H9.
    destruct H9 as [?|[?|?]]; [by left|done|by right]. }
  assert (tag.MsgType ∈ a1 ++ a2) as H35'.
  { rewrite elem_of_app in *. rewrite elem_of_cons in H35.
    destruct H35 as [?|[?|?]]; [by left|done|by right]. }
  rewrite sortTags_first.
  2:{ apply Forall_forall. intros x Hx. apply headerFieldOrder_BeginString.
      intros ->. done. }
  destruct (NoDup_split _ _ Hnd8 H9') as (b1 & b2 & Hb & Hn9 & Hnd9).
  rewrite Hb in *.
  assert (tag.MsgType ∈ b1 ++ b2) as H35''.
  { rewrite elem_of_app in *. rewrite elem_of_cons in H35'.
    destruct H35' as [?|[?|?]]; [by left|done|by right]. }
  assert (tag.BeginString ∉ b1 ++ b2) as Hn8'.
  { intros Hin. apply Hn8. rewrite elem_of_app in *. rewrite elem_of_cons.
    destruct Hin; [by left|by right; right]. }
  rewrite sortTags_first.
  2:{ apply Forall_forall. intros x Hx. apply headerFieldOrder_BodyLength; by intros ->. }
  destruct (NoDup_split _ _ Hnd9 H35'') as (c1 & c2 & Hc & Hn35 & Hnd35).
  rewrite Hc in *.
  assert (tag.BeginString ∉ c1 ++ c2) as Hn8''.
  { intros Hin. apply Hn8'. rewrite elem_of_app in *. rewrite elem_of_cons.
    destruct Hin; [by left|by right; right]. }
  assert (tag.BodyLength ∉ c1 ++ c2) as Hn9'.
  { intros Hin. apply Hn9. rewrite elem_of_app in *. rewrite elem_of_cons.
    destruct Hin; [by left|by right; right]. }
  rewrite sortTags_first.
  2:{ apply Forall_forall. intros x Hx. apply headerFieldOrder_MsgType; by intros ->. }
  exists (sortTags headerFieldOrder (c1 ++ c2)). split; [done|].
  rewrite (sortTags_perm headerFieldOrder (c1 ++ c2)).
  rewrite <- (Permutation_middle a1 a2 tag.BeginString). rewrite Hb.
  rewrite <- (Permutation_middle b1 b2 tag.BodyLength). rewrite Hc.
  by rewrite <- (Permutation_middle c1 c2 tag.MsgType).
Qed.

Lemma sortTags_trailer (l : list Z) :
  NoDup l -> tag.CheckSum ∈ l ->
  exists rest,
    sortTags trailerFieldOrder l = rest ++ [tag.CheckSum] /\
    l ≡ₚ rest ++ [tag.CheckSum].
Proof.
  intros Hnd H10.
  destruct (NoDup_split l _ Hnd H10) as (a1 & a2 & -> & Hn & Hnd').
  rewrite sortTags_last.
  2:{ apply Forall_forall. intros x Hx. apply trailerFieldOrder_CheckSum. by intros ->. }
  exists (sortTags trailerFieldOrder (a1 ++ a2)). split; [done|].
  rewrite (sortTags_perm trailerFieldOrder (a1 ++ a2)).
  rewrite <- Permutation_middle. by rewrite Permutation_cons_append.
Qed.

(** ** The fields a map writes *)

Lemma map_fmap {A B} (f : A -> B) (l : list A) : List.map f l = f <$> l.
Proof. induction l as [|a l IH]; [done|]. simpl. by rewrite IH. Qed.

Lemma mapTags_elem_of (m : gmap Z fieldBytes) (t : Z) :
  t ∈ List.map fst (map_to_list m) <-> is_Some (m !! t).
Proof.
  rewrite map_fmap, list_elem_of_fmap. split.
  - intros ([k f] & -> & Hin). apply elem_of_map_to_list in Hin. by eexists.
  - intros [f Hf]. exists (t, f). split; [done|]. by apply elem_of_map_to_list.
Qed.

Lemma mapTags_NoDup (m : gmap Z fieldBytes) : NoDup (List.map fst (map_to_list m)).
Proof. rewrite map_fmap. apply NoDup_fst_map_to_list. Qed.

Lemma sortedTags_elem_of (m : fieldMap) (t : Z) :
  t ∈ fieldMap_sortedTags m <-> is_Some (fieldLookup m !! t).
Proof.
  unfold fieldMap_sortedTags. rewrite sortTags_perm. apply mapTags_elem_of.
Qed.

Lemma sortedTags_NoDup (m : fieldMap) : NoDup (fieldMap_sortedTags m).
Proof.
  unfold fieldMap_sortedTags. rewrite sortTags_perm. apply mapTags_NoDup.
Qed.

(** The written fields are the entries of the map, each once. *)
Lemma writtenFields_perm (m : fieldMap) :
  writtenFields m ≡ₚ List.map snd (map_to_list (fieldLookup m)).
Proof.
  unfold writtenFields, fieldMap_sortedTags.
  rewrite sortTags_perm.
  assert (forall l : list (Z * fieldBytes),
            (forall kv, kv ∈ l -> fieldLookup m !! kv.1 = Some kv.2) ->
            omap (fun t => fieldLookup m !! t) (List.map fst l) = List.map snd l) as H.
  { induction l as [|kv l IH]; intros Hl; [done|]. csimpl.
    rewrite (Hl kv) by apply list_elem_of_here. f_equal. apply IH.
    intros kv' Hin. apply Hl. by apply list_elem_of_further. }
  rewrite H; [done|]. intros [k f] Hin. by apply elem_of_map_to_list.
Qed.

Lemma writtenFields_elem_of (m : fieldMap) (f : fieldBytes) :
  f ∈ writtenFields m <-> exists t, fieldLookup m !! t = Some f.
Proof.
  rewrite writtenFields_perm, map_fmap, list_elem_of_fmap. split.
  - intros ([k g] & -> & Hin). exists k. by apply elem_of_map_to_list.
  - intros [t Ht]. exists (t, f). split; [done|]. by apply elem_of_map_to_list.
Qed.

Lemma lastWithTag_cons (t : Z) (f : fieldBytes) (fs : list fieldBytes) :
  lastWithTag t (f :: fs) =
    match lastWithTag t fs with
    | Some g => Some g
    | None => if decide (Tag f = t) then Some f else None
    end.
Proof.
  unfold lastWithTag. rewrite filter_cons.
  destruct (decide (Tag f = t)); [|by destruct (last _)].
  destruct (filter (fun g => Tag g = t) fs) as [|g gs] eqn:E; [done|].
  rewrite last_cons. by destruct (last (g :: gs)) eqn:El.
Qed.

Lemma lastWithTag_app (t : Z) (fs gs : list fieldBytes) :
  lastWithTag t (fs ++ gs) =
    match lastWithTag t gs with
    | Some g => Some g
    | None => lastWithTag t fs
    end.
Proof.
  unfold lastWithTag. rewrite filter_app, last_app. done.
Qed.

Lemma lastWithTag_None (t : Z) (fs : list fieldBytes) :
  Forall (fun f => Tag f <> t) fs -> lastWithTag t fs = None.
Proof.
  intros H. unfold lastWithTag.
  replace (filter (fun f => Tag f = t) fs) with (@nil fieldBytes); [done|].
  symmetry. induction H as [|f fs Hf _ IH]; [done|].
  rewrite filter_cons. by rewrite decide_False.
Qed.

Lemma lastWithTag_omap (m : gmap Z fieldBytes) (t : Z) (l : list Z) :
  keyedByTag m -> NoDup l ->
  lastWithTag t (omap (fun k => m !! k) l) = if decide (t ∈ l) then m !! t else None.
Proof.
  intros Hk. induction 1 as [|a l Ha Hnd IH]; [done|]. csimpl.
  destruct (m !! a) as [f|] eqn:Ef.
  - rewrite lastWithTag_cons, IH. pose proof (Hk a f Ef) as Hf.
    destruct (decide (t ∈ a :: l)) as [Hin|Hin];
      destruct (decide (t ∈ l)) as [Hin'|Hin'];
      destruct (decide (Tag f = t)) as [Ht|Ht];
      rewrite ?elem_of_cons in Hin.
    + exfalso. apply Ha. congruence.
    + by destruct (m !! t).
    + by rewrite <- Ht, Hf.
    + exfalso. destruct Hin as [->|?]; done.
    + exfalso. apply Hin. by right.
    + exfalso. apply Hin. by right.
    + exfalso. apply Hin. left. congruence.
    + done.
  - rewrite IH.
    destruct (decide (t ∈ a :: l)) as [Hin|Hin];
      destruct (decide (t ∈ l)) as [Hin'|Hin'];
      rewrite ?elem_of_cons in Hin.
    + done.
    + destruct Hin as [->|?]; done.
    + exfalso. apply Hin. by right.
    + done.
Qed.

(** Among the fields a map writes, the last field with tag [t] is the entry
    of [t]: every tag is written once. *)
Lemma lastWithTag_writtenFields (m : fieldMap) (t : Z) :
  keyedByTag (fieldLookup m) ->
  lastWithTag t (writtenFields m) = fieldLookup m !! t.
Proof.
  intros Hk. unfold writtenFields.
  rewrite (lastWithTag_omap _ _ _ Hk (sortedTags_NoDup m)).
  destruct (decide _) as [Hin|Hin]; [done|].
  rewrite sortedTags_elem_of in Hin.
  destruct (fieldLookup m !! t); [|done]. exfalso. apply Hin. by eexists.
Qed.

Lemma fieldsLength_map (fs : list fieldBytes) :
  fieldsLength fs
  = Zsum (List.map (fun f => if noLength (Tag f) then 0 else fieldBytes_Length f) fs).
Proof.
  unfold fieldsLength. rewrite fieldsLength_from.
  induction fs as [|f fs IH]; simpl; [done|].
  simpl in IH. destruct (noLength (Tag f)); simpl; lia.
Qed.

Lemma fieldsLength_app (fs gs : list fieldBytes) :
  fieldsLength (fs ++ gs) = fieldsLength fs + fieldsLength gs.
Proof. rewrite !fieldsLength_map, List.map_app. apply Zsum_app. Qed.

(** The fields a map writes count for its length. *)
Lemma fieldsLength_writtenFields (m : fieldMap) :
  keyedByTag (fieldLookup m) ->
  fieldsLength (writtenFields m) = fieldMap_length m.
Proof.
  intros Hk. rewrite fieldsLength_map.
  rewrite (Zsum_perm _ (List.map (fun f => if noLength (Tag f) then 0
                                           else fieldBytes_Length f)
                          (List.map snd (map_to_list (fieldLookup m))))).
  2:{ apply Permutation_map, writtenFields_perm. }
  unfold fieldMap_length. rewrite List.map_map.
  f_equal. apply map_ext_in. intros [t f] Hin. simpl.
  apply list_elem_of_In, elem_of_map_to_list in Hin. by rewrite (Hk t f Hin).
Qed.

Lemma writtenFields_Forall (P : fieldBytes -> Prop) (m : fieldMap) :
  (forall t f, fieldLookup m !! t = Some f -> P f) ->
  Forall P (writtenFields m).
Proof.
  intros H. apply Forall_forall. intros f Hf.
  apply writtenFields_elem_of in Hf as [t Ht]. eauto.
Qed.

(** The written header starts with the three leading fields. *)
Lemma writtenFields_header (m : fieldMap) (h8 h9 h35 : fieldBytes) :
  fieldOrder m = headerFieldOrder ->
  fieldLookup m !! tag.BeginString = Some h8 ->
  fieldLookup m !! tag.BodyLength = Some h9 ->
  fieldLookup m !! tag.MsgType = Some h35 ->
  exists others, writtenFields m = [h8; h9; h35] ++ others.
Proof.
  intros Ho H8 H9 H35.
  destruct (sortTags_header (List.map fst (map_to_list (fieldLookup m))))
    as (rest & Hs & _).
  - apply mapTags_NoDup.
  - apply mapTags_elem_of. by eexists.
  - apply mapTags_elem_of. by eexists.
  - apply mapTags_elem_of. by eexists.
  - unfold writtenFields, fieldMap_sortedTags. rewrite Ho, Hs.
    simpl. rewrite H8, H9, H35. by eexists.
Qed.

(** The written trailer ends with the checksum field, the only one with
    the checksum tag when the entries sit under their tags. *)
Lemma writtenFields_trailer (m : fieldMap) (t10 : fieldBytes) :
  fieldOrder m = trailerFieldOrder ->
  keyedByTag (fieldLookup m) ->
  fieldLookup m !! tag.CheckSum = Some t10 ->
  exists others, writtenFields m = others ++ [t10] /\
                 Forall (fun f => Tag f <> tag.CheckSum) others.
Proof.
  intros Ho Hk H10.
  destruct (sortTags_trailer (List.map fst (map_to_list (fieldLookup m))))
    as (rest & Hs & Hp).
  - apply mapTags_NoDup.
  - apply mapTags_elem_of. by eexists.
  - unfold writtenFields, fieldMap_sortedTags. rewrite Ho, Hs.
    rewrite omap_app. simpl. rewrite H10.
    eexists. split; [done|].
    pose proof (mapTags_NoDup (fieldLookup m)) as Hnd. rewrite Hp in Hnd.
    apply NoDup_app in Hnd as (_ & Hd & _).
    apply Forall_forall. intros f Hf.
    apply list_elem_of_omap in Hf as (k & Hk1 & Hk2).
    rewrite (Hk k f Hk2). intros ->. apply (Hd _ Hk1). apply list_elem_of_here.
Qed.

(** ** Parsing a sequence of fields *)

(** The loop runs through fields without checksum tag up to the checksum
    field and appends them all. *)
Lemma parseLoop_run (n : nat) : forall fuel msg tb fb raw fs ck tail,
  extractFields (S n) raw = inl (fs ++ [ck], tail) ->
  length fs = n ->
  Forall (fun f => Tag f <> tag.CheckSum) fs -> Tag ck = tag.CheckSum ->
  exists msg' tb',
    parseLoop (S n + fuel) msg tb fb raw = Some (inl (msg', tb')) /\
    fields msg' = fields msg ++ fs ++ [ck].
Proof.
  induction n as [|n IH]; intros fuel msg tb fb raw fs ck tail He Hlen Hall Hck.
  - destruct fs; [|done]. simpl in He.
    destruct (extractField raw) as [[f r]|[? ?]] eqn:Ef; [|done].
    injection He as <- <-.
    change (1 + fuel)%nat with (S fuel). rewrite parseLoop_unfold, Ef.
    pose proof (routeField_fields (appendField msg f) tb fb f r) as Hf.
    destruct (routeField _ tb fb f r) as [[msg1 tb1] fb1]. simpl in Hf.
    apply Z.eqb_eq in Hck. rewrite Hck. by exists msg1, tb1.
  - destruct fs as [|t fs]; [done|]. injection Hlen as Hlen.
    apply Forall_cons in Hall as [Ht Hall].
    change (extractFields (S (S n)) raw) with
      (match extractField raw with
       | inr (_, err) => inr err
       | inl (f, rest) =>
           match extractFields (S n) rest with
           | inl (fs, rest') => inl (f :: fs, rest')
           | inr err => inr err
           end
       end) in He.
    destruct (extractField raw) as [[f r]|[? ?]] eqn:Ef; [|done].
    destruct (extractFields (S n) r) as [[gs r']|?] eqn:E; [|done].
    simpl in He. injection He as -> -> ->.
    change (S (S n) + fuel)%nat with (S (S n + fuel)). rewrite parseLoop_unfold, Ef.
    pose proof (routeField_fields (appendField msg t) tb fb t r) as Hf.
    destruct (routeField _ tb fb t r) as [[msg1 tb1] fb1]. simpl in Hf.
    apply Z.eqb_neq in Ht. rewrite Ht.
    destruct (IH fuel (if fb1 then msg1 else setBodyBytes msg1 r) tb1 fb1 r fs ck tail
                E Hlen Hall Hck) as (msg' & tb' & -> & Hfs).
    exists msg', tb'. split; [done|].
    rewrite Hfs. replace (fields (if fb1 then msg1 else setBodyBytes msg1 r))
      with (fields msg1) by (by destruct fb1).
    rewrite Hf. simpl. by rewrite <- app_assoc.
Qed.

Lemma checkLength_fst (msg : Message) : (checkLength msg).1 = Some msg.
Proof. unfold checkLength. by destruct (decide _). Qed.

(** A buffer made of the three leading fields, fields without checksum tag
    and a checksum field parses into a message with these fields. *)
Lemma parseMessage_of_fields (raw tail : list byte) (f1 f2 f3 ck : fieldBytes)
    (fs : list fieldBytes) :
  extractFields (3 + S (length fs)) raw = inl ([f1; f2; f3] ++ fs ++ [ck], tail) ->
  List.map Tag [f1; f2; f3] = leadingTags ->
  Forall (fun f => Tag f <> tag.CheckSum) fs -> Tag ck = tag.CheckSum ->
  exists msg,
    parseMessage raw = Some (checkLength msg) /\
    fields msg = [f1; f2; f3] ++ fs ++ [ck] /\
    mapsAgree msg /\
    fieldOrder (Header msg) = headerFieldOrder /\
    fieldOrder (Trailer msg) = trailerFieldOrder.
Proof.
  intros He Hlead Hall Hck.
  apply (extractFields_split 3 _ raw [f1; f2; f3]) in He as (r3 & E3 & He); [|done].
  injection Hlead as H1 H2 H3.
  pose proof (parseMessage_cases raw) as Hp. simpl in E3.
  destruct (extractField raw) as [[g1 r1]|[? ?]]; [|done].
  destruct (extractField r1) as [[g2 r2]|[? ?]]; [|done].
  destruct (extractField r2) as [[g3 r3']|[? ?]]; [|done].
  injection E3 as -> -> -> ->.
  rewrite !decide_True in Hp by done.
  destruct (parseLoop_run _ 0 (leadMessage raw f1 f2 f3) [] false r3 fs ck tail
              He eq_refl Hall Hck) as (msg' & tb' & Hl & Hfs).
  pose proof (extractFields_consumes _ _ _ _ He).
  apply (parseLoop_fuel _ (S (length r3))) in Hl; [|lia].
  rewrite Hl in Hp. simpl in Hp.
  exists (trimBody msg' tb'). split; [exact Hp|].
  assert (Some (checkLength (trimBody msg' tb'))
          = Some (Some (trimBody msg' tb'), (checkLength (trimBody msg' tb')).2)) as Hc.
  { unfold checkLength. by destruct (decide _). }
  rewrite Hc in Hp.
  split; [|split].
  - unfold trimBody. destruct (_ >? _); simpl; rewrite Hfs; simpl; done.
  - by eapply parseMessage_mapsAgree.
  - assert (forall m0 : Message,
              fieldOrder (Header m0) = headerFieldOrder /\
              fieldOrder (Trailer m0) = trailerFieldOrder ->
              fieldOrder (Header (trimBody m0 tb')) = headerFieldOrder /\
              fieldOrder (Trailer (trimBody m0 tb')) = trailerFieldOrder) as Htrim.
    { intros m0. unfold trimBody. by destruct (_ >? _). }
    apply Htrim.
    eapply (parseLoop_invariant
              (fun m0 => fieldOrder (Header m0) = headerFieldOrder /\
                         fieldOrder (Trailer m0) = trailerFieldOrder));
      [| | |exact Hl].
    + intros m0 f tb fb rest H0. unfold routeField. by repeat case_match.
    + done.
    + done.
Qed.

(** ** The round trip of a message in partition order *)

Lemma parseMessage_orders (raw : list byte) (msg : Message) (err : option error) :
  parseMessage raw = Some (Some msg, err) ->
  fieldOrder (Header msg) = headerFieldOrder /\
  fieldOrder (Trailer msg) = trailerFieldOrder.
Proof.
  intros Hp.
  apply parseMessage_Some in Hp
    as (f1 & r1 & f2 & r2 & f3 & r3 & msg0 & tb & _ & _ & _ & _ & _ & _ & Hl & -> & _).
  assert (fieldOrder (Header msg0) = headerFieldOrder /\
          fieldOrder (Trailer msg0) = trailerFieldOrder) as H0.
  { eapply (parseLoop_invariant
              (fun m0 => fieldOrder (Header m0) = headerFieldOrder /\
                         fieldOrder (Trailer m0) = trailerFieldOrder));
      [| | |exact Hl]; [|done..].
    intros m0 f tb0 fb rest H0. unfold routeField. by repeat case_match. }
  unfold trimBody. by destruct (_ >? _).
Qed.

Lemma lastWithTag_Some (t : Z) (fs : list fieldBytes) (f : fieldBytes) :
  lastWithTag t fs = Some f -> Tag f = t /\ f ∈ fs.
Proof.
  unfold lastWithTag. intros H. apply last_Some_elem_of in H.
  by apply list_elem_of_filter in H.
Qed.

Lemma lastWithTag_is_Some (t : Z) (fs : list fieldBytes) (f : fieldBytes) :
  f ∈ fs -> Tag f = t -> is_Some (lastWithTag t fs).
Proof.
  intros Hin Ht. unfold lastWithTag.
  assert (f ∈ filter (fun g => Tag g = t) fs) as Hf by (by apply list_elem_of_filter).
  destruct (filter (fun g => Tag g = t) fs) as [|g gs] eqn:E using rev_ind.
  - by apply not_elem_of_nil in Hf.
  - rewrite last_snoc. by eexists.
Qed.

Lemma routedTo_Some (p : partition) (t : Z) (fs : list fieldBytes) (f : fieldBytes) :
  routedTo p t fs = Some f -> partitionOf t = p /\ Tag f = t /\ f ∈ fs.
Proof.
  unfold routedTo. destruct (decide _); [|done].
  intros H. apply lastWithTag_Some in H. tauto.
Qed.

Lemma fieldLookup_store (m : fieldMap) (t : Z) (f : fieldBytes) :
  fieldLookup (fieldMap_store m t f) = <[t := f]> (fieldLookup m).
Proof. reflexivity. Qed.

Lemma partitionOf_CheckSum : partitionOf tag.CheckSum = InTrailer.
Proof. reflexivity. Qed.

Lemma partitionOf_BodyLength : partitionOf tag.BodyLength = InHeader.
Proof. reflexivity. Qed.

Lemma noLength_not_body (t : Z) : partitionOf t = InBody -> noLength t = false.
Proof.
  intros Hp. unfold noLength.
  destruct (Z.eqb_spec t tag.BeginString) as [->|]; [done|].
  destruct (Z.eqb_spec t tag.BodyLength) as [->|]; [done|].
  destruct (Z.eqb_spec t tag.CheckSum) as [->|]; done.
Qed.

Lemma fieldsLength_body (bs : list fieldBytes) :
  Forall inBody bs -> fieldsLength bs = len (concat (List.map Data bs)).
Proof.
  intros H. rewrite fieldsLength_map.
  induction H as [|f bs Hf _ IH]; [done|]. simpl.
  rewrite (noLength_not_body _ Hf), IH, len_app. done.
Qed.

(** The last field with tag [t] among header fields, body fields and
    trailer fields is in the section of [t]'s partition. *)
Lemma routedTo_sections (p : partition) (t : Z) (wH bs wT : list fieldBytes) :
  Forall (fun f => partitionOf (Tag f) = InHeader) wH ->
  Forall (fun f => partitionOf (Tag f) = InBody) bs ->
  Forall (fun f => partitionOf (Tag f) = InTrailer) wT ->
  routedTo p t (wH ++ bs ++ wT) =
    if decide (partitionOf t = p) then
      lastWithTag t (match p with InHeader => wH | InBody => bs | InTrailer => wT end)
    else None.
Proof.
  intros HH HB HT. unfold routedTo. destruct (decide _) as [Hp|]; [|done].
  rewrite !lastWithTag_app.
  assert (forall (q : partition) (l : list fieldBytes),
            Forall (fun f => partitionOf (Tag f) = q) l -> q <> p ->
            lastWithTag t l = None) as Hnone.
  { intros q l Hl Hq. apply lastWithTag_None.
    eapply Forall_impl; [exact Hl|]. intros f Hf Heq. apply Hq. by rewrite <- Hf, Heq. }
  destruct p.
  - rewrite (Hnone InTrailer wT), (Hnone InBody bs) by done. done.
  - rewrite (Hnone InBody bs), (Hnone InHeader wH) by done. by destruct (lastWithTag t wT).
  - rewrite (Hnone InTrailer wT), (Hnone InHeader wH) by done. by destruct (lastWithTag t bs).
Qed.

(** The entries of the maps of a returned message: under their tag, in
    their partition, and read back from their bytes. *)
Lemma parseMessage_entries (raw : list byte) (m : Message) (err : option error) :
  parseMessage raw = Some (Some m, err) ->
  forall (p : partition) (t : Z) (f : fieldBytes),
    fieldLookup (match p with
                 | InHeader => Header m | InBody => Body m | InTrailer => Trailer m
                 end) !! t = Some f ->
    partitionOf t = p /\ Tag f = t /\ readsBack f.
Proof.
  intros Hp p t f Hf.
  pose proof (parseMessage_mapsAgree _ _ _ Hp t) as (Hh & Ht & Hb).
  destruct (parseMessage_fields _ _ _ Hp) as (n & rest & Hn).
  apply extractFields_readsBack in Hn. rewrite Forall_forall in Hn.
  destruct p; [rewrite Hh in Hf | rewrite Ht in Hf | rewrite Hb in Hf];
    apply routedTo_Some in Hf as (? & ? & Hin); auto.
Qed.

(** The entries of the header and of the trailer after [rebuild]. *)
Lemma rebuild_entries (raw : list byte) (m : Message) (err : option error) :
  parseMessage raw = Some (Some m, err) ->
  (forall t f, fieldLookup (Header (rebuild m)) !! t = Some f ->
               partitionOf t = InHeader /\ Tag f = t /\ readsBack f) /\
  (forall t f, fieldLookup (Trailer (rebuild m)) !! t = Some f ->
               partitionOf t = InTrailer /\ Tag f = t /\ readsBack f).
Proof.
  intros Hp. pose proof (parseMessage_entries _ _ _ Hp) as He. split; intros t f.
  - rewrite rebuild_Header. unfold fieldMap_store, fieldLookup.
    destruct (decide (t = tag.BodyLength)) as [->|Hne].
    + rewrite lookup_insert_eq. intros [= <-].
      split; [done|]. split; [done|].
      apply newFieldBytes_BodyLength_readsBack, itoa_no_delim.
    + rewrite lookup_insert_ne by done. apply (He InHeader).
  - rewrite rebuild_Trailer. unfold fieldMap_store, fieldLookup.
    destruct (decide (t = tag.CheckSum)) as [->|Hne].
    + rewrite lookup_insert_eq. intros [= <-].
      split; [done|]. split; [done|].
      apply newFieldBytes_CheckSum_readsBack, sprintf03d_no_delim, rebuildCheckSum_range.
    + rewrite lookup_insert_ne by done. apply (He InTrailer).
Qed.

(** A message in partition order goes round.  The input holds the three
    leading fields, at least one further header or trailer field, at least
    one body field, then trailer or header fields and the checksum.  When it
    parses without error, the bytes [rebuild] writes parse without error,
    into the header and the trailer of the rebuilt message and the body of
    the parsed one. *)
Lemma round_trip_regular
    (raw tail : list byte) (f1 f2 f3 ck : fieldBytes) (hs bs ts : list fieldBytes) :
  extractFields (3 + (length hs + (length bs + S (length ts)))) raw
    = inl ([f1; f2; f3] ++ hs ++ bs ++ ts ++ [ck], tail) ->
  List.map Tag [f1; f2; f3] = leadingTags ->
  hs <> [] -> Forall passedOver hs ->
  bs <> [] -> Forall inBody bs ->
  Forall passedOver ts -> Tag ck = tag.CheckSum ->
  roundTrips raw.
Proof.
  intros He Hlead Hhs Hh Hbs Hb Ht Hck m Hm.
  (* the parsed message *)
  destruct (parseMessage_body_payload_regular raw tail f1 f2 f3 ck hs bs ts
              He Hlead Hhs Hh Hbs Hb Ht Hck) as (m' & err & Hp & Hfields & Hbody & _).
  assert (m' = m) as -> by congruence. clear Hp err.
  pose proof (parseMessage_mapsAgree _ _ _ Hm) as Hagree.
  destruct (parseMessage_orders _ _ _ Hm) as [HoH HoT].
  destruct (rebuild_entries _ _ _ Hm) as [HeH HeT].
  pose proof (parseMessage_entries _ _ _ Hm InBody) as HeB. simpl in HeB.
  injection Hlead as H1 H2 H3.
  assert (Forall readsBack bs) as Hbr.
  { destruct (parseMessage_fields _ _ _ Hm) as (n & rest & Hn).
    apply extractFields_readsBack in Hn. rewrite Hfields in Hn.
    rewrite !Forall_app in Hn. tauto. }
  (* the written header and trailer *)
  set (H' := Header (rebuild m)) in *. set (T' := Trailer (rebuild m)) in *.
  assert (keyedByTag (fieldLookup H')) as HkH
    by (intros t f Hf; apply HeH in Hf; tauto).
  assert (keyedByTag (fieldLookup T')) as HkT
    by (intros t f Hf; apply HeT in Hf; tauto).
  assert (exists h8, fieldLookup H' !! tag.BeginString = Some h8) as [h8 Hh8].
  { subst H'. rewrite rebuild_Header, fieldLookup_store.
    rewrite lookup_insert_ne by done.
    destruct (Hagree tag.BeginString) as (-> & _ & _). unfold routedTo.
    rewrite decide_True by done.
    apply (lastWithTag_is_Some _ _ f1); [|done]. rewrite Hfields. simpl.
    apply list_elem_of_here. }
  assert (exists h35, fieldLookup H' !! tag.MsgType = Some h35) as [h35 Hh35].
  { subst H'. rewrite rebuild_Header, fieldLookup_store.
    rewrite lookup_insert_ne by done.
    destruct (Hagree tag.MsgType) as (-> & _ & _). unfold routedTo.
    rewrite decide_True by done.
    apply (lastWithTag_is_Some _ _ f3); [|done]. rewrite Hfields. simpl.
    do 2 apply list_elem_of_further. apply list_elem_of_here. }
  assert (fieldOrder H' = headerFieldOrder) as HoH' by exact HoH.
  assert (fieldOrder T' = trailerFieldOrder) as HoT' by exact HoT.
  destruct (rebuild_writes_body_length m) as [Hh9 Hd9]. fold H' in Hh9, Hd9.
  destruct (rebuild_checksum_written m) as (Ht10 & _). fold T' in Ht10.
  set (h9 := newFieldBytes tag.BodyLength
               (itoa (fieldMap_length (Header m) + len (bodyBytes m)
                      + fieldMap_length (Trailer m)))) in *.
  set (t10 := newFieldBytes tag.CheckSum (sprintf03d (rebuildCheckSum m))) in *.
  destruct (writtenFields_header H' _ _ _ HoH' Hh8 Hh9 Hh35) as (oh & HwH).
  destruct (writtenFields_trailer T' _ HoT' HkT Ht10) as (ot & HwT & Hot).
  assert (Forall (fun f => partitionOf (Tag f) = InHeader) (writtenFields H')) as HpH.
  { apply writtenFields_Forall. intros t f Hf. apply HeH in Hf as (? & -> & _). done. }
  assert (Forall (fun f => partitionOf (Tag f) = InTrailer) (writtenFields T')) as HpT.
  { apply writtenFields_Forall. intros t f Hf. apply HeT in Hf as (? & -> & _). done. }
  assert (Forall readsBack (writtenFields H')) as HrH.
  { apply writtenFields_Forall. intros t f Hf. apply HeH in Hf. tauto. }
  assert (Forall readsBack (writtenFields T')) as HrT.
  { apply writtenFields_Forall. intros t f Hf. apply HeT in Hf. tauto. }
  (* the rebuilt bytes, field by field *)
  assert (Bytes (rebuild m)
          = concat (List.map Data ([h8; h9; h35] ++ (oh ++ bs ++ ot) ++ [t10])) ++ [])
    as HB.
  { rewrite rebuild_Bytes, !fieldMap_write_writtenFields. fold H' T'.
    rewrite Hbody, HwH, HwT, app_nil_r.
    rewrite !List.map_app, !concat_app, <- !app_assoc. done. }
  pose proof (extractFields_concat ([h8; h9; h35] ++ (oh ++ bs ++ ot) ++ [t10]) [])
    as Hex.
  rewrite <- HB in Hex.
  rewrite length_app in Hex. rewrite (length_app (oh ++ bs ++ ot)) in Hex.
  simpl length in Hex.
  replace (3 + (length (oh ++ bs ++ ot) + 1))%nat
    with (3 + S (length (oh ++ bs ++ ot)))%nat in Hex by lia.
  (* parsing the rebuilt bytes *)
  destruct (parseMessage_of_fields (Bytes (rebuild m)) [] h8 h9 h35 t10 (oh ++ bs ++ ot))
    as (m2 & Hp2 & Hf2 & Hagree2 & _).
  { apply Hex. rewrite HwH in HrH. rewrite HwT in HrT.
    rewrite !Forall_app in *. tauto. }
  { simpl. rewrite (HkH _ _ Hh8), (HkH _ _ Hh35). done. }
  { rewrite HwH in HpH. apply Forall_app in HpH as [_ HpH].
    rewrite !Forall_app. repeat split.
    - eapply Forall_impl; [apply HpH|]. intros f Hf Heq. simpl in Hf.
      by rewrite Heq in Hf.
    - eapply Forall_impl; [apply Hb|]. intros f Hf Heq.
      unfold inBody in Hf. by rewrite Heq in Hf.
    - done. }
  { done. }
  assert (fields m2 = ([h8; h9; h35] ++ oh) ++ bs ++ (ot ++ [t10])) as Hf2'.
  { rewrite Hf2. by rewrite <- !app_assoc. }
  (* the maps of the second parse *)
  assert (forall p t, routedTo p t (fields m2) =
            if decide (partitionOf t = p) then
              match p with
              | InHeader => fieldLookup H' !! t
              | InBody => lastWithTag t bs
              | InTrailer => fieldLookup T' !! t
              end
            else None) as Hrouted.
  { intros p t. rewrite Hf2', <- HwH, <- HwT.
    rewrite (routedTo_sections p t _ _ _ HpH Hb HpT).
    destruct (decide _); [|done].
    destruct p; [by apply lastWithTag_writtenFields| by apply lastWithTag_writtenFields|done]. }
  assert (fieldLookup (Header m2) = fieldLookup H') as HH2.
  { apply map_eq. intros t. destruct (Hagree2 t) as (-> & _ & _). rewrite Hrouted.
    destruct (decide _) as [|Hn]; [done|].
    destruct (fieldLookup H' !! t) as [f|] eqn:Ef; [|done].
    by apply HeH in Ef as (? & _). }
  assert (fieldLookup (Trailer m2) = fieldLookup T') as HT2.
  { apply map_eq. intros t. destruct (Hagree2 t) as (_ & -> & _). rewrite Hrouted.
    destruct (decide _) as [|Hn]; [done|].
    destruct (fieldLookup T' !! t) as [f|] eqn:Ef; [|done].
    by apply HeT in Ef as (? & _). }
  assert (fieldLookup (Body m2) = fieldLookup (Body m)) as HB2.
  { apply map_eq. intros t. destruct (Hagree2 t) as (_ & _ & ->). rewrite Hrouted.
    destruct (Hagree t) as (_ & _ & ->). rewrite Hfields.
    unfold routedTo. destruct (decide _) as [Hp|]; [|done].
    rewrite !lastWithTag_app.
    assert (forall l : list fieldBytes,
              Forall (fun f => partitionOf (Tag f) <> InBody) l -> lastWithTag t l = None)
      as Hnone.
    { intros l Hl. apply lastWithTag_None. eapply Forall_impl; [exact Hl|].
      intros f Hf Heq. apply Hf. by rewrite Heq. }
    rewrite (Hnone [ck]) by (constructor; [by rewrite Hck|constructor]).
    rewrite (Hnone ts) by (eapply Forall_impl; [exact Ht|]; by intros f [? ?]).
    rewrite (Hnone hs) by (eapply Forall_impl; [exact Hh|]; by intros f [? ?]).
    rewrite (Hnone [f1; f2; f3]) by (repeat constructor; by rewrite ?H1, ?H2, ?H3).
    by destruct (lastWithTag t bs). }
  (* the length check of the second parse *)
  assert (declaredLength m2 = fieldsLength (fields m2)) as Hlen.
  { unfold declaredLength, fieldMap_GetField_Int. rewrite HH2.
    unfold fieldMap_GetField_Int in Hd9. rewrite Hd9. simpl.
    rewrite Hf2', <- HwH, <- HwT, !fieldsLength_app.
    rewrite (fieldsLength_writtenFields H' HkH), (fieldsLength_writtenFields T' HkT).
    rewrite (fieldsLength_body bs Hb), <- Hbody.
    destruct (rebuild_length_accounting m) as [-> _]. subst H' T'.
    rewrite rebuild_bodyBytes. lia. }
  exists m2. split; [|done].
  rewrite Hp2. unfold checkLength. by rewrite decide_False by (by intros ?).
Qed.

(** ** The body payload of a parsed message *)

(** C7, on a heartbeat.  The buffer is a well-formed message without body
    fields; [parseMessage] accepts it without error.  The cursor follows the
    header fields and stands before the checksum field when the loop ends;
    no body field has moved [trailerBytes], so nothing is trimmed: the
    stored body payload is the checksum field, although the message has no
    body field.  On a message whose first body field follows the message
    type directly the cursor is never set, and the stored payload is empty
    although the message has a body field. *)
Theorem parseMessage_body_payload_defect :
  (parseMessage heartbeat = Some (Some (parsed heartbeat), None) /\
   bodyBytes (parsed heartbeat) = wire "10=124|" /\
   bodyFieldBytes (fields (parsed heartbeat)) = [] /\
   fieldLookup (Body (parsed heartbeat)) = ∅) /\
  (parseMessage bodyFirst = Some (Some (parsed bodyFirst), None) /\
   bodyBytes (parsed bodyFirst) = [] /\
   bodyFieldBytes (fields (parsed bodyFirst)) = wire "55=X|").
Proof.
  vm_compute. repeat split; reflexivity.
Qed.

(** On the order the payload is the body field. *)
Example order_body_payload :
  parseMessage order = Some (Some (parsed order), None) /\
  bodyBytes (parsed order) = wire "55=X|" /\
  bodyFieldBytes (fields (parsed order)) = wire "55=X|".
Proof. vm_compute. repeat split; reflexivity. Qed.

(** ** The round trip *)

(** C1, on the heartbeat.  The heartbeat parses without error.  [rebuild]
    writes the stored payload, which is the old checksum field, between the
    header and the new checksum field, and counts it in the body length.
    Parsing the rebuilt bytes stops at the old checksum field: it returns the
    length-mismatch error, and the trailer holds the old checksum instead of
    the recomputed one.  The round trip fails. *)
Theorem round_trip_heartbeat_fails :
  parseMessage heartbeat = Some (Some (parsed heartbeat), None) /\
  Bytes (rebuild (parsed heartbeat))
    = wire "8=FIX.4.2|9=27|35=0|34=2|49=A|56=B|10=124|10=178|" /\
  (exists m2,
     parseMessage (Bytes (rebuild (parsed heartbeat)))
       = Some (Some m2, Some (errIncorrectLength 27 20)) /\
     checkSumValue m2 = Some (str "124") /\
     checkSumValue (rebuild (parsed heartbeat)) = Some (str "178")) /\
  ~ roundTrips heartbeat.
Proof.
  assert (parseMessage heartbeat = Some (Some (parsed heartbeat), None)) as Hp
    by (vm_compute; reflexivity).
  split; [exact Hp|].
  split; [vm_compute; reflexivity|].
  split.
  - eexists. split; [vm_compute; reflexivity|]. split; vm_compute; reflexivity.
  - intros Hrt. destruct (Hrt _ Hp) as (m2 & H2 & _).
    vm_compute in H2. discriminate H2.
Qed.

(** On a message whose body starts right after the message type the rebuilt
    bytes have lost the body. *)
Example round_trip_bodyFirst_fails :
  parseMessage bodyFirst = Some (Some (parsed bodyFirst), None) /\
  Bytes (rebuild (parsed bodyFirst)) = wire "8=FIX.4.2|9=5|35=D|10=225|" /\
  ~ roundTrips bodyFirst.
Proof.
  assert (parseMessage bodyFirst = Some (Some (parsed bodyFirst), None)) as Hp
    by (vm_compute; reflexivity).
  split; [exact Hp|]. split; [vm_compute; reflexivity|].
  intros Hrt. destruct (Hrt _ Hp) as (m2 & H2 & _ & Hb & _).
  pose (body55 := fun r : option (option Message * option error) =>
                    match r with
                    | Some (Some m, _) => fieldLookup (Body m) !! 55
                    | _ => None
                    end).
  assert (body55 (parseMessage (Bytes (rebuild (parsed bodyFirst)))) = None) as Hnone
    by (vm_compute; reflexivity).
  rewrite H2 in Hnone. simpl in Hnone. rewrite Hb in Hnone.
  vm_compute in Hnone. discriminate Hnone.
Qed.

(** The order is in partition order: it goes round, and its payload is its
    body field. *)
Example round_trip_order : roundTrips order.
Proof.
  apply (round_trip_regular order []
           {| Tag := 8; Data := wire "8=FIX.4.2|"; Value := str "FIX.4.2" |}
           {| Tag := 9; Data := wire "9=15|"; Value := str "15" |}
           {| Tag := 35; Data := wire "35=D|"; Value := str "D" |}
           {| Tag := 10; Data := wire "10=210|"; Value := str "210" |}
           [{| Tag := 49; Data := wire "49=A|"; Value := str "A" |}]
           [{| Tag := 55; Data := wire "55=X|"; Value := str "X" |}]
           []);
    try (vm_compute; reflexivity); try done.
  - repeat constructor; done.
  - repeat constructor.
Qed.

(** ** The shape of a parsed message *)

(** A returned message was read from the three leading fields, fields
    without checksum tag and a checksum field. *)
Lemma parseMessage_shape (raw : list byte) (m : Message) (err : option error) :
  parseMessage raw = Some (Some m, err) ->
  exists f1 f2 f3 fs ck tail,
    extractFields (3 + S (length fs)) raw = inl ([f1; f2; f3] ++ fs ++ [ck], tail) /\
    fields m = [f1; f2; f3] ++ fs ++ [ck] /\
    List.map Tag [f1; f2; f3] = leadingTags /\
    Forall (fun f => Tag f <> tag.CheckSum) fs /\
    Tag ck = tag.CheckSum.
Proof.
  intros Hp.
  apply parseMessage_Some in Hp
    as (f1 & r1 & f2 & r2 & f3 & r3 & msg0 & tb & E1 & H1 & E2 & H2 & E3 & H3 & Hl & -> & _).
  apply parseLoop_inl in Hl as (n & fs & ck & tail & He & Hall & Hck & Hfs).
  pose proof (extractFields_length _ _ _ _ He) as Hn.
  rewrite length_app in Hn. simpl in Hn.
  assert (n = length fs) as -> by lia.
  exists f1, f2, f3, fs, ck, tail.
  assert (extractFields 3 raw = inl ([f1; f2; f3], r3)) as H3f.
  { simpl. by rewrite E1, E2, E3. }
  split.
  { rewrite (extractFields_app _ (S (length fs)) _ _ _ H3f), He. reflexivity. }
  split.
  { unfold trimBody. destruct (_ >? _); simpl; exact Hfs. }
  split; [simpl; by rewrite H1, H2, H3|]. by split.
Qed.

(** Extraction looks at the bytes of the fields only: bytes added behind
    the buffer stay behind the rest. *)
Lemma extractFields_extra (n : nat) (raw extra : list byte) fs rest :
  extractFields n raw = inl (fs, rest) ->
  extractFields n (raw ++ extra) = inl (fs, rest ++ extra).
Proof.
  intros He.
  pose proof (extractFields_bytes _ _ _ _ He) as Hb.
  pose proof (extractFields_readsBack _ _ _ _ He) as Hr.
  pose proof (extractFields_length _ _ _ _ He) as Hn.
  rewrite Hb, <- app_assoc, <- Hn. by apply extractFields_concat.
Qed.

(** Once a body field has been seen the loop leaves the body slice alone. *)
Lemma parseLoop_frozen (fuel : nat) : forall msg tb raw msg' tb',
  parseLoop fuel msg tb true raw = Some (inl (msg', tb')) ->
  bodyBytes msg' = bodyBytes msg.
Proof.
  induction fuel as [|fuel IH]; intros msg tb raw msg' tb'; [done|].
  rewrite parseLoop_unfold.
  destruct (extractField raw) as [[f rest]|[? ?]]; [|done].
  assert (exists msg1 tb1, routeField (appendField msg f) tb true f rest = (msg1, tb1, true)
                           /\ bodyBytes msg1 = bodyBytes msg) as (msg1 & tb1 & -> & Hb).
  { unfold routeField. repeat case_match; by eexists _, _. }
  destruct (Tag f =? tag.CheckSum).
  - intros [= <- <-]. done.
  - intros H. apply IH in H. by rewrite H.
Qed.

Lemma fieldMap_store_store (m : fieldMap) (t : Z) (f g : fieldBytes) :
  fieldMap_store (fieldMap_store m t f) t g = fieldMap_store m t g.
Proof. unfold fieldMap_store. simpl. by rewrite insert_insert_eq. Qed.

(** The byte sum of a map does not depend on its checksum entry. *)
Lemma fieldMap_total_store (m : fieldMap) (f : fieldBytes) :
  fieldMap_total (fieldMap_store m tag.CheckSum f) = fieldMap_total m.
Proof.
  unfold fieldMap_total. rewrite fieldLookup_store.
  rewrite Zsum_map_to_list_insert.
  rewrite (Zsum_map_to_list_delete _ (fieldLookup m) tag.CheckSum).
  destruct (fieldLookup m !! tag.CheckSum); simpl; lia.
Qed.

(** ** Field extraction, seen from a caller *)

(** X1.  A successful [extractField] cuts the buffer behind its first
    delimiter: the bytes of the field and the remaining bytes make up the
    buffer, the field's bytes end with the delimiter and hold no other, and
    the remaining bytes are fewer than the buffer's. *)
Theorem extractField_cuts_at_first_delimiter
    (buffer : list byte) (f : fieldBytes) (rest : list byte) :
  extractField buffer = inl (f, rest) ->
  buffer = Data f ++ rest /\
  (exists chunk, Data f = chunk ++ [SOH] /\ SOH ∉ chunk) /\
  (length rest < length buffer)%nat.
Proof.
  intros H. destruct (extractField_inl _ _ _ H) as [Hb Hl].
  split; [exact Hb|]. split; [|exact Hl].
  unfold extractField in H.
  destruct (IndexByte buffer SOH) as [i|] eqn:Hi; [|done].
  destruct (parseField (take (S i) buffer)) as [g|] eqn:Hg; [|done].
  injection H as <- <-.
  assert (Data g = take (S i) buffer) as ->.
  { unfold parseField in Hg. repeat case_match; simplify_eq; done. }
  apply IndexByte_Some in Hi as [Hi Hn].
  exists (take i buffer). split; [by apply take_S_r | exact Hn].
Qed.

(** On the first field of a message. *)
Lemma extractField_cuts_at_first_delimiter_witness :
  wire "8=FIX.4.2|9=5|" = wire "8=FIX.4.2|" ++ wire "9=5|" /\
  (exists chunk, wire "8=FIX.4.2|" = chunk ++ [SOH] /\ SOH ∉ chunk) /\
  (length (wire "9=5|") < length (wire "8=FIX.4.2|9=5|"))%nat.
Proof.
  apply (extractField_cuts_at_first_delimiter (wire "8=FIX.4.2|9=5|")
           {| Tag := 8; Data := wire "8=FIX.4.2|"; Value := str "FIX.4.2" |}
           (wire "9=5|")).
  reflexivity.
Defined.

(** X2.  [extractField] reads the bytes of the field only: the field is
    extracted again from its own bytes followed by any bytes, and bytes added
    behind the buffer are handed back behind the remaining bytes. *)
Theorem extractField_reads_the_field_only
    (buffer : list byte) (f : fieldBytes) (rest extra : list byte) :
  extractField buffer = inl (f, rest) ->
  extractField (Data f ++ extra) = inl (f, extra) /\
  extractField (buffer ++ extra) = inl (f, rest ++ extra).
Proof.
  intros H. pose proof (extractField_readsBack _ _ _ H) as Hr.
  split; [apply Hr|].
  apply extractField_inl in H as [-> _]. rewrite <- app_assoc. apply Hr.
Qed.

Lemma extractField_reads_the_field_only_witness :
  extractField (wire "8=FIX.4.2|" ++ str "junk")
    = inl ({| Tag := 8; Data := wire "8=FIX.4.2|"; Value := str "FIX.4.2" |}, str "junk") /\
  extractField (wire "8=FIX.4.2|9=5|" ++ str "junk")
    = inl ({| Tag := 8; Data := wire "8=FIX.4.2|"; Value := str "FIX.4.2" |},
           wire "9=5|" ++ str "junk").
Proof.
  apply (extractField_reads_the_field_only (wire "8=FIX.4.2|9=5|")
           {| Tag := 8; Data := wire "8=FIX.4.2|"; Value := str "FIX.4.2" |}
           (wire "9=5|") (str "junk")).
  reflexivity.
Defined.

(** ** What a returned message holds *)

(** X3.  A message [parseMessage] returns keeps the buffer it was parsed
    from: its [Bytes], and so its [String], are the input, whatever the
    result of the length check; its receive time is left at the zero value. *)
Theorem parseMessage_keeps_the_input
    (raw : list byte) (m : Message) (err : option error) :
  parseMessage raw = Some (Some m, err) ->
  Message_String m = raw /\ Bytes m = raw /\ ReceiveTime m = 0.
Proof.
  intros Hp.
  apply parseMessage_Some in Hp
    as (f1 & r1 & f2 & r2 & f3 & r3 & msg0 & tb & _ & _ & _ & _ & _ & _ & Hl & -> & _).
  assert (Bytes msg0 = raw /\ ReceiveTime msg0 = 0) as H0.
  { eapply (parseLoop_invariant (fun m0 => Bytes m0 = raw /\ ReceiveTime m0 = 0));
      [| | |exact Hl]; [|done..].
    intros m0 f tb0 fb rest H0. unfold routeField. by repeat case_match. }
  unfold Message_String, trimBody. destruct (_ >? _); simpl; tauto.
Qed.

Lemma parseMessage_keeps_the_input_witness :
  Message_String (parsed heartbeat) = heartbeat /\
  Bytes (parsed heartbeat) = heartbeat /\ ReceiveTime (parsed heartbeat) = 0.
Proof.
  apply (parseMessage_keeps_the_input heartbeat (parsed heartbeat) None).
  vm_compute. reflexivity.
Defined.

(** X4.  The framing of a message [parseMessage] returns: the input starts
    with the bytes of the message's fields; the first three fields carry the
    begin-string, body-length and message-type tags; the last field is the
    only one behind them with the checksum tag; the header holds entries for
    the three leading tags, and the trailer's checksum entry is the last
    field. *)
Theorem parseMessage_framing
    (raw : list byte) (m : Message) (err : option error) :
  parseMessage raw = Some (Some m, err) ->
  exists f1 f2 f3 fs ck tail,
    raw = concat (List.map Data (fields m)) ++ tail /\
    fields m = [f1; f2; f3] ++ fs ++ [ck] /\
    Tag f1 = tag.BeginString /\ Tag f2 = tag.BodyLength /\ Tag f3 = tag.MsgType /\
    Forall (fun f => Tag f <> tag.CheckSum) fs /\ Tag ck = tag.CheckSum /\
    is_Some (fieldLookup (Header m) !! tag.BeginString) /\
    is_Some (fieldLookup (Header m) !! tag.BodyLength) /\
    is_Some (fieldLookup (Header m) !! tag.MsgType) /\
    fieldLookup (Trailer m) !! tag.CheckSum = Some ck.
Proof.
  intros Hp.
  destruct (parseMessage_shape _ _ _ Hp)
    as (f1 & f2 & f3 & fs & ck & tail & He & Hf & Hlead & Hall & Hck).
  pose proof (parseMessage_mapsAgree _ _ _ Hp) as Hagree.
  injection Hlead as H1 H2 H3.
  exists f1, f2, f3, fs, ck, tail.
  split; [rewrite Hf; by apply extractFields_bytes in He|].
  split; [exact Hf|]. do 5 (split; [done|]).
  assert (forall f t, f ∈ fields m -> Tag f = t -> partitionOf t = InHeader ->
                      is_Some (fieldLookup (Header m) !! t)) as Hhdr.
  { intros f t Hin Ht Hpt. destruct (Hagree t) as (-> & _ & _).
    unfold routedTo. rewrite decide_True by done. by eapply lastWithTag_is_Some. }
  split; [apply (Hhdr f1); [rewrite Hf; simpl; apply list_elem_of_here|done..]|].
  split; [apply (Hhdr f2); [rewrite Hf; simpl; apply list_elem_of_further,
                              list_elem_of_here|done..]|].
  split; [apply (Hhdr f3); [rewrite Hf; simpl; do 2 apply list_elem_of_further;
                              apply list_elem_of_here|done..]|].
  destruct (Hagree tag.CheckSum) as (_ & -> & _).
  unfold routedTo. rewrite decide_True by done.
  rewrite Hf. change ([f1; f2; f3] ++ fs ++ [ck]) with (f1 :: f2 :: f3 :: fs ++ [ck]).
  unfold lastWithTag.
  replace (f1 :: f2 :: f3 :: fs ++ [ck]) with (([f1; f2; f3] ++ fs) ++ [ck])
    by (by rewrite <- app_assoc).
  rewrite filter_app, filter_cons, filter_nil. rewrite decide_True by done.
  apply last_snoc.
Qed.

Lemma parseMessage_framing_witness :
  exists f1 f2 f3 fs ck tail,
    heartbeat = concat (List.map Data (fields (parsed heartbeat))) ++ tail /\
    fields (parsed heartbeat) = [f1; f2; f3] ++ fs ++ [ck] /\
    Tag f1 = tag.BeginString /\ Tag f2 = tag.BodyLength /\ Tag f3 = tag.MsgType /\
    Forall (fun f => Tag f <> tag.CheckSum) fs /\ Tag ck = tag.CheckSum /\
    is_Some (fieldLookup (Header (parsed heartbeat)) !! tag.BeginString) /\
    is_Some (fieldLookup (Header (parsed heartbeat)) !! tag.BodyLength) /\
    is_Some (fieldLookup (Header (parsed heartbeat)) !! tag.MsgType) /\
    fieldLookup (Trailer (parsed heartbeat)) !! tag.CheckSum = Some ck.
Proof.
  apply (parseMessage_framing heartbeat (parsed heartbeat) None).
  vm_compute. reflexivity.
Defined.

(** X5.  The three maps of a message [parseMessage] returns partition its
    fields: an entry of a partition's map sits under its own tag, the tag
    belongs to this partition (so no tag is in two maps) and the entry is one
    of the fields read; and every field read has its tag in the map of the
    tag's partition. *)
Theorem parseMessage_partitions
    (raw : list byte) (m : Message) (err : option error) :
  parseMessage raw = Some (Some m, err) ->
  (forall (p : partition) (t : Z) (f : fieldBytes),
     partitionMap m p !! t = Some f ->
     partitionOf t = p /\ Tag f = t /\ f ∈ fields m) /\
  (forall f : fieldBytes,
     f ∈ fields m ->
     is_Some (partitionMap m (partitionOf (Tag f)) !! Tag f)).
Proof.
  intros Hp. pose proof (parseMessage_mapsAgree _ _ _ Hp) as Hagree. split.
  - intros p t f Hf. destruct (Hagree t) as (Hh & Ht & Hb).
    destruct p; simpl in Hf;
      [rewrite Hh in Hf | rewrite Ht in Hf | rewrite Hb in Hf];
      by apply routedTo_Some in Hf.
  - intros f Hin. destruct (Hagree (Tag f)) as (Hh & Ht & Hb).
    assert (is_Some (lastWithTag (Tag f) (fields m))) as Hl
      by (by eapply lastWithTag_is_Some).
    destruct (partitionOf (Tag f)) eqn:Ep; simpl;
      [rewrite Hh | rewrite Ht | rewrite Hb];
      unfold routedTo; by rewrite decide_True.
Qed.

(** On a message that repeats a header tag and a body tag. *)
Lemma parseMessage_partitions_witness :
  (forall (p : partition) (t : Z) (f : fieldBytes),
     partitionMap (parsed (wire "8=FIX.4.2|9=25|35=D|49=A|49=B|55=X|55=Y|10=000|")) p !! t
       = Some f ->
     partitionOf t = p /\ Tag f = t /\
     f ∈ fields (parsed (wire "8=FIX.4.2|9=25|35=D|49=A|49=B|55=X|55=Y|10=000|"))) /\
  (forall f : fieldBytes,
     f ∈ fields (parsed (wire "8=FIX.4.2|9=25|35=D|49=A|49=B|55=X|55=Y|10=000|")) ->
     is_Some (partitionMap (parsed (wire "8=FIX.4.2|9=25|35=D|49=A|49=B|55=X|55=Y|10=000|"))
                (partitionOf (Tag f)) !! Tag f)).
Proof.
  apply (parseMessage_partitions
           (wire "8=FIX.4.2|9=25|35=D|49=A|49=B|55=X|55=Y|10=000|") _ None).
  vm_compute. reflexivity.
Defined.

(** X6.  [parseMessage] stops at the checksum field: bytes that follow it
    in the buffer change neither the fields read, nor the three maps, nor
    the error. *)
Theorem parseMessage_ignores_bytes_behind_checksum
    (raw extra : list byte) (m : Message) (err : option error) :
  parseMessage raw = Some (Some m, err) ->
  exists m' : Message,
    parseMessage (raw ++ extra) = Some (Some m', err) /\
    fields m' = fields m /\
    fieldLookup (Header m') = fieldLookup (Header m) /\
    fieldLookup (Body m') = fieldLookup (Body m) /\
    fieldLookup (Trailer m') = fieldLookup (Trailer m).
Proof.
  intros Hp.
  destruct (parseMessage_shape _ _ _ Hp)
    as (f1 & f2 & f3 & fs & ck & tail & He & Hf & Hlead & Hall & Hck).
  pose proof (parseMessage_mapsAgree _ _ _ Hp) as Hagree.
  apply (extractFields_extra _ _ extra) in He.
  destruct (parseMessage_of_fields _ _ _ _ _ _ _ He Hlead Hall Hck)
    as (m' & Hp' & Hf' & Hagree' & _).
  assert (fields m' = fields m) as Hfs by (by rewrite Hf, Hf').
  assert (fieldLookup (Header m') = fieldLookup (Header m)) as HH.
  { apply map_eq. intros t. destruct (Hagree t) as (-> & _ & _).
    destruct (Hagree' t) as (-> & _ & _). by rewrite Hfs. }
  assert (fieldLookup (Body m') = fieldLookup (Body m)) as HB.
  { apply map_eq. intros t. destruct (Hagree t) as (_ & _ & ->).
    destruct (Hagree' t) as (_ & _ & ->). by rewrite Hfs. }
  assert (fieldLookup (Trailer m') = fieldLookup (Trailer m)) as HT.
  { apply map_eq. intros t. destruct (Hagree t) as (_ & -> & _).
    destruct (Hagree' t) as (_ & -> & _). by rewrite Hfs. }
  exists m'. split; [|done].
  rewrite Hp'. f_equal.
  apply parseMessage_Some in Hp as (_ & _ & _ & _ & _ & _ & _ & _ & _ & _ & _ & _ & _ & _
                                    & _ & _ & Hc).
  assert (declaredLength m' = declaredLength m) as Hd
    by (unfold declaredLength, fieldMap_GetField_Int; by rewrite HH).
  unfold checkLength in *. rewrite Hd, Hfs.
  destruct (decide _); congruence.
Qed.

Lemma parseMessage_ignores_bytes_behind_checksum_witness :
  exists m' : Message,
    parseMessage (order ++ str "8=FIX.4.2") = Some (Some m', None) /\
    fields m' = fields (parsed order) /\
    fieldLookup (Header m') = fieldLookup (Header (parsed order)) /\
    fieldLookup (Body m') = fieldLookup (Body (parsed order)) /\
    fieldLookup (Trailer m') = fieldLookup (Trailer (parsed order)).
Proof.
  apply (parseMessage_ignores_bytes_behind_checksum order (str "8=FIX.4.2")
           (parsed order) None).
  vm_compute. reflexivity.
Defined.





(** ** The body slice, case by case *)

Lemma parseLoop_unique (fuel1 fuel2 : nat) msg tb fb raw r1 r2 :
  parseLoop fuel1 msg tb fb raw = Some r1 ->
  parseLoop fuel2 msg tb fb raw = Some r2 -> r1 = r2.
Proof.
  intros H1 H2.
  apply (parseLoop_fuel _ (fuel1 + fuel2)) in H1; [|lia].
  apply (parseLoop_fuel _ (fuel1 + fuel2)) in H2; [|lia]. congruence.
Qed.

(** The run of the loop behind a returned message. *)
Lemma parseMessage_run (raw : list byte) (m : Message) (err : option error) :
  parseMessage raw = Some (Some m, err) ->
  exists f1 f2 f3 r3 fs ck tail msg0 tb,
    extractFields 3 raw = inl ([f1; f2; f3], r3) /\
    extractFields (S (length fs)) r3 = inl (fs ++ [ck], tail) /\
    Forall (fun f => Tag f <> tag.CheckSum) fs /\ Tag ck = tag.CheckSum /\
    fields m = [f1; f2; f3] ++ fs ++ [ck] /\
    m = trimBody msg0 tb /\
    (forall fuel msg' tb',
       parseLoop fuel (leadMessage raw f1 f2 f3) [] false r3 = Some (inl (msg', tb')) ->
       msg' = msg0 /\ tb' = tb).
Proof.
  intros Hp.
  apply parseMessage_Some in Hp
    as (f1 & r1 & f2 & r2 & f3 & r3 & msg0 & tb & E1 & H1 & E2 & H2 & E3 & H3 & Hl & -> & _).
  pose proof Hl as Hl'.
  apply parseLoop_inl in Hl' as (n & fs & ck & tail & He & Hall & Hck & Hfs).
  pose proof (extractFields_length _ _ _ _ He) as Hn.
  rewrite length_app in Hn. simpl in Hn.
  assert (n = length fs) as -> by lia.
  exists f1, f2, f3, r3, fs, ck, tail, msg0, tb.
  split; [simpl; by rewrite E1, E2, E3|].
  do 3 (split; [done|]).
  split; [unfold trimBody; destruct (_ >? _); simpl; exact Hfs|].
  split; [done|].
  intros fuel msg' tb' Hl2.
  pose proof (parseLoop_unique _ _ _ _ _ _ _ _ Hl Hl2) as Heq.
  by injection Heq as <- <-.
Qed.

Lemma routeField_found msg tb f rest :
  exists msg1 tb1,
    routeField (appendField msg f) tb true f rest = (msg1, tb1, true) /\
    bodyBytes msg1 = bodyBytes msg /\ fields msg1 = fields msg ++ [f].
Proof. unfold routeField. repeat case_match; by eexists _, _. Qed.

(** Once a body field has been seen, fields that are not the checksum leave
    the body slice alone, whatever their partition. *)
Lemma parseLoop_through (n : nat) : forall fuel msg tb raw fs rest,
  extractFields n raw = inl (fs, rest) ->
  Forall (fun f => Tag f <> tag.CheckSum) fs ->
  exists msg' tb',
    parseLoop (n + fuel) msg tb true raw = parseLoop fuel msg' tb' true rest /\
    bodyBytes msg' = bodyBytes msg /\ fields msg' = fields msg ++ fs.
Proof.
  induction n as [|n IH]; intros fuel msg tb raw fs rest He Hall; simpl in He.
  - injection He as <- <-. exists msg, tb. by rewrite app_nil_r.
  - destruct (extractField raw) as [[f r]|[? ?]] eqn:Ef; [|done].
    destruct (extractFields n r) as [[gs r']|?] eqn:E; [|done].
    injection He as <- <-. apply Forall_cons in Hall as [Hf Hall].
    change (S n + fuel)%nat with (S (n + fuel)). rewrite parseLoop_unfold, Ef.
    destruct (routeField_found msg tb f r) as (msg1 & tb1 & -> & Hb & Hfs).
    apply Z.eqb_neq in Hf. rewrite Hf.
    destruct (IH fuel msg1 tb1 r gs r' E Hall) as (msg' & tb' & -> & Hb' & Hfs').
    exists msg', tb'. split; [done|]. split; [by rewrite Hb'|].
    rewrite Hfs', Hfs. by rewrite <- app_assoc.
Qed.

(** From a body field on: when the fields up to the last body field are
    followed by fields passed over and the checksum, [trailerBytes] ends as
    the bytes behind the last body field. *)
Lemma parseLoop_last_body (fuel : nat) msg raw fs ts ck tail :
  extractFields (length fs + S (length ts)) raw = inl (fs ++ ts ++ [ck], tail) ->
  Forall (fun f => Tag f <> tag.CheckSum) fs ->
  (fs = [] \/ exists pre bl, fs = pre ++ [bl] /\ inBody bl) ->
  Forall passedOver ts -> Tag ck = tag.CheckSum ->
  exists msg',
    parseLoop (length fs + S (length ts) + fuel) msg raw true raw
      = Some (inl (msg', concat (List.map Data ts) ++ Data ck ++ tail)) /\
    bodyBytes msg' = bodyBytes msg /\
    fields msg' = fields msg ++ fs ++ ts ++ [ck].
Proof.
  intros He Hall Hfs Hts Hck.
  assert (forall r, extractFields (S (length ts)) r = inl (ts ++ [ck], tail) ->
                    r = concat (List.map Data ts) ++ Data ck ++ tail) as Hbytes.
  { intros r Hr. apply extractFields_bytes in Hr. rewrite Hr.
    rewrite List.map_app, concat_app. simpl. by rewrite <- app_assoc, app_nil_r. }
  destruct Hfs as [->|(pre & bl & -> & Hbl)].
  - change (length (@nil fieldBytes) + S (length ts))%nat with (S (length ts)) in *.
    rewrite app_nil_l in He.
    destruct (parseLoop_trailer (length ts) fuel msg raw raw ts ck tail He eq_refl Hts Hck)
      as (msg' & Hl & Hb & Hf).
    exists msg'. split; [|done].
    rewrite Hl. by rewrite <- (Hbytes raw He).
  - apply extractFields_split in He as (r1 & E1 & Et); [|done].
    rewrite length_app in E1. simpl in E1.
    apply extractFields_split in E1 as (r0 & Epre & Ebl); [|done].
    apply Forall_app in Hall as [Hpre _].
    destruct (parseLoop_through _ (1 + (S (length ts) + fuel)) msg raw raw pre r0 Epre Hpre)
      as (msg1 & tb1 & Hl1 & Hb1 & Hf1).
    destruct (parseLoop_body 1 (S (length ts) + fuel) msg1 tb1 true r0 [bl] r1 Ebl)
      as (msg2 & Hl2 & Hb2 & Hf2); [by constructor | done |].
    destruct (parseLoop_trailer (length ts) fuel msg2 r1 r1 ts ck tail Et eq_refl Hts Hck)
      as (msg3 & Hl3 & Hb3 & Hf3).
    exists msg3. split; [|split].
    + rewrite length_app. simpl.
      replace (length pre + 1 + S (length ts) + fuel)%nat
        with (length pre + (1 + (S (length ts) + fuel)))%nat by lia.
      rewrite Hl1, Hl2, Hl3. by rewrite <- (Hbytes r1 Et).
    + by rewrite Hb3, Hb2, Hb1.
    + rewrite Hf3, Hf2, Hf1. by rewrite <- !app_assoc.
Qed.

(** X8.  A returned message whose fourth field, the one right behind the
    message type, is a body field has an empty body slice, whatever
    follows: the body cursor of [parseMessage] is set only by a field passed
    over before the first body field. *)
Theorem parseMessage_body_first_payload_empty
    (raw : list byte) (m : Message) (err : option error) (b : fieldBytes) :
  parseMessage raw = Some (Some m, err) ->
  fields m !! 3%nat = Some b -> inBody b ->
  bodyBytes m = [].
Proof.
  intros Hp H4 Hb.
  destruct (parseMessage_run _ _ _ Hp)
    as (f1 & f2 & f3 & r3 & fs & ck & tail & msg0 & tb
        & E3 & He & Hall & Hck & Hf & -> & Huniq).
  rewrite Hf in H4.
  destruct fs as [|b' fs]; simpl in H4; injection H4 as ->.
  { by apply inBody_not_checksum in Hb. }
  apply Forall_cons in Hall as [_ Hall].
  apply (extractFields_split 1 (S (length fs)) r3 [b] (fs ++ [ck])) in He
    as (rb & Eb & Et); [|done].
  destruct (parseLoop_body 1 (S (length fs) + 0) (leadMessage raw f1 f2 f3) [] false
              r3 [b] rb Eb) as (msg1 & Hl1 & Hb1 & _); [by constructor | done |].
  destruct (parseLoop_run (length fs) 0 msg1 rb true rb fs ck tail Et eq_refl Hall Hck)
    as (msg' & tb' & Hl2 & _).
  pose proof (parseLoop_frozen _ _ _ _ _ _ Hl2) as Hb2.
  rewrite Hl2 in Hl1. apply Huniq in Hl1 as [<- <-].
  assert (bodyBytes msg' = []) as Hnil by (by rewrite Hb2, Hb1).
  unfold trimBody. rewrite Hnil.
  destruct (len [] >? len tb') eqn:Hgt; [|exact Hnil].
  rewrite Z.gtb_ltb in Hgt. apply Z.ltb_lt in Hgt. unfold len in Hgt. simpl in Hgt. lia.
Qed.

Lemma parseMessage_body_first_payload_empty_witness :
  bodyBytes (parsed bodyFirst) = [].
Proof.
  apply (parseMessage_body_first_payload_empty bodyFirst (parsed bodyFirst) None
           (newFieldBytes 55 (str "X"))).
  - vm_compute. reflexivity.
  - vm_compute. reflexivity.
  - vm_compute. reflexivity.
Defined.

(** X9.  A returned message without body field has an empty body map.  Its
    body slice is empty when the message is made of the three leading fields
    and the checksum only; otherwise it is the checksum field followed by
    the bytes behind it in the buffer, since the cursor follows every field
    passed over and nothing is trimmed. *)
Theorem parseMessage_no_body_field
    (raw : list byte) (m : Message) (err : option error) :
  parseMessage raw = Some (Some m, err) ->
  Forall (fun f => partitionOf (Tag f) <> InBody) (fields m) ->
  fieldLookup (Body m) = ∅ /\
  exists (ck : fieldBytes) (tail : list byte),
    last (fields m) = Some ck /\ Tag ck = tag.CheckSum /\
    raw = concat (List.map Data (fields m)) ++ tail /\
    bodyBytes m = if decide (length (fields m) = 4%nat) then [] else Data ck ++ tail.
Proof.
  intros Hp Hno. split.
  { pose proof (parseMessage_mapsAgree _ _ _ Hp) as Hagree.
    apply map_eq. intros t. rewrite lookup_empty.
    destruct (Hagree t) as (_ & _ & ->).
    destruct (routedTo InBody t (fields m)) as [f|] eqn:Hr; [|done].
    apply routedTo_Some in Hr as (Hpart & <- & Hin).
    rewrite Forall_forall in Hno. by apply Hno in Hin. }
  destruct (parseMessage_run _ _ _ Hp)
    as (f1 & f2 & f3 & r3 & fs & ck & tail & msg0 & tb
        & E3 & He & Hall & Hck & Hf & Hm & Huniq).
  exists ck, tail.
  split; [rewrite Hf, !app_assoc; apply last_snoc|]. split; [done|].
  split.
  { rewrite Hf. pose proof (extractFields_app 3 (S (length fs)) _ _ _ E3) as Ha.
    rewrite He in Ha. by apply extractFields_bytes in Ha. }
  rewrite Hf in Hno. apply Forall_app in Hno as [_ Hno].
  apply Forall_app in Hno as [Hno _].
  assert (Forall passedOver fs) as Hpass.
  { rewrite Forall_forall in *. intros f Hin. split; auto. }
  replace (S (length fs)) with (length fs + 1)%nat in He by lia.
  apply extractFields_split in He as (r1 & Eh & Ec); [|done].
  destruct (parseLoop_advance _ 1 (leadMessage raw f1 f2 f3) [] r3 fs r1 Eh Hpass)
    as (msg1 & Hl1 & Hb1 & _).
  assert (r1 = Data ck ++ tail) as Hr1.
  { apply extractFields_bytes in Ec. simpl in Ec. by rewrite app_nil_r in Ec. }
  simpl in Ec. destruct (extractField r1) as [[g r]|[? ?]] eqn:Ef; [|done].
  injection Ec as -> ->.
  rewrite parseLoop_unfold, Ef in Hl1.
  assert (routeField (appendField msg1 ck) [] false ck tail
          = (storeTrailer (appendField msg1 ck) ck, [], false)) as Hroute.
  { unfold routeField. by rewrite Hck. }
  rewrite Hroute in Hl1.
  pose proof Hck as Hck'. apply Z.eqb_eq in Hck'. rewrite Hck' in Hl1.
  apply Huniq in Hl1 as [<- <-]. subst m.
  assert (bodyBytes (trimBody (storeTrailer (appendField msg1 ck) ck) [])
          = bodyBytes msg1) as ->.
  { unfold trimBody. destruct (_ >? _); [|done]. simpl.
    by rewrite Nat.sub_0_r, firstn_all. }
  rewrite Hb1.
  assert (fields (trimBody (storeTrailer (appendField msg1 ck) ck) [])
          = [f1; f2; f3] ++ fs ++ [ck]) as -> by exact Hf.
  destruct fs as [|f fs].
  - reflexivity.
  - destruct (decide _) as [Hd|]; [|exact Hr1].
    rewrite !length_app in Hd. simpl in Hd. lia.
Qed.

Lemma parseMessage_no_body_field_witness :
  fieldLookup (Body (parsed heartbeat)) = ∅ /\
  exists (ck : fieldBytes) (tail : list byte),
    last (fields (parsed heartbeat)) = Some ck /\ Tag ck = tag.CheckSum /\
    heartbeat = concat (List.map Data (fields (parsed heartbeat))) ++ tail /\
    bodyBytes (parsed heartbeat)
      = if decide (length (fields (parsed heartbeat)) = 4%nat) then []
        else Data ck ++ tail.
Proof.
  apply (parseMessage_no_body_field heartbeat (parsed heartbeat) None).
  - vm_compute. reflexivity.
  - vm_compute. repeat constructor; discriminate.
Defined.

(** X10.  A returned message in which a field passed over stands between
    the message type and the first body field has as body slice the bytes
    from its first body field up to the end of its last body field: the
    bytes of the body fields and of every header or trailer field that
    stands between two of them. *)
Theorem parseMessage_body_payload_span
    (raw : list byte) (m : Message) (err : option error)
    (f1 f2 f3 ck b bl : fieldBytes) (hs mid ts : list fieldBytes) :
  parseMessage raw = Some (Some m, err) ->
  fields m = [f1; f2; f3] ++ hs ++ mid ++ ts ++ [ck] ->
  hs <> [] -> Forall passedOver hs ->
  head mid = Some b -> inBody b ->
  last mid = Some bl -> inBody bl ->
  Forall passedOver ts ->
  bodyBytes m = concat (List.map Data mid).
Proof.
  intros Hp Hfm Hhs Hh Hhead Hb Hlast Hbl Hts.
  destruct (parseMessage_run _ _ _ Hp)
    as (g1 & g2 & g3 & r3 & fs & ck' & tail & msg0 & tb
        & E3 & He & Hall & Hck & Hf & -> & Huniq).
  rewrite Hfm in Hf. injection Hf as <- <- <- Hf.
  rewrite !app_assoc in Hf. apply app_inj_tail in Hf as [<- <-].
  rewrite <- !app_assoc in He, Hall.
  apply Forall_app in Hall as [_ Hall]. apply Forall_app in Hall as [Hmid _].
  destruct mid as [|b' mid']; [by simpl in Hhead|].
  simpl in Hhead. injection Hhead as ->.
  apply Forall_cons in Hmid as [_ Hmid].
  assert (mid' = [] \/ exists pre bl', mid' = pre ++ [bl'] /\ inBody bl') as Hshape.
  { destruct mid' as [|x mid'']; [by left|]. right.
    rewrite last_cons_cons in Hlast. apply last_Some in Hlast as [pre ->].
    by exists pre, bl. }
  (* the phases of the loop *)
  replace (S (length (hs ++ (b :: mid') ++ ts)))
    with (length hs + (1 + (length mid' + S (length ts))))%nat in He
    by (rewrite !length_app; simpl; lia).
  replace ((hs ++ (b :: mid') ++ ts) ++ [ck])
    with (hs ++ [b] ++ mid' ++ ts ++ [ck]) in He
    by (rewrite <- !app_assoc; reflexivity).
  apply extractFields_split in He as (rh & Eh & He); [|done].
  apply extractFields_split in He as (rb & Eb & Et); [|done].
  destruct (parseLoop_advance _ (1 + (length mid' + S (length ts) + 0))
              (leadMessage raw f1 f2 f3) [] r3 hs rh Eh Hh)
    as (msg1 & Hl1 & Hb1 & _).
  destruct (parseLoop_body 1 (length mid' + S (length ts) + 0) msg1 [] false rh [b] rb Eb)
    as (msg2 & Hl2 & Hb2 & _); [by constructor | done |].
  destruct (parseLoop_last_body 0 msg2 rb mid' ts ck tail Et Hmid Hshape Hts Hck)
    as (msg3 & Hl3 & Hb3 & _).
  rewrite Hl2, Hl3 in Hl1. apply Huniq in Hl1 as [<- <-].
  (* the trimming *)
  set (rt := concat (List.map Data ts) ++ Data ck ++ tail) in *.
  assert (rh = concat (List.map Data (b :: mid')) ++ rt) as Hrh.
  { pose proof (extractFields_app 1 (length mid' + S (length ts)) _ _ _ Eb) as Hall2.
    rewrite Et in Hall2. apply extractFields_bytes in Hall2.
    rewrite Hall2. unfold rt.
    rewrite !List.map_app, !concat_app. simpl.
    by rewrite <- ?app_assoc, ?app_nil_r. }
  assert (bodyBytes msg3 = concat (List.map Data (b :: mid')) ++ rt) as Hbody.
  { rewrite Hb3, Hb2, Hb1. by destruct hs. }
  assert (0 < length (concat (List.map Data (b :: mid'))))%nat as Hpos.
  { simpl. rewrite length_app. simpl in Eb.
    destruct (extractField rh) as [[g r]|[? ?]] eqn:Ef; [|done].
    injection Eb as -> ->. apply extractField_Data_nonempty in Ef. lia. }
  unfold trimBody. rewrite Hbody. unfold len. rewrite length_app.
  assert ((Z.of_nat (length (concat (List.map Data (b :: mid'))) + length rt)
             >? Z.of_nat (length rt)) = true) as ->
    by (rewrite Z.gtb_ltb; apply Z.ltb_lt; lia).
  cbn [bodyBytes setBodyBytes].
  replace (length (concat (List.map Data (b :: mid'))) + length rt - length rt)%nat
    with (length (concat (List.map Data (b :: mid')))) by lia.
  by rewrite take_app_length.
Qed.

(** On a message with a header field between two body fields. *)
Lemma parseMessage_body_payload_span_witness :
  bodyBytes (parsed (wire "8=FIX.4.2|9=25|35=D|49=A|55=X|56=B|54=1|10=000|"))
  = concat (List.map Data [newFieldBytes 55 (str "X"); newFieldBytes 56 (str "B");
                           newFieldBytes 54 (str "1")]).
Proof.
  apply (parseMessage_body_payload_span
           (wire "8=FIX.4.2|9=25|35=D|49=A|55=X|56=B|54=1|10=000|") _ None
           (newFieldBytes 8 (str "FIX.4.2")) (newFieldBytes 9 (str "25"))
           (newFieldBytes 35 (str "D")) (newFieldBytes 10 (str "000"))
           (newFieldBytes 55 (str "X")) (newFieldBytes 54 (str "1"))
           [newFieldBytes 49 (str "A")]
           [newFieldBytes 55 (str "X"); newFieldBytes 56 (str "B");
            newFieldBytes 54 (str "1")]
           []).
  - vm_compute. reflexivity.
  - vm_compute. reflexivity.
  - discriminate.
  - repeat constructor; vm_compute; discriminate.
  - reflexivity.
  - vm_compute. reflexivity.
  - reflexivity.
  - vm_compute. reflexivity.
  - constructor.
Defined.

(** ** [rebuild] applied again *)

Lemma Message_eq (a b : Message) :
  Header a = Header b -> Trailer a = Trailer b -> Body a = Body b ->
  ReceiveTime a = ReceiveTime b -> Bytes a = Bytes b ->
  bodyBytes a = bodyBytes b -> fields a = fields b -> a = b.
Proof. destruct a, b; simpl; congruence. Qed.

(** The header [rebuild] leaves is kept by a further [rebuild]. *)
Lemma rebuild_Header_again (m : Message) :
  Header (rebuild (rebuild m)) = Header (rebuild m).
Proof.
  rewrite (rebuild_Header (rebuild m)).
  destruct (rebuild_length_accounting m) as [Hacc _]. rewrite <- Hacc.
  rewrite (rebuild_Header m). apply fieldMap_store_store.
Qed.

Lemma rebuildCheckSum_again (m : Message) :
  rebuildCheckSum (rebuild (rebuild m)) = rebuildCheckSum (rebuild m).
Proof.
  unfold rebuildCheckSum.
  rewrite rebuild_Header_again, (rebuild_Trailer (rebuild m)), fieldMap_total_store.
  by rewrite (rebuild_bodyBytes (rebuild m)).
Qed.

Lemma rebuild_Trailer_again (m : Message) :
  Trailer (rebuild (rebuild (rebuild m))) = Trailer (rebuild (rebuild m)).
Proof.
  rewrite (rebuild_Trailer (rebuild (rebuild m))), rebuildCheckSum_again.
  rewrite (rebuild_Trailer (rebuild m)). apply fieldMap_store_store.
Qed.

(** X11.  [rebuild] settles at its second application: a third one changes
    nothing, and already the second one keeps the header of the first. *)
Theorem rebuild_settles (m : Message) :
  rebuild (rebuild (rebuild m)) = rebuild (rebuild m) /\
  Header (rebuild (rebuild m)) = Header (rebuild m).
Proof.
  split; [|apply rebuild_Header_again].
  apply Message_eq; try reflexivity.
  - apply (rebuild_Header_again (rebuild m)).
  - apply rebuild_Trailer_again.
  - rewrite (rebuild_Bytes (rebuild (rebuild m))), (rebuild_Bytes (rebuild m)).
    rewrite (rebuild_Header_again (rebuild m)), rebuild_Trailer_again.
    by rewrite (rebuild_bodyBytes (rebuild m)).
Qed.

(** X12.  When the header holds no checksum entry, the checksum the second
    [rebuild] writes is the checksum of the bytes it writes: the body-length
    field the first [rebuild] stored is the one the second one sums. *)
Theorem rebuild_again_checksum (m : Message) :
  fieldLookup (Header m) !! tag.CheckSum = None ->
  checkSumValue (rebuild (rebuild m))
    = Some (sprintf03d (outputCheckSum (rebuild (rebuild m)))).
Proof.
  intros Hno. apply rebuild_checksum_same_length.
  - destruct (rebuild_length_accounting m) as [Hacc _]. rewrite <- Hacc.
    apply rebuild_writes_body_length.
  - destruct (rebuild_lookup_unchanged m tag.CheckSum) as [-> _]; done.
Qed.

(** On the message whose first rebuilt checksum is stale. *)
Lemma rebuild_again_checksum_witness :
  checkSumValue (rebuild (rebuild (setHeaderField (parsed order) tag.TargetCompID (str "B"))))
    = Some (sprintf03d (outputCheckSum
              (rebuild (rebuild (setHeaderField (parsed order) tag.TargetCompID (str "B")))))).
Proof.
  apply (rebuild_again_checksum (setHeaderField (parsed order) tag.TargetCompID (str "B"))).
  vm_compute. reflexivity.
Defined.

(** X13.  The checksum field [rebuild] stores is [10=ddd] and the
    delimiter, with three decimal digits that read as a number from 0 to
    255, the sum of the byte sums of header and trailer and of the bytes of
    the body slice modulo 256. *)
Theorem rebuild_checksum_field (m : Message) :
  exists (f : fieldBytes) (d1 d2 d3 : byte) (c : Z),
    fieldLookup (Trailer (rebuild m)) !! tag.CheckSum = Some f /\
    Tag f = tag.CheckSum /\ Value f = [d1; d2; d3] /\
    Data f = str "10=" ++ [d1; d2; d3] ++ [SOH] /\
    isDigit d1 = true /\ isDigit d2 = true /\ isDigit d3 = true /\
    atoi [d1; d2; d3] = Some c /\ 0 <= c <= 255 /\
    c = (fieldMap_total (Header m) + fieldMap_total (Trailer m)
         + sumBytes (bodyBytes m)) mod 256.
Proof.
  destruct (rebuild_checksum_written m) as (Hl & _ & Hr & H3).
  unfold threeDigits in H3. apply andb_prop in H3 as [H3 Ha].
  apply andb_prop in H3 as [Hlen Hd]. apply bool_decide_eq_true in Ha.
  apply Nat.eqb_eq in Hlen.
  destruct (sprintf03d (rebuildCheckSum m)) as [|d1 [|d2 [|d3 [|? ?]]]] eqn:Hs;
    try discriminate Hlen.
  simpl in Hd. apply andb_prop in Hd as [Hd1 Hd]. apply andb_prop in Hd as [Hd2 Hd].
  apply andb_prop in Hd as [Hd3 _].
  exists (newFieldBytes tag.CheckSum [d1; d2; d3]), d1, d2, d3, (rebuildCheckSum m).
  split; [exact Hl|]. do 3 (split; [reflexivity|]). do 3 (split; [done|]).
  split; [exact Ha|]. split; [lia|].
  unfold rebuildCheckSum. apply Z.rem_mod_nonneg; [|lia].
  pose proof (fieldMap_total_nonneg (Header m)).
  pose proof (fieldMap_total_nonneg (Trailer m)).
  pose proof (sumBytes_nonneg (bodyBytes m)). lia.
Qed.

(** X14.  The bytes [rebuild] writes for a returned message start with the
    begin-string field of the header, the body-length field it has just
    stored and the message-type field, and end with the checksum field it has
    just stored. *)
Theorem rebuild_output_frame
    (raw : list byte) (m : Message) (err : option error) :
  parseMessage raw = Some (Some m, err) ->
  exists (h8 h35 : fieldBytes) (mid : list byte),
    fieldLookup (Header m) !! tag.BeginString = Some h8 /\
    fieldLookup (Header m) !! tag.MsgType = Some h35 /\
    Bytes (rebuild m)
    = Data h8
      ++ Data (newFieldBytes tag.BodyLength
                 (itoa (fieldMap_length (Header m) + len (bodyBytes m)
                        + fieldMap_length (Trailer m))))
      ++ Data h35 ++ mid
      ++ Data (newFieldBytes tag.CheckSum (sprintf03d (rebuildCheckSum m))).
Proof.
  intros Hp.
  destruct (parseMessage_shape _ _ _ Hp)
    as (f1 & f2 & f3 & fs & ck & tail & _ & Hf & Hlead & _ & _).
  pose proof (parseMessage_mapsAgree _ _ _ Hp) as Hagree.
  destruct (parseMessage_orders _ _ _ Hp) as [HoH HoT].
  destruct (rebuild_entries _ _ _ Hp) as [_ HeT].
  injection Hlead as H1 H2 H3.
  assert (forall f t, f ∈ fields m -> Tag f = t -> partitionOf t = InHeader ->
                      is_Some (fieldLookup (Header m) !! t)) as Hhdr.
  { intros f t Hin Ht Hpt. destruct (Hagree t) as (-> & _ & _).
    unfold routedTo. rewrite decide_True by done. by eapply lastWithTag_is_Some. }
  destruct (Hhdr f1 tag.BeginString) as [h8 H8];
    [rewrite Hf; apply list_elem_of_here | done | done |].
  destruct (Hhdr f3 tag.MsgType) as [h35 H35];
    [rewrite Hf; do 2 apply list_elem_of_further; apply list_elem_of_here
    | done | done |].
  destruct (rebuild_writes_body_length m) as [H9 _].
  destruct (rebuild_checksum_written m) as (H10 & _).
  set (h9 := newFieldBytes tag.BodyLength _) in *.
  set (t10 := newFieldBytes tag.CheckSum _) in *.
  destruct (writtenFields_header (Header (rebuild m)) h8 h9 h35) as [others Hw1].
  - by rewrite rebuild_Header.
  - destruct (rebuild_lookup_unchanged m tag.BeginString) as [-> _]; done.
  - exact H9.
  - destruct (rebuild_lookup_unchanged m tag.MsgType) as [-> _]; done.
  - destruct (writtenFields_trailer (Trailer (rebuild m)) t10) as (others' & Hw2 & _).
    + by rewrite rebuild_Trailer.
    + intros t f Hl. by destruct (HeT _ _ Hl) as (_ & ? & _).
    + exact H10.
    + exists h8, h35,
        (concat (List.map Data others) ++ bodyBytes m ++ concat (List.map Data others')).
      split; [exact H8|]. split; [exact H35|].
      rewrite rebuild_Bytes, !fieldMap_write_writtenFields, Hw1, Hw2.
      rewrite !List.map_app, !concat_app. cbn [List.map concat].
      rewrite !app_nil_r. by rewrite <- !app_assoc.
Qed.

Lemma rebuild_output_frame_witness :
  exists (h8 h35 : fieldBytes) (mid : list byte),
    fieldLookup (Header (parsed order)) !! tag.BeginString = Some h8 /\
    fieldLookup (Header (parsed order)) !! tag.MsgType = Some h35 /\
    Bytes (rebuild (parsed order))
    = Data h8
      ++ Data (newFieldBytes tag.BodyLength
                 (itoa (fieldMap_length (Header (parsed order))
                        + len (bodyBytes (parsed order))
                        + fieldMap_length (Trailer (parsed order)))))
      ++ Data h35 ++ mid
      ++ Data (newFieldBytes tag.CheckSum (sprintf03d (rebuildCheckSum (parsed order)))).
Proof.
  apply (rebuild_output_frame order (parsed order) None).
  vm_compute. reflexivity.
Defined.

(** X15.  The round trip of a message in partition order.  When a buffer
    parses without error into the three leading fields, at least one field
    passed over, at least one body field, fields passed over and the
    checksum, the bytes [rebuild] writes parse without error too, into the
    header and trailer maps [rebuild] left and the body map of the first
    parse. *)
Theorem round_trip_in_partition_order
    (raw : list byte) (m : Message) (f1 f2 f3 ck : fieldBytes)
    (hs bs ts : list fieldBytes) :
  parseMessage raw = Some (Some m, None) ->
  fields m = [f1; f2; f3] ++ hs ++ bs ++ ts ++ [ck] ->
  hs <> [] -> Forall passedOver hs ->
  bs <> [] -> Forall inBody bs ->
  Forall passedOver ts ->
  exists m2 : Message,
    parseMessage (Bytes (rebuild m)) = Some (Some m2, None) /\
    fieldLookup (Header m2) = fieldLookup (Header (rebuild m)) /\
    fieldLookup (Body m2) = fieldLookup (Body m) /\
    fieldLookup (Trailer m2) = fieldLookup (Trailer (rebuild m)).
Proof.
  intros Hp Hfm Hhs Hh Hbs Hb Hts.
  destruct (parseMessage_shape _ _ _ Hp)
    as (g1 & g2 & g3 & fs & ck' & tail & He & Hf & Hlead & _ & Hck).
  rewrite Hfm in Hf. injection Hf as <- <- <- Hf.
  rewrite !app_assoc in Hf. apply app_inj_tail in Hf as [<- <-].
  replace (3 + S (length (((hs ++ bs) ++ ts))))%nat
    with (3 + (length hs + (length bs + S (length ts))))%nat in He
    by (rewrite !length_app; lia).
  replace ([f1; f2; f3] ++ ((hs ++ bs) ++ ts) ++ [ck])
    with ([f1; f2; f3] ++ hs ++ bs ++ ts ++ [ck]) in He
    by (by rewrite <- !app_assoc).
  exact (round_trip_regular raw tail f1 f2 f3 ck hs bs ts
           He Hlead Hhs Hh Hbs Hb Hts Hck m Hp).
Qed.

Lemma round_trip_in_partition_order_witness :
  exists m2 : Message,
    parseMessage (Bytes (rebuild (parsed order))) = Some (Some m2, None) /\
    fieldLookup (Header m2) = fieldLookup (Header (rebuild (parsed order))) /\
    fieldLookup (Body m2) = fieldLookup (Body (parsed order)) /\
    fieldLookup (Trailer m2) = fieldLookup (Trailer (rebuild (parsed order))).
Proof.
  apply (round_trip_in_partition_order order (parsed order)
           (newFieldBytes 8 (str "FIX.4.2")) (newFieldBytes 9 (str "15"))
           (newFieldBytes 35 (str "D")) (newFieldBytes 10 (str "210"))
           [newFieldBytes 49 (str "A")] [newFieldBytes 55 (str "X")] []).
  - vm_compute. reflexivity.
  - vm_compute. reflexivity.
  - discriminate.
  - repeat constructor; vm_compute; discriminate.
  - discriminate.
  - repeat constructor.
  - constructor.
Defined.

(** ** Written fields and error texts *)

Lemma itoa_pos_digits (t : Z) :
  0 < t -> Forall (fun b => isDigit b = true) (itoa t).
Proof.
  intros Ht. unfold itoa. destruct t as [|p|p]; try lia.
  simpl. apply bytes_of_uint_digits.
Qed.

Lemma digits_no_equals (s : list byte) :
  Forall (fun b => isDigit b = true) s -> EQUALS ∉ s.
Proof.
  intros H Hin. rewrite Forall_forall in H. by apply H in Hin.
Qed.

Lemma parseUInt_itoa (t : Z) : 0 < t -> parseUInt (itoa t) = Some t.
Proof.
  intros Ht. pose proof (atoi_itoa t) as Ha.
  pose proof (itoa_pos_digits t Ht) as Hd.
  unfold atoi in Ha. destruct (itoa t) as [|b rest]; [done|].
  apply Forall_cons in Hd as [Hb _].
  destruct b; try exact Ha. discriminate Hb.
Qed.

(** X16.  A field encoded under a positive tag with a value free of the
    delimiter is read back by [extractField] from its own bytes, whatever
    follows them: tag, value and bytes are those of the field, and the rest
    is what followed. *)
Theorem extractField_reads_a_written_field
    (t : Z) (value rest : list byte) :
  0 < t -> SOH ∉ value ->
  extractField (Data (newFieldBytes t value) ++ rest)
    = inl (newFieldBytes t value, rest).
Proof.
  intros Ht Hv. revert rest.
  change (readsBack (newFieldBytes t value)).
  pose proof (itoa_pos_digits t Ht) as Hd.
  assert (Data (newFieldBytes t value) = (itoa t ++ EQUALS :: value) ++ [SOH]) as HD.
  { unfold newFieldBytes. simpl. by rewrite <- app_assoc. }
  apply (readsBack_intro _ (length (itoa t ++ EQUALS :: value))).
  - rewrite HD. apply IndexByte_skip.
    rewrite not_elem_of_app, not_elem_of_cons.
    split; [apply itoa_no_delim | by split].
  - rewrite HD, length_app. simpl. lia.
  - unfold parseField.
    assert (IndexByte (Data (newFieldBytes t value)) EQUALS = Some (length (itoa t)))
      as ->.
    { unfold newFieldBytes. simpl. by apply IndexByte_skip, digits_no_equals. }
    assert (take (length (itoa t)) (Data (newFieldBytes t value)) = itoa t) as ->.
    { unfold newFieldBytes. simpl. apply take_app_length. }
    rewrite (parseUInt_itoa t Ht).
    assert ((0 <? t) = true) as -> by (apply Z.ltb_lt; lia).
    assert (drop (S (length (itoa t)))
              (take (length (Data (newFieldBytes t value)) - 1)
                 (Data (newFieldBytes t value))) = value) as ->; [|done].
    rewrite HD at 2. rewrite HD at 1.
    replace (length ((itoa t ++ EQUALS :: value) ++ [SOH]) - 1)%nat
      with (length (itoa t ++ EQUALS :: value))
      by (rewrite (length_app _ [SOH]); simpl; lia).
    rewrite take_app_length.
    replace (itoa t ++ EQUALS :: value) with ((itoa t ++ [EQUALS]) ++ value)
      by (by rewrite <- app_assoc).
    replace (S (length (itoa t))) with (length (itoa t ++ [EQUALS]))
      by (rewrite length_app; simpl; lia).
    apply drop_app_length.
Qed.

Lemma extractField_reads_a_written_field_witness :
  extractField (Data (newFieldBytes tag.SenderCompID (str "A")) ++ str "56=B")
    = inl (newFieldBytes tag.SenderCompID (str "A"), str "56=B").
Proof.
  apply (extractField_reads_a_written_field tag.SenderCompID (str "A") (str "56=B")).
  - reflexivity.
  - vm_compute. intros H. by repeat (apply elem_of_cons in H as [H|H]; [discriminate H|]);
      apply elem_of_nil in H.
Defined.

Lemma itoa_inj (a b : Z) : itoa a = itoa b -> a = b.
Proof.
  intros H. apply (f_equal atoi) in H. rewrite !atoi_itoa in H. by injection H.
Qed.

Lemma itoa_no_comma (z : Z) : x2c ∉ itoa z.
Proof.
  assert (forall s, Forall (fun b => isDigit b = true) s -> x2c ∉ s) as Hd.
  { intros s H Hin. rewrite Forall_forall in H. by apply H in Hin. }
  unfold itoa. destruct (Z.to_int z) as [d|d].
  - apply Hd, bytes_of_uint_digits.
  - apply not_elem_of_cons. split; [done|]. apply Hd, bytes_of_uint_digits.
Qed.

Lemma split_at_first (c : byte) (l1 l2 r1 r2 : list byte) :
  c ∉ l1 -> c ∉ l2 -> l1 ++ c :: r1 = l2 ++ c :: r2 -> l1 = l2 /\ r1 = r2.
Proof.
  revert l2. induction l1 as [|a l1 IH]; intros [|b l2] H1 H2 Heq; simpl in Heq.
  - by injection Heq.
  - injection Heq as <- _. by apply not_elem_of_cons in H2 as [? _].
  - injection Heq as -> _. by apply not_elem_of_cons in H1 as [? _].
  - injection Heq as <- Heq.
    apply not_elem_of_cons in H1 as [_ H1]. apply not_elem_of_cons in H2 as [_ H2].
    destruct (IH l2 H1 H2 Heq) as [-> ->]. done.
Qed.

(** Two texts "[prefix] a, got b" with the same prefix carry the same
    numbers. *)
Lemma two_numbers_text (prefix : list byte) (a b a' b' : Z) :
  parseError_Error (prefix ++ itoa a ++ str ", got " ++ itoa b)
  = parseError_Error (prefix ++ itoa a' ++ str ", got " ++ itoa b') ->
  a = a' /\ b = b'.
Proof.
  unfold parseError_Error. intros H.
  apply app_inv_head in H. apply app_inv_head in H.
  change (str ", got ") with (x2c :: str " got ") in H. simpl in H.
  apply split_at_first in H as [Ha Hb]; try apply itoa_no_comma.
  apply (app_inv_head (str " got ")) in Hb.
  split; by apply itoa_inj.
Qed.

(** X17.  The text of an out-of-order error determines the expected and
    the actual tag it names. *)
Theorem out_of_order_text_determines_tags (expected actual expected' actual' : Z) :
  error_Error (errOutOfOrder expected actual)
  = error_Error (errOutOfOrder expected' actual') ->
  expected = expected' /\ actual = actual'.
Proof.
  unfold errOutOfOrder, error_Error. intros H. apply (inj Some) in H.
  exact (two_numbers_text _ _ _ _ _ H).
Qed.

Lemma out_of_order_text_determines_tags_witness :
  tag.BeginString = tag.BeginString /\ tag.MsgType = tag.MsgType.
Proof.
  apply (out_of_order_text_determines_tags tag.BeginString tag.MsgType
           tag.BeginString tag.MsgType).
  reflexivity.
Defined.

(** X18.  The text of a length-mismatch error determines the declared and
    the computed length it carries. *)
Theorem incorrect_length_text_determines_lengths (expected got expected' got' : Z) :
  error_Error (errIncorrectLength expected got)
  = error_Error (errIncorrectLength expected' got') ->
  expected = expected' /\ got = got'.
Proof.
  unfold errIncorrectLength, error_Error. intros H. apply (inj Some) in H.
  exact (two_numbers_text _ _ _ _ _ H).
Qed.

Lemma incorrect_length_text_determines_lengths_witness : 20 = 20 /\ 27 = 27.
Proof.
  apply (incorrect_length_text_determines_lengths 20 27 20 27). reflexivity.
Defined.

(** ** The builder of [reverseRoute] *)





